(** * An indexed min-priority queue over a quadratic-probing hash table

    Shallow embedding of [hash_table.hpp] and [priority_queue.hpp].

    Conventions of the embedding.
    - [unsigned] is a 32-bit integer: a [Z] in [0, 2^32) with the
      wrap-around written out ([wrap]).
    - A C++ array is a [list] of cells; [rd] and [wr] are the accesses
      [a[i]] and [a[i] = x].  An access outside the allocation has no
      defined behaviour and yields [None].
    - [new Pair<V>[n]] default-initialises its cells: [isEmpty] is [true],
      [key] and [value] are indeterminate.  An indeterminate field is
      [None]; using its value in a comparison or in arithmetic has no
      defined behaviour.
    - Every member function returns in the [option] monad: [None] means
      that the C++ run has no defined behaviour (or, for the single fuelled
      loop [percolateDown], that the fuel ran out); for a constructor
      [None] means that [std::runtime_error] is thrown.
    - A returned pointer is a [ptr]: [Null], or the address of the [key] or
      [value] field of the cell with a given index. *)

From Stdlib Require Import ZArith Znumtheory Lia List Bool String Ascii.
From stdpp Require Import base option list pretty.

Local Open Scope Z_scope.

(** ** Machine integers and memory cells *)

Definition wrap (x : Z) : Z := x mod 2 ^ 32.

(** [a % b] on [unsigned]; a zero divisor has no defined behaviour. *)
Definition umod (a b : Z) : option Z :=
  if b =? 0 then None else Some (a mod b).

(** Conversion of an [unsigned] to [int] (two's complement). *)
Definition to_int (x : Z) : Z := if x <? 2 ^ 31 then x else x - 2 ^ 32.

Record Pair (V : Type) : Type := mkPair {
  key : option Z;
  value : option V;
  isEmpty : bool
}.
Arguments mkPair {V} _ _ _.
Arguments key {V} _.
Arguments value {V} _.
Arguments isEmpty {V} _.

(** A default-initialised cell. *)
Definition fresh {V : Type} : Pair V := mkPair None None true.

Inductive ptr : Type :=
| Null
| KeyAt (i : Z)
| ValueAt (i : Z).

Definition is_null (p : ptr) : bool :=
  match p with Null => true | _ => false end.

Definition rd {A : Type} (a : list A) (i : Z) : option A :=
  if i <? 0 then None else a !! Z.to_nat i.

Definition wr {A : Type} (a : list A) (i : Z) (x : A) : option (list A) :=
  if (0 <=? i) && (i <? Z.of_nat (length a))
  then Some (<[Z.to_nat i := x]> a) else None.

(** ** [isPrime] and [nextPrime]

    Both classes carry the same private copies of these two functions. *)

(** [for (i = 2; i < value; i++) if (value % i == 0) return false;]
    with [n] iterations left. *)
Fixpoint isPrime_loop (n : nat) (i value : Z) : bool :=
  match n with
  | O => true
  | S n' => if value mod i =? 0 then false else isPrime_loop n' (i + 1) value
  end.

Definition isPrime (value : Z) : bool :=
  if value =? 1 then false
  else isPrime_loop (Z.to_nat (value - 2)) 2 value.

(** [while (!isPrime(primeNum)) primeNum++;] run for at most
    [fuel] candidates.  [inl p]: the loop stopped at [p]; [inr p]: all
    candidates were composite and [p] is the next one.  The candidate is
    kept as its 32-bit pattern: [INT_MAX] is prime, so the [int] never
    overflows, and a pattern that runs past [2^32 - 1] reaches [0], which
    [isPrime] accepts. *)
Fixpoint nextPrime_iter (fuel : positive) (primeNum : Z) : Z + Z :=
  match fuel with
  | xH => if isPrime primeNum then inl primeNum else inr (wrap (primeNum + 1))
  | xO f | xI f =>
      match nextPrime_iter f primeNum with
      | inl p => inl p
      | inr p => nextPrime_iter f p
      end
  end.

Definition nextPrime (value : Z) : Z :=
  match nextPrime_iter (2 ^ 32)%positive value with
  | inl p => p
  | inr p => p
  end.

Arguments nextPrime_iter : simpl never.
Arguments nextPrime : simpl never.

(** ** The hash table *)

Module HashTable.
Section WithValue.
Context {V : Type}.

Record t : Type := mk {
  table : list (Pair V);
  size : Z;
  elementCount : Z
}.

Definition tableSize (h : t) : Z := size h.
Definition numElements (h : t) : Z := elementCount h.

Definition set_table (tb : list (Pair V)) (h : t) : t :=
  mk tb (size h) (elementCount h).
Definition set_elementCount (n : Z) (h : t) : t :=
  mk (table h) (size h) n.

(** [explicit HashTable(unsigned tableSize)]. *)
Definition new (tableSize : Z) : option t :=
  if (tableSize =? 0) || negb (isPrime tableSize) then None
  else Some (mk (replicate (Z.to_nat tableSize) fresh) tableSize 0).

(** [int newIndex = (index + (i*i)) % tableSize();] *)
Definition probe (index i sz : Z) : option Z :=
  r ← umod (wrap (index + wrap (i * i))) sz; Some (to_int r).

(** [!table[j].isEmpty && key == table[j].key] *)
Definition matches (k : Z) (c : Pair V) : option bool :=
  if isEmpty c then Some false else k' ← key c; Some (k =? k').

(** [table[i].key = key; table[i].value = value; table[i].isEmpty = false;] *)
Definition store (k : option Z) (v : option V) (i : Z)
    (tb : list (Pair V)) : option (list (Pair V)) :=
  wr tb i (mkPair k v false).

(** *** [checkRehash] *)

(** [elementCount*1.0 / size >= 0.5].  Both operands are exact in a
    [double] and the quotient is correctly rounded, so the test is
    [size <= 2*elementCount]; with [size = 0] the quotient is [inf]
    (or NaN when the count is [0] too). *)
Definition loadFactor_ge_half (count sz : Z) : bool :=
  if sz =? 0 then 0 <? count else sz <=? 2 * count.

(** First loop: copy the occupied buckets, in bucket order, to [temp]. *)
Fixpoint collect (n : nat) (i : Z) (tb temp : list (Pair V)) (count : Z)
    : option (list (Pair V)) :=
  match n with
  | O => Some temp
  | S n' =>
      c ← rd tb i;
      if isEmpty c then collect n' (i + 1) tb temp count
      else
        d ← rd temp count;
        temp' ← wr temp count (mkPair (key c) (value c) (isEmpty d));
        collect n' (i + 1) tb temp' (count + 1)
  end.

(** Inner probing loop of the re-insertion; an element for which no
    empty bucket is found is dropped. *)
Fixpoint rehash_probe (n : nat) (j ind : Z) (e : Pair V) (sz : Z)
    (tb : list (Pair V)) : option (list (Pair V)) :=
  match n with
  | O => Some tb
  | S n' =>
      newIndex ← probe ind j sz;
      c ← rd tb newIndex;
      if isEmpty c then store (key e) (value e) newIndex tb
      else rehash_probe n' (j + 1) ind e sz tb
  end.

(** Second loop: [for (i = 0; i < prevElementCount; i++)]. *)
Fixpoint rehash_insert (n : nat) (i : Z) (temp : list (Pair V)) (sz : Z)
    (tb : list (Pair V)) : option (list (Pair V)) :=
  match n with
  | O => Some tb
  | S n' =>
      e ← rd temp i;
      k ← key e;
      ind ← umod k sz;
      c ← rd tb ind;
      tb' ← (if isEmpty c then store (key e) (value e) ind tb
             else rehash_probe (Z.to_nat sz) 0 ind e sz tb);
      rehash_insert n' (i + 1) temp sz tb'
  end.

Definition checkRehash (index k : Z) (h : t) : option (t * Z) :=
  let prevElementCount := wrap (elementCount h - 1) in
  if loadFactor_ge_half (elementCount h) (size h) then
    temp ← collect (Z.to_nat (size h)) 0 (table h)
              (replicate (Z.to_nat prevElementCount) fresh) 0;
    let size' := nextPrime (wrap (2 * size h)) in
    tb ← rehash_insert (Z.to_nat prevElementCount) 0 temp size'
            (replicate (Z.to_nat size') fresh);
    r ← umod k size';
    Some (mk tb size' (elementCount h), r)
  else Some (h, index).

(** *** [insert] *)

Inductive scan : Type :=
| Duplicate
| Continue (h : t) (index : Z).

(** [elementCount++; index = checkRehash(index, key);] *)
Definition count_and_rehash (index k : Z) (h : t) : option scan :=
  r ← checkRehash index k (set_elementCount (wrap (elementCount h + 1)) h);
  Some (Continue r.1 r.2).

(** First probing loop of [insert]: look for the key or an empty bucket. *)
Fixpoint insert_scan (n : nat) (i index k : Z) (h : t) : option scan :=
  match n with
  | O => Some (Continue h index)
  | S n' =>
      newIndex ← probe index i (tableSize h);
      c ← rd (table h) newIndex;
      m ← matches k c;
      if (m : bool) then Some Duplicate
      else if isEmpty c then count_and_rehash index k h
      else insert_scan n' (i + 1) index k h
  end.

(** Second probing loop of [insert]: write to the first empty bucket. *)
Fixpoint insert_place (n : nat) (i index k : Z) (v : V) (h : t)
    : option (bool * t) :=
  match n with
  | O => Some (false, h)
  | S n' =>
      newIndex ← probe index i (tableSize h);
      c ← rd (table h) newIndex;
      if isEmpty c then
        tb ← store (Some k) (Some v) newIndex (table h);
        Some (true, set_table tb h)
      else insert_place n' (i + 1) index k v h
  end.

(** The closing [if]/[else] of [insert]: write to the home bucket or
    probe for an empty one. *)
Definition insert_write (index k : Z) (v : V) (h : t) : option (bool * t) :=
  c ← rd (table h) index;
  if isEmpty c then
    tb ← store (Some k) (Some v) index (table h);
    Some (true, set_table tb h)
  else insert_place (Z.to_nat (tableSize h)) 0 index k v h.

Definition insert (k : Z) (v : V) (h : t) : option (bool * t) :=
  index ← umod k (tableSize h);
  c ← rd (table h) index;
  s ← (if isEmpty c then count_and_rehash index k h
       else insert_scan (Z.to_nat (tableSize h)) 0 index k h);
  match s with
  | Duplicate => Some (false, h)
  | Continue h' index' => insert_write index' k v h'
  end.

(** *** [get], [update], [remove] *)

Fixpoint get_probe (n : nat) (i index k : Z) (h : t) : option ptr :=
  match n with
  | O => Some Null
  | S n' =>
      newIndex ← probe index i (tableSize h);
      c ← rd (table h) newIndex;
      m ← matches k c;
      if (m : bool) then Some (ValueAt newIndex)
      else get_probe n' (i + 1) index k h
  end.

Definition get (k : Z) (h : t) : option ptr :=
  index ← umod k (tableSize h);
  c ← rd (table h) index;
  m ← matches k c;
  if (m : bool) then Some (ValueAt index)
  else get_probe (Z.to_nat (tableSize h)) 0 index k h.

(** [*p] for a pointer returned by [get]. *)
Definition deref (p : ptr) (h : t) : option V :=
  match p with
  | ValueAt i => c ← rd (table h) i; value c
  | _ => None
  end.

(** [table[i].value = newValue;] *)
Definition set_value (v : V) (i : Z) (h : t) : option t :=
  c ← rd (table h) i;
  tb ← wr (table h) i (mkPair (key c) (Some v) (isEmpty c));
  Some (set_table tb h).

Fixpoint update_probe (n : nat) (i index k : Z) (v : V) (h : t)
    : option (bool * t) :=
  match n with
  | O => Some (false, h)
  | S n' =>
      newIndex ← probe index i (tableSize h);
      c ← rd (table h) newIndex;
      m ← matches k c;
      if (m : bool) then h' ← set_value v newIndex h; Some (true, h')
      else update_probe n' (i + 1) index k v h
  end.

Definition update (k : Z) (v : V) (h : t) : option (bool * t) :=
  index ← umod k (tableSize h);
  c ← rd (table h) index;
  m ← matches k c;
  if (m : bool) then h' ← set_value v index h; Some (true, h')
  else update_probe (Z.to_nat (tableSize h)) 0 index k v h.

(** [table[i].isEmpty = true; elementCount--;] *)
Definition clear (i : Z) (h : t) : option t :=
  c ← rd (table h) i;
  tb ← wr (table h) i (mkPair (key c) (value c) true);
  Some (mk tb (size h) (wrap (elementCount h - 1))).

Fixpoint remove_probe (n : nat) (i index k : Z) (h : t)
    : option (bool * t) :=
  match n with
  | O => Some (false, h)
  | S n' =>
      newIndex ← probe index i (tableSize h);
      c ← rd (table h) newIndex;
      m ← matches k c;
      if (m : bool) then h' ← clear newIndex h; Some (true, h')
      else remove_probe n' (i + 1) index k h
  end.

Definition remove (k : Z) (h : t) : option (bool * t) :=
  index ← umod k (tableSize h);
  c ← rd (table h) index;
  m ← matches k c;
  if (m : bool) then h' ← clear index h; Some (true, h')
  else remove_probe (Z.to_nat (tableSize h)) 0 index k h.

(** *** Copy and move *)

(** The copying loop of the copy constructor and of the copy assignment:
    [table[i].key = rhs.table[i].key; ...] for [n] more buckets. *)
Fixpoint copy_cells (n : nat) (i : Z) (src dst : list (Pair V))
    : option (list (Pair V)) :=
  match n with
  | O => Some dst
  | S n' =>
      c ← rd src i;
      dst' ← wr dst i (mkPair (key c) (value c) (isEmpty c));
      copy_cells n' (i + 1) src dst'
  end.

(** [HashTable(const HashTable& rhs)]; the copy assignment builds the same
    table (and returns [*this] unchanged when [this == &rhs]). *)
Definition copy (rhs : t) : option t :=
  tb ← copy_cells (Z.to_nat (tableSize rhs)) 0 (table rhs)
         (replicate (Z.to_nat (tableSize rhs)) fresh);
  Some (mk tb (tableSize rhs) (numElements rhs)).

(** The state in which the move constructor and the move assignment leave
    their argument: [table = nullptr; size = 0; elementCount = 0]. *)
Definition moved_from : t := mk [] 0 0.

(** [HashTable(HashTable&& rhs)]: the new object and the state of [rhs]. *)
Definition move (rhs : t) : t * t := (rhs, moved_from).

(** *** [removeAllByValue]

    [veq] is [operator==] of [ValueType]. *)

Fixpoint removeAllByValue_loop (veq : V → V → bool) (n : nat) (i : Z)
    (v : V) (counter : Z) (h : t) : option (Z * t) :=
  match n with
  | O => Some (counter, h)
  | S n' =>
      c ← rd (table h) i;
      hit ← (if isEmpty c then Some false
             else x ← value c; Some (veq x v));
      if (hit : bool) then
        h' ← clear i h;
        removeAllByValue_loop veq n' (i + 1) v (wrap (counter + 1)) h'
      else removeAllByValue_loop veq n' (i + 1) v counter h
  end.

Definition removeAllByValue (veq : V → V → bool) (v : V) (h : t)
    : option (Z * t) :=
  removeAllByValue_loop veq (Z.to_nat (tableSize h)) 0 v 0 h.

(** *** [operator==], [operator!=] and [operator+] *)

(** [!rhs.table[j].isEmpty && (table[i].key == rhs.table[j].key
      && table[i].value == rhs.table[j].value)] for the bucket [c] of the
    left table and the bucket [d] of the right one. *)
Definition same_pair (veq : V → V → bool) (c d : Pair V) : option bool :=
  if isEmpty d then Some false
  else
    k ← key c;
    k' ← key d;
    if k =? k' then x ← value c; y ← value d; Some (veq x y)
    else Some false.

(** The inner loop over the buckets of [rhs]. *)
Fixpoint count_inner (veq : V → V → bool) (m : nat) (j : Z) (c : Pair V)
    (rhs : t) (counter : Z) : option Z :=
  match m with
  | O => Some counter
  | S m' =>
      d ← rd (table rhs) j;
      b ← same_pair veq c d;
      count_inner veq m' (j + 1) c rhs
        (if (b : bool) then wrap (counter + 1) else counter)
  end.

(** The outer loop over the buckets of [*this]. *)
Fixpoint count_outer (veq : V → V → bool) (n : nat) (i : Z) (this rhs : t)
    (counter : Z) : option Z :=
  match n with
  | O => Some counter
  | S n' =>
      c ← rd (table this) i;
      counter' ← (if isEmpty c then Some counter
                  else count_inner veq (Z.to_nat (tableSize rhs)) 0 c rhs
                         counter);
      count_outer veq n' (i + 1) this rhs counter'
  end.

(** [operator==] *)
Definition eq (veq : V → V → bool) (this rhs : t) : option bool :=
  if negb (numElements this =? numElements rhs) then Some false
  else
    counter ← count_outer veq (Z.to_nat (tableSize this)) 0 this rhs 0;
    Some (counter =? numElements this).

(** [operator!=] *)
Definition ne (veq : V → V → bool) (this rhs : t) : option bool :=
  if negb (numElements this =? numElements rhs) then Some true
  else
    counter ← count_outer veq (Z.to_nat (tableSize this)) 0 this rhs 0;
    Some (negb (counter =? numElements this)).

(** The loop of [operator+]: insert the occupied buckets of [rhs], in
    bucket order, into [newTable]; the result of each [insert] is
    dropped. *)
Fixpoint plus_loop (n : nat) (i : Z) (rhs newTable : t) : option t :=
  match n with
  | O => Some newTable
  | S n' =>
      c ← rd (table rhs) i;
      newTable' ← (if isEmpty c then Some newTable
                   else
                     k ← key c;
                     v ← value c;
                     r ← insert k v newTable;
                     Some r.2);
      plus_loop n' (i + 1) rhs newTable'
  end.

(** [operator+] *)
Definition plus (this rhs : t) : option t :=
  newTable ← copy this;
  plus_loop (Z.to_nat (tableSize rhs)) 0 rhs newTable.

End WithValue.
Arguments t : clear implicits.
End HashTable.

(** ** The priority queue *)

Module PriorityQueue.
Section WithValue.
Context {V : Type}.

Record t : Type := mk {
  heap : list (Pair V);
  data : HashTable.t Z;
  size : Z;
  elementCount : Z
}.

Definition numElements (q : t) : Z := elementCount q.
Definition maxSize (q : t) : Z := size q.

Definition set_heap (a : list (Pair V)) (q : t) : t :=
  mk a (data q) (size q) (elementCount q).
Definition set_data (d : HashTable.t Z) (q : t) : t :=
  mk (heap q) d (size q) (elementCount q).
Definition set_elementCount (n : Z) (q : t) : t :=
  mk (heap q) (data q) (size q) n.

(** [explicit PriorityQueue(unsigned maxSize)]: the member [data] is
    built first, from [nextPrime(maxSize)]. *)
Definition new (maxSize : Z) : option t :=
  d ← HashTable.new (nextPrime maxSize);
  if maxSize =? 0 then None
  else Some (mk (replicate (Z.to_nat (wrap (maxSize + 1))) fresh) d maxSize 0).

Definition leftChild (index : Z) : Z := wrap (2 * index).
Definition rightChild (index : Z) : Z := wrap (wrap (2 * index) + 1).
Definition parent (index : Z) : Z := index / 2.

(** [temp = heap[i]; heap[i] = heap[j]; heap[j] = temp;] *)
Definition swap (i j : Z) (a : list (Pair V)) : option (list (Pair V)) :=
  temp ← rd a i;
  x ← rd a j;
  a1 ← wr a i x;
  wr a1 j temp.

(** [data.update(heap[index].key, index);] *)
Definition reindex (index : Z) (q : t) : option t :=
  c ← rd (heap q) index;
  k ← key c;
  r ← HashTable.update k index (data q);
  Some (set_data r.2 q).

(** *** [percolateUp]

    The loop replaces [index] by [index/2], that is, it drops the last
    binary digit of [index]; it is written by recursion on these digits.
    The loop is not entered for [index <= 1]. *)
Fixpoint percolateUp_from (p : positive) (q : t) : option (t * Z) :=
  match p with
  | xH => Some (q, 1)
  | xO p' | xI p' =>
      let index := Z.pos p in
      a ← rd (heap q) (parent index);
      ka ← key a;
      b ← rd (heap q) index;
      kb ← key b;
      if kb <? ka then
        a' ← swap (parent index) index (heap q);
        q' ← reindex index (set_heap a' q);
        percolateUp_from p' q'
      else Some (q, index)
  end.

Definition percolateUp (index : Z) (q : t) : option (t * Z) :=
  match index with
  | Z.pos p => percolateUp_from p q
  | _ => Some (q, index)
  end.

(** *** [percolateDown] *)

(** The loop condition, evaluated left to right with the short cuts of
    [||] and [&&]. *)
Definition percolateDown_cond (index : Z) (baseCase : bool) (q : t)
    : option bool :=
  if (rightChild index <? elementCount q)
     || (leftChild index <? elementCount q) || baseCase
  then
    c ← rd (heap q) index;
    kc ← key c;
    l ← rd (heap q) (leftChild index);
    kl ← key l;
    if kl <? kc then Some true
    else
      r ← rd (heap q) (rightChild index);
      kr ← key r;
      Some (kr <? kc)
  else Some false.

(** The child chosen by the [if] at the head of the loop body. *)
Definition smallest_child (index : Z) (q : t) : option Z :=
  l ← rd (heap q) (leftChild index);
  kl ← key l;
  r ← rd (heap q) (rightChild index);
  kr ← key r;
  Some (if kr <? kl then rightChild index else leftChild index).

(** One run of the loop body: the new queue and the new [index]. *)
Definition percolateDown_body (index : Z) (q : t) : option (t * Z) :=
  smallest ← smallest_child index q;
  if smallest =? index then Some (q, index)
  else
    a ← swap index smallest (heap q);
    q' ← reindex index (set_heap a q);
    Some (q', smallest).

Fixpoint percolateDown_loop (fuel : nat) (index : Z) (baseCase : bool)
    (q : t) : option (t * Z) :=
  match fuel with
  | O => None
  | S fuel' =>
      c ← percolateDown_cond index baseCase q;
      if (c : bool) then
        r ← percolateDown_body index q;
        percolateDown_loop fuel' r.2 false r.1
      else Some (q, index)
  end.

(** After the first run of the body the loop goes on only while a child
    index is below [elementCount], and the index at least doubles with
    every run: 64 runs are never used up. *)
Definition percolateDown (index : Z) (q : t) : option (t * Z) :=
  percolateDown_loop 64 index (elementCount q <=? 2) q.

(** *** The public operations *)

Definition getMinKey (q : t) : ptr := KeyAt 1.
Definition getMinValue (q : t) : ptr := ValueAt 1.

(** [*p] for a pointer into the heap array. *)
Definition deref_key (p : ptr) (q : t) : option Z :=
  match p with
  | KeyAt i => c ← rd (heap q) i; key c
  | _ => None
  end.

Definition deref_value (p : ptr) (q : t) : option V :=
  match p with
  | ValueAt i => c ← rd (heap q) i; value c
  | _ => None
  end.

(** [data.get(key) != NULL] *)
Definition present (k : Z) (q : t) : option bool :=
  p ← HashTable.get k (data q); Some (negb (is_null p)).

(** [*data.get(key)] *)
Definition slot_of (k : Z) (q : t) : option Z :=
  p ← HashTable.get k (data q); HashTable.deref p (data q).

Definition insert (k : Z) (v : V) (q : t) : option (bool * t) :=
  reject ← (if maxSize q <=? elementCount q then Some true
            else present k q);
  if (reject : bool) then Some (false, q)
  else
    let n := wrap (elementCount q + 1) in
    c ← rd (heap q) n;
    a ← wr (heap q) n (mkPair (Some k) (Some v) (isEmpty c));
    r ← percolateUp n (set_heap a (set_elementCount n q));
    d ← HashTable.insert k r.2 (data r.1);
    Some (true, set_data d.2 r.1).

Definition deleteMin (q : t) : option (bool * t) :=
  if elementCount q =? 0 then Some (false, q)
  else
    k ← deref_key (getMinKey q) q;
    d ← HashTable.remove k (data q);
    last ← rd (heap q) (elementCount q);
    a ← wr (heap q) 1 last;
    r ← percolateDown 1
          (mk a d.2 (size q) (wrap (elementCount q - 1)));
    q' ← reindex r.2 r.1;
    Some (true, q').

(** [get]: the address of the payload of [key], or null. *)
Definition get (k : Z) (q : t) : option ptr :=
  p ← HashTable.get k (data q);
  if is_null p then Some Null
  else i ← slot_of k q; Some (ValueAt i).

(** [heap[index].key = k'] *)
Definition set_key (index k' : Z) (q : t) : option t :=
  c ← rd (heap q) index;
  a ← wr (heap q) index (mkPair (Some k') (value c) (isEmpty c));
  Some (set_heap a q).

(** [data.insert(heap[newIndex].key, newIndex);] *)
Definition record (newIndex : Z) (q : t) : option t :=
  c ← rd (heap q) newIndex;
  k ← key c;
  d ← HashTable.insert k newIndex (data q);
  Some (set_data d.2 q).

(** The guard shared by [decreaseKey] and [increaseKey], with the new
    key [k']. *)
Definition change_rejected (k change k' : Z) (q : t) : option bool :=
  if change =? 0 then Some true
  else
    b ← present k q;
    if negb b then Some true else present k' q.

Definition decreaseKey (k change : Z) (q : t) : option (bool * t) :=
  reject ← change_rejected k change (wrap (k - change)) q;
  if (reject : bool) then Some (false, q)
  else
    index ← slot_of k q;
    d ← HashTable.remove k (data q);
    c ← rd (heap q) index;
    old ← key c;
    q1 ← set_key index (wrap (old - change)) (set_data d.2 q);
    r ← percolateUp index q1;
    q' ← record r.2 r.1;
    Some (true, q').

Definition increaseKey (k change : Z) (q : t) : option (bool * t) :=
  reject ← change_rejected k change (wrap (k + change)) q;
  if (reject : bool) then Some (false, q)
  else
    index ← slot_of k q;
    d ← HashTable.remove k (data q);
    c ← rd (heap q) index;
    old ← key c;
    q1 ← set_key index (wrap (old + change)) (set_data d.2 q);
    r ← percolateDown index q1;
    q' ← record r.2 r.1;
    Some (true, q').

(** The closing loop of [remove]:
    [while (index <= elementCount) { ...; index++; }] with [n] runs left. *)
Fixpoint remove_sweep (n : nat) (index : Z) (q : t) : option t :=
  match n with
  | O => Some q
  | S n' =>
      c ← rd (heap q) index;
      k ← key c;
      i ← slot_of k q;
      q' ← (if i =? index then Some q else reindex index q);
      remove_sweep n' (wrap (index + 1)) q'
  end.

Definition remove (k : Z) (q : t) : option (bool * t) :=
  b ← present k q;
  if negb b then Some (false, q)
  else
    index ← slot_of k q;
    d ← HashTable.remove k (data q);
    last ← rd (heap q) (numElements q);
    a ← wr (heap q) index last;
    r ← percolateDown index (set_heap a (set_data d.2 q));
    r' ← (if r.2 =? index then percolateUp index r.1 else Some r);
    let index' := if r.2 =? index then r'.2 else index in
    q1 ← reindex index' r'.1;
    let q2 := set_elementCount (wrap (elementCount q1 - 1)) q1 in
    q' ← remove_sweep (Z.to_nat (elementCount q2 + 1 - index')) index' q2;
    Some (true, q').

(** *** Copy and move *)

(** The loop [for (i = 0; i < rhs.maxSize()+1; i++) heap[i] = rhs.heap[i];]
    with [n] cells left. *)
Fixpoint copy_heap (n : nat) (i : Z) (src dst : list (Pair V))
    : option (list (Pair V)) :=
  match n with
  | O => Some dst
  | S n' =>
      c ← rd src i;
      dst' ← wr dst i c;
      copy_heap n' (wrap (i + 1)) src dst'
  end.

(** [PriorityQueue(const PriorityQueue& rhs)] *)
Definition copy (rhs : t) : option t :=
  d ← HashTable.copy (data rhs);
  a ← copy_heap (Z.to_nat (wrap (maxSize rhs + 1))) 0 (heap rhs)
        (replicate (Z.to_nat (wrap (maxSize rhs + 1))) fresh);
  Some (mk a d (maxSize rhs) (elementCount rhs)).

(** [operator=(const PriorityQueue& rhs)] for [this != &rhs]: the heap
    array, the hash index and [elementCount] are taken from [rhs]; the
    member [size] is not assigned. *)
Definition copy_assign (this rhs : t) : option t :=
  d ← HashTable.copy (data rhs);
  a ← copy_heap (Z.to_nat (wrap (maxSize rhs + 1))) 0 (heap rhs)
        (replicate (Z.to_nat (wrap (maxSize rhs + 1))) fresh);
  Some (mk a d (size this) (elementCount rhs)).

(** The state in which the move operations leave their argument:
    [heap = nullptr; size = 0; elementCount = 0], with a moved-from hash
    index. *)
Definition moved_from : t := mk [] HashTable.moved_from 0 0.

(** [PriorityQueue(PriorityQueue&& rhs)]: the new object and the state of
    [rhs]. *)
Definition move (rhs : t) : t * t := (rhs, moved_from).

(** *** [operator<<] *)

Definition endl : string := String "010"%char EmptyString.

(** [os << "(" << key << "," << value << ")"] *)
Definition item (show : V → string) (k : Z) (v : V) : string :=
  ("(" ++ pretty (Z.to_N k) ++ "," ++ show v ++ ")")%string.

Fixpoint print_loop (show : V → string) (n : nat) (i counter current : Z)
    (q : t) : option string :=
  match n with
  | O => Some (if counter =? 0 then EmptyString else endl)
  | S n' =>
      c ← rd (heap q) (wrap (i + 1));
      k ← key c;
      v ← value c;
      let counter' := wrap (counter + 1) in
      if counter' =? current then
        rest ← print_loop show n' (i + 1) 0 (wrap (current + current)) q;
        Some (item show k v ++ endl ++ rest)%string
      else
        rest ← print_loop show n' (i + 1) counter' current q;
        Some (item show k v ++ " " ++ rest)%string
  end.

(** The text written to the stream by [os << pq]. *)
Definition print (show : V → string) (q : t) : option string :=
  print_loop show (Z.to_nat (numElements q)) 0 0 1 q.

(** *** Sequences of public operations *)

Inductive op : Type :=
| Insert (k : Z) (v : V)
| DeleteMin
| Remove (k : Z)
| DecreaseKey (k change : Z)
| IncreaseKey (k change : Z).

Definition step (o : op) (q : t) : option (bool * t) :=
  match o with
  | Insert k v => insert k v q
  | DeleteMin => deleteMin q
  | Remove k => remove k q
  | DecreaseKey k c => decreaseKey k c q
  | IncreaseKey k c => increaseKey k c q
  end.

(** Run the operations in order; the results are collected in order. *)
Fixpoint run (os : list op) (q : t) : option (list bool * t) :=
  match os with
  | [] => Some ([], q)
  | o :: os' =>
      r ← step o q;
      rs ← run os' r.2;
      Some (r.1 :: rs.1, rs.2)
  end.

End WithValue.
Arguments t : clear implicits.
Arguments op : clear implicits.
End PriorityQueue.

(** ** Auxiliary notions used in the statements *)


(** Number of candidates that [nextPrime_iter] inspects at most. *)
Fixpoint nextPrime_steps (fuel : positive) : Z :=
  match fuel with
  | xH => 1
  | xO f | xI f => 2 * nextPrime_steps f
  end.

(** The bucket with index [j] holds an element. *)
Definition occupied_at {V : Type} (tb : list (Pair V)) (j : nat) : bool :=
  match tb !! j with
  | Some c => negb (isEmpty c)
  | None => false
  end.

(** The indices of the buckets that hold an element, in bucket order. *)
Definition occupied {V : Type} (tb : list (Pair V)) : list nat :=
  List.filter (occupied_at tb) (seq 0 (length tb)).

(** *** Invariants of the priority queue *)

Section QueueInvariants.
Context {V : Type}.
Implicit Types (q : PriorityQueue.t V).

(** [heap[i].key] *)
Definition key_at (i : Z) q : option Z :=
  c ← rd (PriorityQueue.heap q) i; key c.

(** The keys of the occupied slots [1 .. elementCount], in array order. *)
Definition live_keys q : list (option Z) :=
  (λ i : nat, key_at (Z.of_nat i) q)
    <$> seq 1 (Z.to_nat (PriorityQueue.elementCount q)).

(** Min-heap order: no occupied slot below the root has a key smaller
    than the key of its parent slot. *)
Definition heap_order q : Prop :=
  ∀ i, 1 < i ≤ PriorityQueue.elementCount q →
    ∃ kp ki, key_at (PriorityQueue.parent i) q = Some kp
             ∧ key_at i q = Some ki ∧ kp ≤ ki.

(** The hash index maps the key of every occupied slot to that slot, and
    every key of the hash index is the key of an occupied slot. *)
Definition index_bijection q : Prop :=
  (∀ i, 1 ≤ i ≤ PriorityQueue.elementCount q →
     ∃ k, key_at i q = Some k ∧ PriorityQueue.slot_of k q = Some i)
  ∧ (∀ k, PriorityQueue.present k q = Some true →
       ∃ i, 1 ≤ i ≤ PriorityQueue.elementCount q ∧ key_at i q = Some k).

(** States reached from a constructed queue by public operations. *)
Definition reachable q : Prop :=
  ∃ maxSize q0 os rs,
    PriorityQueue.new maxSize = Some q0
    ∧ PriorityQueue.run os q0 = Some (rs, q).
End QueueInvariants.

(** *** Tie-breaking of [percolateDown], as the specification words it

    "Whenever the node at slot [i] is swapped downward and both children
    exist with equal keys that are smaller than [heap[i].key], the swap is
    performed with the right child." *)
Definition spec_right_wins_ties (V : Type) : Prop :=
  ∀ (q q' : PriorityQueue.t V) (i j k kc : Z),
    1 ≤ i →
    PriorityQueue.rightChild i ≤ PriorityQueue.elementCount q →
    key_at i q = Some k →
    key_at (PriorityQueue.leftChild i) q = Some kc →
    key_at (PriorityQueue.rightChild i) q = Some kc →
    kc < k →
    PriorityQueue.percolateDown_body i q = Some (q', j) →
    j = PriorityQueue.rightChild i.

(** *** The level-order dump as a function of the list of items *)

Section Dump.
Context {V : Type}.
Implicit Types (q : PriorityQueue.t V) (l lvl : list string).

(** The texts [(key,payload)] of [n] heap cells from slot [i + 1] on, as
    the loop of [operator<<] reads them. *)
Fixpoint items_from (show : V → string) (n : nat) (i : Z) q
    : option (list string) :=
  match n with
  | O => Some []
  | S n' =>
      c ← rd (PriorityQueue.heap q) (wrap (i + 1));
      k ← key c;
      v ← value c;
      l ← items_from show n' (i + 1) q;
      Some (PriorityQueue.item show k v :: l)
  end.

(** The texts of [heap[1] .. heap[elementCount]], in array order. *)
Definition items (show : V → string) q : option (list string) :=
  items_from show (Z.to_nat (PriorityQueue.numElements q)) 0 q.

(** The items of one level with a single space between neighbours. *)
Fixpoint join_space l : string :=
  match l with
  | [] => EmptyString
  | [x] => x
  | x :: l' => (x ++ " " ++ join_space l')%string
  end.

(** The items of one level with a single space after every item. *)
Fixpoint trail_space l : string :=
  match l with
  | [] => EmptyString
  | x :: l' => (x ++ " " ++ trail_space l')%string
  end.

(** One level as the specification words it: items separated by one
    space, then a newline. *)
Definition spec_level_text lvl : string :=
  (join_space lvl ++ PriorityQueue.endl)%string.

(** One level as the code writes it: a level that has all [width] items
    is as in the specification; a level with fewer items has a space
    after every item, the last one included, before the newline. *)
Definition level_text (width : nat) lvl : string :=
  if (length lvl =? width)%nat
  then (join_space lvl ++ PriorityQueue.endl)%string
  else (trail_space lvl ++ PriorityQueue.endl)%string.

(** Cut [l] into levels of [width], [2 * width], ... items and write each
    with [text]; [n] bounds the number of levels. *)
Fixpoint render_levels (text : nat → list string → string) (n width : nat)
    l : string :=
  match n with
  | O => EmptyString
  | S n' =>
      match l with
      | [] => EmptyString
      | _ => (text width (take width l)
              ++ render_levels text n' (2 * width) (drop width l))%string
      end
  end.

(** The dump according to the specification. *)
Definition spec_print (show : V → string) q : option string :=
  l ← items show q;
  Some (render_levels (λ _, spec_level_text) (length l) 1 l).

(** The dump according to the code, level by level. *)
Definition level_print (show : V → string) q : option string :=
  l ← items show q;
  Some (render_levels level_text (length l) 1 l).

(** The output loop of [operator<<] on a list of items. *)
Fixpoint emit l (counter current : Z) : string :=
  match l with
  | [] => if counter =? 0 then EmptyString else PriorityQueue.endl
  | x :: l' =>
      let counter' := wrap (counter + 1) in
      if counter' =? current
      then (x ++ PriorityQueue.endl
            ++ emit l' 0 (wrap (current + current)))%string
      else (x ++ " " ++ emit l' counter' current)%string
  end.
End Dump.

(** *** Example states

    A table of length 7 with the colliding keys 2 (bucket 2) and 9
    (bucket 3), and a queue of capacity 5 with the keys 10, 20 and 15. *)

Definition example_table : HashTable.t Z :=
  Eval vm_compute in
    default HashTable.moved_from
      (h0 ← HashTable.new 7;
       r ← HashTable.insert 2 20 h0;
       r' ← HashTable.insert 9 90 r.2;
       Some r'.2).

Definition example_queue : PriorityQueue.t Z :=
  Eval vm_compute in
    default PriorityQueue.moved_from
      (q0 ← PriorityQueue.new 5;
       r ← PriorityQueue.run
             [PriorityQueue.Insert 10 100; PriorityQueue.Insert 20 200;
              PriorityQueue.Insert 15 150] q0;
       Some r.2).

(** What [update] and [remove] do with the bucket that [get] points to. *)
Definition at_pointer {V : Type}
    (f : Z → HashTable.t V → option (HashTable.t V)) (p : ptr)
    (h : HashTable.t V) : option (bool * HashTable.t V) :=
  match p with
  | ValueAt j => h' ← f j h; Some (true, h')
  | _ => Some (false, h)
  end.


(** *** Buckets and [removeAllByValue] *)

(** The bucket [c] is occupied and holds a value equal to [v]. *)
Definition holds_value {V : Type} (veq : V → V → bool) (v : V)
    (c : Pair V) : bool :=
  negb (isEmpty c)
  && match value c with Some x => veq x v | None => false end.

(** The bucket [c] after [removeAllByValue]. *)
Definition swept {V : Type} (veq : V → V → bool) (v : V)
    (c : Pair V) : Pair V :=
  if holds_value veq v c then mkPair (key c) (value c) true else c.

(** The value of [c] may be compared: [c] is empty or its value is
    determinate. *)
Definition comparable {V : Type} (c : Pair V) : bool :=
  isEmpty c || match value c with Some _ => true | None => false end.

(** *** Frames and sift invariants of the priority queue *)

Section QueueFrames.
Context {V : Type}.
Implicit Types (q : PriorityQueue.t V).

(** [q'] has the element count, the capacity and the array length of
    [q]. *)
Definition same_frame q q' : Prop :=
  PriorityQueue.elementCount q' = PriorityQueue.elementCount q
  ∧ PriorityQueue.size q' = PriorityQueue.size q
  ∧ length (PriorityQueue.heap q') = length (PriorityQueue.heap q).

(** [a] and [b] are determinate keys with [a <= b]. *)
Definition key_le (a b : option Z) : Prop :=
  ∃ x y, a = Some x ∧ b = Some y ∧ x ≤ y.

(** Heap order everywhere except between slot [p] and its parent; the
    children of [p] are not below the parent of [p]. *)
Definition heap_order_except (p : Z) q : Prop :=
  (∀ i, 1 < i ≤ PriorityQueue.elementCount q → i ≠ p →
     key_le (key_at (PriorityQueue.parent i) q) (key_at i q))
  ∧ (∀ i, 1 < i ≤ PriorityQueue.elementCount q →
       PriorityQueue.parent i = p → 1 < p →
       key_le (key_at (PriorityQueue.parent p) q) (key_at i q)).

(** The change of [numElements] that a public operation makes when it
    returns [b]. *)
Definition count_change (o : PriorityQueue.op V) (b : bool) : Z :=
  match o, b with
  | PriorityQueue.Insert _ _, true => 1
  | PriorityQueue.DeleteMin, true => -1
  | PriorityQueue.Remove _, true => -1
  | _, _ => 0
  end.
End QueueFrames.

(** A queue of capacity 2 that is full (keys 10 and 20) and an empty
    queue of capacity 5. *)
Definition example_full_queue : PriorityQueue.t Z :=
  Eval vm_compute in
    default PriorityQueue.moved_from
      (q0 ← PriorityQueue.new 2;
       r ← PriorityQueue.run
             [PriorityQueue.Insert 10 100; PriorityQueue.Insert 20 200] q0;
       Some r.2).

Definition example_empty_queue : PriorityQueue.t Z :=
  Eval vm_compute in
    default PriorityQueue.moved_from (PriorityQueue.new 5).

(** *** Buckets and [operator==] *)

(** An occupied bucket whose key and value are both determinate, or an
    empty bucket. *)
Definition determinate {V : Type} (c : Pair V) : bool :=
  isEmpty c
  || match key c, value c with Some _, Some _ => true | _, _ => false end.

(** The bucket [d] is occupied and holds the key and the value of [c]. *)
Definition pair_hit {V : Type} (veq : V → V → bool) (c d : Pair V) : bool :=
  negb (isEmpty d)
  && match key c, key d with
     | Some k, Some k' =>
         (k =? k')
         && match value c, value d with
            | Some x, Some y => veq x y
            | _, _ => false
            end
     | _, _ => false
     end.

(** The keys of the occupied buckets, in bucket order. *)
Definition stored_keys {V : Type} (tb : list (Pair V)) : list Z :=
  omap (λ c, if isEmpty c then None else key c) tb.

(** The number of pairs of an occupied bucket of [tb] and an occupied
    bucket of [tb'] with the same key and value. *)
Definition matching_pairs {V : Type} (veq : V → V → bool)
    (tb tb' : list (Pair V)) : nat :=
  sum_list_with
    (λ c, if isEmpty c then 0%nat
          else length (List.filter (pair_hit veq c) tb')) tb.

(** The slots that the hash index gives for the keys of the occupied
    slots [1 .. elementCount], in array order. *)
Definition indexed_slots {V : Type} (q : PriorityQueue.t V)
    : list (option Z) :=
  (λ i : nat, k ← key_at (Z.of_nat i) q; PriorityQueue.slot_of k q)
    <$> seq 1 (Z.to_nat (PriorityQueue.elementCount q)).

(** *** A table filled in key order

    [cells f p c]: an array of [p] cells of which the first [c] hold
    [f 0 .. f (c-1)] and the others are default-initialised.  [filled p c n]
    is the table of [p] buckets in which the keys [0 .. c-1], each with
    itself as value, sit in their home buckets; [n] is the element
    count. *)







(** *** States on which [percolateDown] has defined behaviour *)

(** The hash table has a positive size below [2^31], an array of that
    many buckets, and determinate keys and values in its occupied
    buckets. *)
Definition table_ok {V : Type} (h : HashTable.t V) : Prop :=
  0 < HashTable.tableSize h < 2 ^ 31
  ∧ length (HashTable.table h) = Z.to_nat (HashTable.tableSize h)
  ∧ forallb determinate (HashTable.table h) = true.

(** The slots [1 .. n] of the heap array exist and hold determinate keys,
    they include the occupied slots, and the hash index is in order. *)
Definition slots_ok {V : Type} (n : Z) (q : PriorityQueue.t V) : Prop :=
  PriorityQueue.elementCount q ≤ n < 2 ^ 30
  ∧ n < Z.of_nat (length (PriorityQueue.heap q))
  ∧ (∀ i, 1 ≤ i ≤ n → is_Some (key_at i q))
  ∧ table_ok (PriorityQueue.data q).

(** The state in which [increaseKey 10 40] calls [percolateDown 1]: a
    queue of capacity 7 with the keys 10, 20, 15, 30, 40, 17, 16, in which
    key 10 was taken out of the hash index and the root key was set to
    50. *)
Definition example_sift_queue : PriorityQueue.t Z :=
  Eval vm_compute in
    default PriorityQueue.moved_from
      (q0 ← PriorityQueue.new 7;
       r ← PriorityQueue.run
             ((λ k, PriorityQueue.Insert k k)
                <$> [10; 20; 15; 30; 40; 17; 16]) q0;
       d ← HashTable.remove 10 (PriorityQueue.data r.2);
       PriorityQueue.set_key 1 50 (PriorityQueue.set_data d.2 r.2)).

(** The result of [percolateDown 1] on this state. *)
Definition example_sifted_queue : PriorityQueue.t Z :=
  Eval vm_compute in
    default PriorityQueue.moved_from
      (r ← PriorityQueue.percolateDown 1 example_sift_queue; Some r.1).

(** * Properties *)

(** ** Array accesses *)

Lemma wr_Some {A : Type} (a a' : list A) (j : Z) (x : A) :
  wr a j x = Some a' →
  0 ≤ j < Z.of_nat (length a) ∧ a' = <[Z.to_nat j := x]> a.
Proof.
  unfold wr. destruct (0 <=? j) eqn:H0; destruct (j <? _) eqn:H1;
    simpl; intros [= <-]. split; [lia | reflexivity].
Qed.

Lemma rd_Some {A : Type} (a : list A) (i : Z) (x : A) :
  rd a i = Some x → 0 ≤ i < Z.of_nat (length a).
Proof.
  unfold rd. destruct (i <? 0) eqn:H0; [discriminate|].
  intros H%lookup_lt_Some. lia.
Qed.

Lemma rd_in_range {A : Type} (a : list A) (i : Z) :
  0 ≤ i < Z.of_nat (length a) → ∃ x, rd a i = Some x.
Proof.
  intros H. unfold rd. destruct (i <? 0) eqn:H0; [lia|].
  destruct (lookup_lt_is_Some_2 a (Z.to_nat i)) as [x Hx]; [lia|].
  by exists x.
Qed.

Lemma rd_wr {A : Type} (a a' : list A) (i j : Z) (x : A) :
  wr a j x = Some a' →
  rd a' i = if i =? j then Some x else rd a i.
Proof.
  intros [Hj ->]%wr_Some. unfold rd.
  destruct (i =? j) eqn:Hij.
  - assert (i = j) as -> by lia.
    destruct (j <? 0) eqn:H0; [lia|].
    apply list_lookup_insert_eq. lia.
  - destruct (i <? 0) eqn:H0; [reflexivity|].
    apply list_lookup_insert_ne. lia.
Qed.

Lemma wr_length {A : Type} (a a' : list A) (j : Z) (x : A) :
  wr a j x = Some a' → length a' = length a.
Proof. intros [_ ->]%wr_Some. apply length_insert. Qed.

(** ** Hash table: lookups after a removal *)

Section HashTableLookup.
Context {V : Type}.
Implicit Types (h : HashTable.t V) (k : Z) (c : Pair V).







Lemma bind_matches {B : Type} (x : option (Pair V)) k
    (g : bool → option B) :
  (c ← x; m ← HashTable.matches k c; g m)
  = (m ← (x ≫= HashTable.matches k); g m).
Proof. by destruct x. Qed.

Lemma get_probe_ext n i index k h h' :
  HashTable.tableSize h' = HashTable.tableSize h →
  (∀ j, rd (HashTable.table h') j ≫= HashTable.matches k
        = rd (HashTable.table h) j ≫= HashTable.matches k) →
  HashTable.get_probe n i index k h' = HashTable.get_probe n i index k h.
Proof.
  intros Hsz Hm. revert i. induction n as [|n IH]; simpl; intros i; [done|].
  rewrite Hsz. destruct (HashTable.probe _ _ _) as [j|]; [simpl|done].
  rewrite !bind_matches, Hm.
  destruct (rd (HashTable.table h) j ≫= HashTable.matches k) as [[]|];
    simpl; auto.
Qed.

Lemma get_ext k h h' :
  HashTable.tableSize h' = HashTable.tableSize h →
  (∀ j, rd (HashTable.table h') j ≫= HashTable.matches k
        = rd (HashTable.table h) j ≫= HashTable.matches k) →
  HashTable.get k h' = HashTable.get k h.
Proof.
  intros Hsz Hm. unfold HashTable.get. rewrite Hsz.
  destruct (umod _ _) as [index|]; [simpl|done].
  rewrite !bind_matches, Hm.
  destruct (rd (HashTable.table h) index ≫= HashTable.matches k) as [[]|];
    simpl; auto using get_probe_ext.
Qed.


End HashTableLookup.


(** ** [isPrime] and [nextPrime] *)

Lemma isPrime_loop_true (n : nat) (i value : Z) :
  isPrime_loop n i value = true →
  ∀ d, i ≤ d < i + Z.of_nat n → value mod d ≠ 0.
Proof.
  revert i. induction n as [|n IH]; simpl; intros i H d Hd; [lia|].
  destruct (value mod i =? 0) eqn:Hi; [discriminate|].
  destruct (decide (d = i)) as [->|Hne]; [lia|].
  apply (IH (i + 1)); [done|lia].
Qed.

Lemma isPrime_prime (p : Z) : 2 ≤ p → isPrime p = true → Z.prime p.
Proof.
  intros Hp H. unfold isPrime in H.
  destruct (p =? 1) eqn:H1; [discriminate|].
  split; [lia|]. intros d Hd Hdiv.
  apply (isPrime_loop_true _ _ _ H d); [lia|].
  by apply Z.mod0_divide.
Qed.

Lemma isPrime_0 : isPrime 0 = true.
Proof. reflexivity. Qed.

Lemma isPrime_131071 : isPrime 131071 = true.
Proof. vm_compute. reflexivity. Qed.

(** Number of candidates that [nextPrime_iter] inspects at most. *)
Lemma nextPrime_iter_spec (fuel : positive) (v : Z) :
  0 ≤ v < 2 ^ 32 →
  match nextPrime_iter fuel v with
  | inl p =>
      ∃ n, 0 ≤ n < nextPrime_steps fuel ∧ p = wrap (v + n)
           ∧ isPrime p = true
           ∧ ∀ m, 0 ≤ m < n → isPrime (wrap (v + m)) = false
  | inr p =>
      p = wrap (v + nextPrime_steps fuel)
      ∧ ∀ m, 0 ≤ m < nextPrime_steps fuel → isPrime (wrap (v + m)) = false
  end.
Proof.
  assert (Hw : ∀ x, 0 ≤ wrap x < 2 ^ 32)
    by (intros x; apply Z.mod_pos_bound; lia).
  assert (Hww : ∀ x n m, wrap (wrap (x + n) + m) = wrap (x + (n + m))).
  { intros x n m. unfold wrap. rewrite Zplus_mod_idemp_l. f_equal. lia. }
  assert (Hpos : ∀ f, 0 < nextPrime_steps f).
  { induction f; simpl; lia. }
  assert (Hstep : ∀ f, (∀ v, 0 ≤ v < 2 ^ 32 →
      match nextPrime_iter f v with
      | inl p => ∃ n, 0 ≤ n < nextPrime_steps f ∧ p = wrap (v + n)
           ∧ isPrime p = true
           ∧ ∀ m, 0 ≤ m < n → isPrime (wrap (v + m)) = false
      | inr p => p = wrap (v + nextPrime_steps f)
           ∧ ∀ m, 0 ≤ m < nextPrime_steps f → isPrime (wrap (v + m)) = false
      end) →
      ∀ v, 0 ≤ v < 2 ^ 32 →
      match (match nextPrime_iter f v with
             | inl p => inl p
             | inr p => nextPrime_iter f p
             end) with
      | inl p => ∃ n, 0 ≤ n < 2 * nextPrime_steps f ∧ p = wrap (v + n)
           ∧ isPrime p = true
           ∧ ∀ m, 0 ≤ m < n → isPrime (wrap (v + m)) = false
      | inr p => p = wrap (v + 2 * nextPrime_steps f)
           ∧ ∀ m, 0 ≤ m < 2 * nextPrime_steps f →
               isPrime (wrap (v + m)) = false
      end).
  { intros f IH w Hwr. pose proof (IH w Hwr) as H1. pose proof (Hpos f).
    destruct (nextPrime_iter f w) as [p|p].
    - destruct H1 as (n & Hn & -> & Hp & Hc). exists n. repeat split; auto; lia.
    - destruct H1 as [-> Hc].
      pose proof (IH (wrap (w + nextPrime_steps f)) (Hw _)) as H2.
      destruct (nextPrime_iter f _) as [p|p].
      + destruct H2 as (n & Hn & -> & Hp & Hc2).
        exists (nextPrime_steps f + n). rewrite Hww in *.
        repeat split; auto; try lia.
        intros m Hm. destruct (decide (m < nextPrime_steps f)); [apply Hc; lia|].
        specialize (Hc2 (m - nextPrime_steps f)). rewrite Hww in Hc2.
        replace (nextPrime_steps f + (m - nextPrime_steps f)) with m in Hc2
          by lia.
        apply Hc2. lia.
      + destruct H2 as [-> Hc2]. rewrite Hww. split; [f_equal; lia|].
        intros m Hm. destruct (decide (m < nextPrime_steps f)); [apply Hc; lia|].
        specialize (Hc2 (m - nextPrime_steps f)). rewrite Hww in Hc2.
        replace (nextPrime_steps f + (m - nextPrime_steps f)) with m in Hc2
          by lia.
        apply Hc2. lia. }
  revert v. induction fuel as [f IH|f IH|]; intros v Hv.
  - apply (Hstep f IH v Hv).
  - apply (Hstep f IH v Hv).
  - change (nextPrime_iter 1 v)
      with (if isPrime v then inl v else inr (wrap (v + 1)) : Z + Z).
    change (nextPrime_steps 1) with 1.
    destruct (isPrime v) eqn:Hp.
    + exists 0. rewrite Z.add_0_r. unfold wrap. rewrite Z.mod_small by lia.
      repeat split; auto; lia.
    + split; [done|]. intros m Hm. assert (m = 0) as -> by lia.
      rewrite Z.add_0_r. unfold wrap. by rewrite Z.mod_small by lia.
Qed.

(** The loop of [nextPrime] stops for every 32-bit argument: at the latest
    when the candidate has wrapped around to [0]. *)
Lemma nextPrime_stops (v : Z) :
  0 ≤ v < 2 ^ 32 → ∃ p, nextPrime_iter (2 ^ 32)%positive v = inl p.
Proof.
  intros Hv. pose proof (nextPrime_iter_spec (2 ^ 32)%positive v Hv) as H.
  destruct (nextPrime_iter _ v) as [p|p]; [by exists p|].
  destruct H as [_ Hc]. exfalso.
  specialize (Hc ((2 ^ 32 - v) mod 2 ^ 32)).
  assert (Hz : wrap (v + (2 ^ 32 - v) mod 2 ^ 32) = 0).
  { unfold wrap. rewrite Zplus_mod_idemp_r.
    replace (v + (2 ^ 32 - v)) with (1 * 2 ^ 32) by lia.
    apply Z_mod_mult. }
  rewrite Hz, isPrime_0 in Hc. 
  assert (0 ≤ (2 ^ 32 - v) mod 2 ^ 32 < 2 ^ 32) by (apply Z.mod_pos_bound; lia).
  change (nextPrime_steps (2 ^ 32)) with (2 ^ 32) in Hc.
  discriminate Hc. lia.
Qed.

(** Below the Mersenne prime [2^17 - 1] the result is the least prime not
    below the argument. *)
Lemma nextPrime_small (v : Z) :
  2 ≤ v ≤ 131071 →
  v ≤ nextPrime v ≤ 131071 ∧ Z.prime (nextPrime v)
  ∧ ∀ m, v ≤ m < nextPrime v → isPrime m = false.
Proof.
  intros Hv. unfold nextPrime.
  assert (Hv' : 0 ≤ v < 2 ^ 32) by lia.
  pose proof (nextPrime_iter_spec (2 ^ 32)%positive v Hv') as H.
  change (nextPrime_steps (2 ^ 32)) with (2 ^ 32) in H.
  assert (Hsm : ∀ m, 0 ≤ m ≤ 131071 - v → wrap (v + m) = v + m).
  { intros m Hm. unfold wrap. apply Z.mod_small. lia. }
  assert (Hlast : isPrime (wrap (v + (131071 - v))) = true).
  { rewrite Hsm by lia. replace (v + (131071 - v)) with 131071 by lia.
    apply isPrime_131071. }
  destruct (nextPrime_iter _ v) as [p|p].
  - destruct H as (n & Hn & -> & Hp & Hc).
    assert (n ≤ 131071 - v).
    { destruct (decide (n ≤ 131071 - v)); [done|].
      rewrite Hc in Hlast by lia. discriminate. }
    rewrite Hsm in * by lia. split; [lia|]. split.
    + apply isPrime_prime; [lia|done].
    + intros m Hm. specialize (Hc (m - v)). rewrite Hsm in Hc by lia.
      replace (v + (m - v)) with m in Hc by lia. apply Hc. lia.
  - destruct H as [_ Hc]. rewrite Hc in Hlast by lia. discriminate.
Qed.

(** Quadratic residues: the offsets [i*i] for [0 <= i <= p/2] are
    pairwise distinct modulo a prime [p]. *)
Lemma squares_distinct (p home i i' : Z) :
  Z.prime p → 0 ≤ i < i' → i' ≤ p / 2 →
  (home + i * i) mod p ≠ (home + i' * i') mod p.
Proof.
  intros Hp Hi Hi' Heq.
  assert (Hp2 : 2 ≤ p) by (by apply Z.prime_ge_2).
  assert (Hdiv : (p | (i' - i) * (i' + i))).
  { apply Z.mod_divide; [lia|].
    replace ((i' - i) * (i' + i)) with ((home + i' * i') - (home + i * i))
      by lia.
    rewrite Zminus_mod, Heq, Z.sub_diag. apply Zmod_0_l. }
  assert (2 * (p / 2) ≤ p) by (apply Z.mul_div_le; lia).
  apply (Z.divide_prime_mul _ _ p Hp) in Hdiv as [Hd|Hd];
    apply Z.divide_pos_le in Hd; lia.
Qed.

(** ** Hash table: counting occupied buckets *)

Section Occupancy.
Context {V : Type}.
Implicit Types (tb temp : list (Pair V)) (c e : Pair V).

Lemma occupied_In tb j : In j (occupied tb) ↔ occupied_at tb j = true.
Proof.
  unfold occupied. rewrite filter_In, in_seq. split; [tauto|].
  intros H. split; [|done]. unfold occupied_at in H.
  destruct (tb !! j) eqn:Hj; [|done]. apply lookup_lt_Some in Hj. lia.
Qed.

Lemma occupied_NoDup tb : List.NoDup (occupied tb).
Proof. apply List.NoDup_filter, seq_NoDup. Qed.

Lemma occupied_fresh n : occupied (replicate n (@fresh V)) = [].
Proof.
  destruct (occupied _) as [|j l] eqn:H; [done|].
  assert (Hj : In j (occupied (replicate n (@fresh V))))
    by (rewrite H; by left).
  apply occupied_In in Hj. unfold occupied_at in Hj.
  destruct (replicate n fresh !! j) as [c|] eqn:Hc; [|done].
  apply lookup_replicate in Hc as [-> _]. done.
Qed.

Lemma occupied_insert tb j c :
  (length (occupied (<[j := c]> tb)) ≤ S (length (occupied tb)))%nat.
Proof.
  change (S (length (occupied tb))) with (length (j :: occupied tb)).
  apply List.NoDup_incl_length; [apply occupied_NoDup|].
  intros i Hi. destruct (decide (i = j)) as [->|Hne]; [by left|right].
  apply occupied_In in Hi. apply occupied_In.
  unfold occupied_at in *. by rewrite list_lookup_insert_ne in Hi.
Qed.

Lemma store_occupied k v i tb tb' :
  HashTable.store k v i tb = Some tb' →
  length tb' = length tb
  ∧ (length (occupied tb') ≤ S (length (occupied tb)))%nat.
Proof.
  unfold HashTable.store. intros H. split; [by eapply wr_length|].
  apply wr_Some in H as [_ ->]. apply occupied_insert.
Qed.

Lemma rehash_probe_occupied n j ind e sz tb tb' :
  HashTable.rehash_probe n j ind e sz tb = Some tb' →
  length tb' = length tb
  ∧ (length (occupied tb') ≤ S (length (occupied tb)))%nat.
Proof.
  revert j. induction n as [|n IH]; simpl; intros j.
  - intros [= <-]. split; [done|lia].
  - destruct (HashTable.probe _ _ _) as [i|]; [simpl|done].
    destruct (rd tb i) as [c|]; [simpl|done].
    destruct (isEmpty c); [apply store_occupied|apply IH].
Qed.

Lemma rehash_insert_occupied n i temp sz tb tb' :
  HashTable.rehash_insert n i temp sz tb = Some tb' →
  length tb' = length tb
  ∧ (length (occupied tb') ≤ length (occupied tb) + n)%nat.
Proof.
  revert i tb. induction n as [|n IH]; simpl; intros i tb.
  - intros [= <-]. split; [done|lia].
  - destruct (rd temp i) as [e|]; [simpl|done].
    destruct (key e) as [k|]; [simpl|done].
    destruct (umod k sz) as [ind|]; [simpl|done].
    destruct (rd tb ind) as [c|]; [simpl|done].
    destruct (if isEmpty c then _ else _) as [tb1|] eqn:H1; [simpl|done].
    intros [Hl Ho]%IH.
    assert (length tb1 = length tb
            ∧ (length (occupied tb1) ≤ S (length (occupied tb)))%nat)
      as [Hl1 Ho1].
    { destruct (isEmpty c);
        [by eapply store_occupied|by eapply rehash_probe_occupied]. }
    split; [congruence|lia].
Qed.

(** The re-insertion reads the key of every collected element. *)
Lemma rehash_insert_keys n i temp sz tb tb' :
  HashTable.rehash_insert n i temp sz tb = Some tb' →
  ∀ j, i ≤ j < i + Z.of_nat n → ∃ e k, rd temp j = Some e ∧ key e = Some k.
Proof.
  revert i tb. induction n as [|n IH]; simpl; intros i tb H j Hj; [lia|].
  destruct (rd temp i) as [e|] eqn:He; [simpl in H|done].
  destruct (key e) as [k|] eqn:Hk; [simpl in H|done].
  destruct (umod k sz) as [ind|]; [simpl in H|done].
  destruct (rd tb ind) as [c|]; [simpl in H|done].
  destruct (if isEmpty c then _ else _) as [tb1|]; [simpl in H|done].
  destruct (decide (j = i)) as [->|Hne]; [by exists e, k|].
  apply (IH (i + 1) tb1 H). lia.
Qed.

(** [collect] leaves the cells of [temp] from the final count on
    untouched. *)
Lemma collect_rest n i tb temp temp' count :
  HashTable.collect n i tb temp count = Some temp' →
  0 ≤ count →
  ∃ count', count ≤ count' ≤ count + Z.of_nat n
            ∧ ∀ j, count' ≤ j → rd temp' j = rd temp j.
Proof.
  revert i temp count. induction n as [|n IH]; simpl; intros i temp count.
  - intros [= <-] Hc. exists count. split; [lia|done].
  - destruct (rd tb i) as [c|]; [simpl|done].
    destruct (isEmpty c).
    + intros H Hc. destruct (IH _ _ _ H Hc) as (count' & Hb & Hr).
      exists count'. split; [lia|done].
    + destruct (rd temp count) as [d|]; [simpl|done].
      destruct (wr temp count _) as [temp1|] eqn:Hw; [simpl|done].
      intros H Hc.
      destruct (IH _ _ _ H ltac:(lia)) as (count' & Hb & Hr).
      exists count'. split; [lia|]. intros j Hj.
      rewrite Hr by done. rewrite (rd_wr _ _ j _ _ Hw).
      destruct (j =? count) eqn:Hjc; [lia|done].
Qed.

End Occupancy.

(** ** Hash table: a failed [insert] changes nothing *)

Section InsertFailure.
Context {V : Type}.
Implicit Types (h : HashTable.t V) (tb : list (Pair V)) (c : Pair V).

Lemma wrap_range x : 0 ≤ wrap x < 2 ^ 32.
Proof. apply Z.mod_pos_bound. lia. Qed.

Lemma wrap_small x : 0 ≤ x < 2 ^ 32 → wrap x = x.
Proof. apply Z.mod_small. Qed.

(** Without wrap-around the probe is [(home + i*i) mod p]. *)
Lemma probe_small home i p :
  0 < p ≤ 131071 → 0 ≤ home < p → 0 ≤ i ≤ p / 2 →
  HashTable.probe home i p = Some ((home + i * i) mod p).
Proof.
  intros Hp Hh Hi.
  assert (2 * (p / 2) ≤ p) by (apply Z.mul_div_le; lia).
  assert (i ≤ 65535) by lia.
  assert (i * i ≤ 65535 * 65535) by (apply Z.mul_le_mono_nonneg; lia).
  unfold HashTable.probe, umod.
  destruct (p =? 0) eqn:Hp0; [lia|]. simpl.
  rewrite (wrap_small (i * i)) by lia.
  rewrite wrap_small by lia.
  pose proof (Z.mod_pos_bound (home + i * i) p ltac:(lia)).
  unfold to_int. destruct (_ <? 2 ^ 31) eqn:Hlt; [done|lia].
Qed.

(** Pigeonhole: if every bucket of the probe sequence holds an element,
    more than half of the buckets do. *)
Lemma probes_full home p tb :
  Z.prime p → p ≤ 131071 → 0 ≤ home < p →
  (∀ i, 0 ≤ i < p →
     ∃ j c, HashTable.probe home i p = Some j
            ∧ rd tb j = Some c ∧ isEmpty c = false) →
  (Z.to_nat (p / 2) < length (occupied tb))%nat.
Proof.
  intros Hp Hle Hh Hfull.
  assert (Hp2 : 2 ≤ p) by (by apply Z.prime_ge_2).
  assert (Hhalf : 0 ≤ p / 2 < p).
  { split; [apply Z.div_pos; lia|apply Z.div_lt; lia]. }
  set (f := λ i : nat, Z.to_nat ((home + Z.of_nat i * Z.of_nat i) mod p)).
  set (js := f <$> seq 0 (S (Z.to_nat (p / 2)))).
  assert (Hlen : length js = S (Z.to_nat (p / 2))).
  { unfold js. by rewrite length_fmap, length_seq. }
  assert (Hnd : List.NoDup js).
  { apply NoDup_ListNoDup. unfold js. apply NoDup_fmap_2_strong.
    - intros a b Ha%elem_of_seq Hb%elem_of_seq Hab. unfold f in Hab.
      apply Z2Nat.inj in Hab; try (apply Z.mod_pos_bound; lia).
      destruct (decide (a = b)) as [|Hne]; [done|exfalso].
      destruct (decide (a < b)%nat).
      + apply (squares_distinct p home (Z.of_nat a) (Z.of_nat b));
          [done|lia|lia|done].
      + apply (squares_distinct p home (Z.of_nat b) (Z.of_nat a));
          [done|lia|lia|done].
    - apply NoDup_ListNoDup, seq_NoDup. }
  assert (Hincl : incl js (occupied tb)).
  { intros j Hj. apply list_elem_of_In in Hj. unfold js in Hj.
    apply list_elem_of_fmap in Hj as (i & -> & Hi%elem_of_seq).
    destruct (Hfull (Z.of_nat i)) as (j & c & Hpr & Hrd & He); [lia|].
    rewrite probe_small in Hpr by lia. injection Hpr as <-.
    apply occupied_In. unfold occupied_at, f.
    unfold rd in Hrd. destruct (_ <? 0); [done|]. by rewrite Hrd, He. }
  pose proof (List.NoDup_incl_length Hnd Hincl). lia.
Qed.

(** A rehash has replaced the table: the new length is
    [nextPrime (2 * size)], and no more buckets are in use than the old
    table had. *)
Lemma checkRehash_inv index k h h1 index1 :
  HashTable.checkRehash index k h = Some (h1, index1) →
  (h1 = h ∧ index1 = index)
  ∨ (HashTable.size h1 = nextPrime (wrap (2 * HashTable.size h))
     ∧ umod k (HashTable.size h1) = Some index1
     ∧ (length (occupied (HashTable.table h1))
        ≤ Z.to_nat (HashTable.size h))%nat).
Proof.
  unfold HashTable.checkRehash.
  destruct (HashTable.loadFactor_ge_half _ _); [|intros [= <- <-]; by left].
  generalize (nextPrime (wrap (2 * HashTable.size h))). intros p.
  set (prev := wrap (HashTable.elementCount h - 1)).
  destruct (HashTable.collect _ _ _ _ _) as [temp|] eqn:Hcol; [simpl|done].
  destruct (HashTable.rehash_insert _ _ _ _ _) as [tb|] eqn:Hre;
    [simpl|done].
  destruct (umod k _) as [r|] eqn:Hr; [simpl|done].
  intros [= <- <-]. right. simpl. split; [done|]. split; [done|].
  apply rehash_insert_occupied in Hre as Hocc. destruct Hocc as [_ Hocc].
  rewrite occupied_fresh in Hocc. simpl in Hocc.
  enough (Z.to_nat prev ≤ Z.to_nat (HashTable.size h))%nat by lia.
  destruct (collect_rest _ _ _ _ _ _ Hcol ltac:(lia)) as (cnt & Hb & Hrest).
  destruct (decide (Z.to_nat prev ≤ Z.to_nat (HashTable.size h))%nat)
    as [|Hgt]; [done|exfalso].
  destruct (rehash_insert_keys _ _ _ _ _ _ Hre cnt) as (e & k' & He & Hk);
    [lia|].
  rewrite Hrest in He by lia. unfold rd in He.
  destruct (cnt <? 0); [done|].
  apply lookup_replicate in He as [-> _]. done.
Qed.

Lemma insert_place_false n i0 index k v h h' :
  HashTable.insert_place n i0 index k v h = Some (false, h') →
  h' = h
  ∧ ∀ i, i0 ≤ i < i0 + Z.of_nat n →
      ∃ j c, HashTable.probe index i (HashTable.tableSize h) = Some j
             ∧ rd (HashTable.table h) j = Some c ∧ isEmpty c = false.
Proof.
  revert i0. induction n as [|n IH]; simpl; intros i0.
  - intros [= <-]. split; [done|]. intros; lia.
  - destruct (HashTable.probe index i0 _) as [j|] eqn:Hp; [simpl|done].
    destruct (rd _ j) as [c|] eqn:Hc; [simpl|done].
    destruct (isEmpty c) eqn:He.
    + destruct (HashTable.store _ _ _ _); simpl; done.
    + intros [-> Hall]%IH. split; [done|]. intros i Hi.
      destruct (decide (i = i0)) as [->|]; [by exists j, c|].
      apply Hall. lia.
Qed.

Lemma insert_write_false index k v h h' :
  HashTable.insert_write index k v h = Some (false, h') →
  h' = h
  ∧ ∀ i, 0 ≤ i < HashTable.tableSize h →
      ∃ j c, HashTable.probe index i (HashTable.tableSize h) = Some j
             ∧ rd (HashTable.table h) j = Some c ∧ isEmpty c = false.
Proof.
  unfold HashTable.insert_write. destruct (rd _ index) as [c|]; [simpl|done].
  destruct (isEmpty c).
  - destruct (HashTable.store _ _ _ _); simpl; done.
  - intros [-> Hall]%insert_place_false. split; [done|].
    intros i Hi. apply Hall. lia.
Qed.

Lemma insert_scan_inv n i0 index k h s :
  HashTable.insert_scan n i0 index k h = Some s →
  s = HashTable.Duplicate ∨ s = HashTable.Continue h index
  ∨ (HashTable.count_and_rehash index k h = Some s
     ∧ ∃ i j c, i0 ≤ i < i0 + Z.of_nat n
         ∧ HashTable.probe index i (HashTable.tableSize h) = Some j
         ∧ rd (HashTable.table h) j = Some c ∧ isEmpty c = true).
Proof.
  revert i0. induction n as [|n IH]; simpl; intros i0.
  - intros [= <-]. auto.
  - destruct (HashTable.probe index i0 _) as [j|] eqn:Hp; [simpl|done].
    destruct (rd _ j) as [c|] eqn:Hc; [simpl|done].
    destruct (HashTable.matches k c) as [[]|]; simpl; [|
      |done].
    + intros [= <-]. auto.
    + destruct (isEmpty c) eqn:He.
      * intros H. right. right. split; [done|].
        exists i0, j, c. repeat split; auto; lia.
      * intros [->|[->|(H & i & j' & c' & Hi & Hrest)]]%IH; auto.
        right. right. split; [done|]. exists i, j', c'. split; [lia|done].
Qed.

(** Once a bucket of the probe sequence is known to be empty, the write
    that follows the rehash check cannot fail. *)
Lemma count_and_rehash_write index k v h s h' :
  0 < HashTable.size h < 2 ^ 16 →
  umod k (HashTable.size h) = Some index →
  (∃ i j c, 0 ≤ i < HashTable.size h
      ∧ HashTable.probe index i (HashTable.size h) = Some j
      ∧ rd (HashTable.table h) j = Some c ∧ isEmpty c = true) →
  HashTable.count_and_rehash index k h = Some s →
  match s with
  | HashTable.Duplicate => True
  | HashTable.Continue h1 index1 =>
      HashTable.insert_write index1 k v h1 ≠ Some (false, h')
  end.
Proof.
  intros Hsz Hidx (i & j & c & Hi & Hp & Hc & He).
  unfold HashTable.count_and_rehash.
  destruct (HashTable.checkRehash _ _ _) as [[h1 index1]|] eqn:Hch;
    [simpl|done].
  intros [= <-]. intros [-> Hfull]%insert_write_false.
  apply checkRehash_inv in Hch as [[-> ->]|(Hp1 & Hi1 & Hocc)].
  - destruct (Hfull i Hi) as (j' & c' & Hp' & Hc' & He').
    unfold HashTable.tableSize in Hp'. simpl in Hp', Hc'. congruence.
  - simpl in Hp1, Hocc. unfold HashTable.tableSize in Hfull.
    set (p := HashTable.size h1) in *.
    rewrite wrap_small in Hp1 by lia.
    destruct (nextPrime_small (2 * HashTable.size h)) as (Hb & Hpr & _);
      [lia|].
    rewrite <- Hp1 in Hb, Hpr.
    unfold umod in Hi1. destruct (p =? 0) eqn:Hp0; [done|].
    injection Hi1 as <-.
    pose proof (Z.mod_pos_bound k p ltac:(lia)) as Hk.
    pose proof (probes_full (k mod p) p (HashTable.table h1) Hpr
                  ltac:(lia) Hk Hfull) as Hlt.
    assert (HashTable.size h ≤ p / 2) by (apply Z.div_le_lower_bound; lia).
    lia.
Qed.

Lemma insert_false k v h h' :
  0 < HashTable.size h < 2 ^ 16 →
  HashTable.insert k v h = Some (false, h') → h' = h.
Proof.
  intros Hsz. unfold HashTable.insert, HashTable.tableSize.
  destruct (umod k _) as [index|] eqn:Hidx; [simpl|done].
  assert (Hrange : 0 ≤ index < HashTable.size h).
  { unfold umod in Hidx. destruct (_ =? 0); [done|].
    injection Hidx as <-. apply Z.mod_pos_bound. lia. }
  destruct (rd _ index) as [c|] eqn:Hc; [simpl|done].
  destruct (isEmpty c) eqn:He.
  - destruct (HashTable.count_and_rehash _ _ _) as [s|] eqn:Hs; [simpl|done].
    pose proof (count_and_rehash_write index k v h s h' Hsz Hidx) as H.
    destruct s as [|h1 index1]; [by intros [= <-]|].
    intros Hw. exfalso. apply H; [|done|done].
    exists 0, index, c. split; [lia|]. split; [|done].
    rewrite probe_small; [|lia|lia|].
    + rewrite Z.add_0_r, Z.mod_small by lia. done.
    + split; [lia|]. apply Z.div_pos; lia.
  - destruct (HashTable.insert_scan _ _ _ _ _) as [s|] eqn:Hs; [simpl|done].
    apply insert_scan_inv in Hs as [->|[->|[Hs Hex]]].
    + by intros [= <-].
    + by intros [-> _]%insert_write_false.
    + pose proof (count_and_rehash_write index k v h s h' Hsz Hidx) as H.
      destruct s as [|h1 index1]; [by intros [= <-]|].
      intros Hw. exfalso. apply H; [|done|done].
      destruct Hex as (i & j & c' & Hi & Hrest).
      exists i, j, c'. split; [lia|done].
Qed.




End InsertFailure.

(** ** Priority queue: a failed operation changes nothing *)

Section QueueFailure.
Context {V : Type}.
Implicit Types (q : PriorityQueue.t V).

Lemma pq_insert_false k v q q' :
  PriorityQueue.insert k v q = Some (false, q') → q' = q.
Proof.
  unfold PriorityQueue.insert.
  destruct (if _ <=? _ then _ else _) as [[]|]; simpl; [| |done].
  - by intros [= <-].
  - intros H. by simplify_option_eq.
Qed.

Lemma deleteMin_false q q' :
  PriorityQueue.deleteMin q = Some (false, q') → q' = q.
Proof.
  unfold PriorityQueue.deleteMin.
  destruct (_ =? 0); [by intros [= <-]|].
  intros H. by simplify_option_eq.
Qed.

Lemma pq_remove_false k q q' :
  PriorityQueue.remove k q = Some (false, q') → q' = q.
Proof.
  unfold PriorityQueue.remove.
  destruct (PriorityQueue.present k q) as [[]|]; simpl; [| |done].
  - intros H. by simplify_option_eq.
  - by intros [= <-].
Qed.

Lemma decreaseKey_false k change q q' :
  PriorityQueue.decreaseKey k change q = Some (false, q') → q' = q.
Proof.
  unfold PriorityQueue.decreaseKey.
  destruct (PriorityQueue.change_rejected _ _ _ _) as [[]|]; simpl;
    [| |done].
  - by intros [= <-].
  - intros H. by simplify_option_eq.
Qed.

Lemma increaseKey_false k change q q' :
  PriorityQueue.increaseKey k change q = Some (false, q') → q' = q.
Proof.
  unfold PriorityQueue.increaseKey.
  destruct (PriorityQueue.change_rejected _ _ _ _) as [[]|]; simpl;
    [| |done].
  - by intros [= <-].
  - intros H. by simplify_option_eq.
Qed.

End QueueFailure.



(** ** Hash table: the rehash scenario *)

(** C5.  A table of length 7 receives the keys 2, 7, 5, 9, 8, 6 with
    arbitrary values.  Every insert succeeds.  The table length after each
    step is 7, 7, 7, 7, 17, 17, 17: the only rehash happens inside the
    fourth insert (key 9), and the new length [nextPrime (2 * 7)] is 17, the
    least prime from 14 on.  That rehash collects the occupied buckets in
    bucket order (keys 7, 2, 5), writes them to the new table, and only
    then the pending key 9 is written.  At the end [numElements] is 6 and
    [get] finds every key with the value it was inserted with. *)
Theorem rehash_scenario {V : Type} (v2 v7 v5 v9 v8 v6 : V) :
  ∃ h0 h1 h2 h3 h3' h4 h5 h6 : HashTable.t V,
    HashTable.new 7 = Some h0
    ∧ HashTable.insert 2 v2 h0 = Some (true, h1)
    ∧ HashTable.insert 7 v7 h1 = Some (true, h2)
    ∧ HashTable.insert 5 v5 h2 = Some (true, h3)
    ∧ HashTable.insert 9 v9 h3 = Some (true, h4)
    ∧ HashTable.insert 8 v8 h4 = Some (true, h5)
    ∧ HashTable.insert 6 v6 h5 = Some (true, h6)
    ∧ HashTable.tableSize <$> [h0; h1; h2; h3; h4; h5; h6]
      = [7; 7; 7; 7; 17; 17; 17]
    ∧ nextPrime (2 * 7) = 17
    ∧ (∀ m, 14 ≤ m < 17 → isPrime m = false)
    ∧ HashTable.collect 7 0 (HashTable.table h3) (replicate 3 fresh) 0
      = Some [mkPair (Some 7) (Some v7) true; mkPair (Some 2) (Some v2) true;
              mkPair (Some 5) (Some v5) true]
    ∧ HashTable.checkRehash 2 9 (HashTable.set_elementCount 4 h3)
      = Some (h3', 9)
    ∧ ((λ c, (key c, isEmpty c)) <$> HashTable.table h3')
      = [(None, true); (None, true); (Some 2, false); (None, true);
         (None, true); (Some 5, false); (None, true); (Some 7, false);
         (None, true); (None, true); (None, true); (None, true);
         (None, true); (None, true); (None, true); (None, true);
         (None, true)]
    ∧ HashTable.insert_write 9 9 v9 h3' = Some (true, h4)
    ∧ HashTable.numElements h6 = 6
    ∧ (λ k, HashTable.get k h6 ≫= λ p, HashTable.deref p h6)
        <$> [2; 7; 5; 9; 8; 6]
      = [Some v2; Some v7; Some v5; Some v9; Some v8; Some v6].
Proof.
  do 8 eexists.
  split; [vm_compute; reflexivity|].
  do 6 (split; [vm_compute; reflexivity|]).
  split; [vm_compute; reflexivity|].
  split; [vm_compute; reflexivity|].
  split.
  { intros m Hm.
    assert (m = 14 ∨ m = 15 ∨ m = 16) as [-> | [-> | ->]] by lia; reflexivity. }
  split; [vm_compute; reflexivity|].
  split; [vm_compute; reflexivity|].
  split; [vm_compute; reflexivity|].
  split; [vm_compute; reflexivity|].
  split; [vm_compute; reflexivity|]. vm_compute; reflexivity.
Qed.

(** ** Priority queue: the invariants after [deleteMin] *)

Section HashTableGet.
Context {V : Type}.
Implicit Types (h : HashTable.t V).

Lemma get_probe_inv n i index k h p :
  HashTable.get_probe n i index k h = Some p →
  p = Null
  ∨ ∃ j c, p = ValueAt j ∧ rd (HashTable.table h) j = Some c
           ∧ isEmpty c = false ∧ key c = Some k.
Proof.
  revert i. induction n as [|n IH]; simpl; intros i.
  - intros [= <-]. by left.
  - destruct (HashTable.probe _ _ _) as [j|]; [simpl|done].
    destruct (rd _ j) as [c|] eqn:Hc; [simpl|done].
    unfold HashTable.matches. destruct (isEmpty c) eqn:He; simpl;
      [apply IH|].
    destruct (key c) as [k'|] eqn:Hk; [simpl|done].
    destruct (k =? k') eqn:Hkk; [|apply IH].
    assert (k' = k) as -> by lia.
    intros [= <-]. right. by exists j, c.
Qed.

(** A pointer returned by [get] is null or points into a bucket that
    holds the key. *)
Lemma get_inv k h p :
  HashTable.get k h = Some p →
  p = Null
  ∨ ∃ j c, p = ValueAt j ∧ rd (HashTable.table h) j = Some c
           ∧ isEmpty c = false ∧ key c = Some k.
Proof.
  unfold HashTable.get.
  destruct (umod _ _) as [index|]; [simpl|done].
  destruct (rd _ index) as [c|] eqn:Hc; [simpl|done].
  unfold HashTable.matches. destruct (isEmpty c) eqn:He; simpl;
    [apply get_probe_inv|].
  destruct (key c) as [k'|] eqn:Hk; [simpl|done].
  destruct (k =? k') eqn:Hkk; [|apply get_probe_inv].
  assert (k' = k) as -> by lia.
  intros [= <-]. right. by exists index, c.
Qed.

End HashTableGet.

Lemma present_inv {V : Type} (q : PriorityQueue.t V) (k : Z) :
  PriorityQueue.present k q = Some true →
  ∃ j c, rd (HashTable.table (PriorityQueue.data q)) j = Some c
         ∧ isEmpty c = false ∧ key c = Some k.
Proof.
  unfold PriorityQueue.present.
  destruct (HashTable.get _ _) as [p|] eqn:Hg; [simpl|done].
  apply get_inv in Hg as [->|(j & c & -> & H)]; [done|].
  intros _. by exists j, c.
Qed.

(** Case analysis on an integer from a bounded range. *)
Ltac range_cases i :=
  match goal with
  | H : _ ≤ i ≤ _ |- _ => idtac
  | H : _ < i ≤ _ |- _ => idtac
  | H : _ ≤ i < _ |- _ => idtac
  end;
  let rec go lo n :=
    lazymatch n with
    | O => exfalso; lia
    | S ?n' =>
        destruct (decide (i = lo)) as [->|?];
          [try (exfalso; lia)|go (lo + 1) n']
    end in
  go 0 32%nat.

(** C1.  The index bijection does not survive [deleteMin].  On a queue of
    capacity 3 the keys 10, 20, 15 are inserted and the minimum is deleted:
    the bijection holds.  A second [deleteMin] returns [true] and leaves
    one element, but slot 1 holds key 15, which was just deleted and is
    absent from the hash index, while the surviving key 20 is indexed at
    slot 3, outside the occupied range. *)
Theorem deleteMin_breaks_index_bijection {V : Type} (v : V) :
  ∃ q0 q1 q2 : PriorityQueue.t V,
    PriorityQueue.new 3 = Some q0
    ∧ PriorityQueue.run
        [PriorityQueue.Insert 10 v; PriorityQueue.Insert 20 v;
         PriorityQueue.Insert 15 v; PriorityQueue.DeleteMin] q0
      = Some ([true; true; true; true], q1)
    ∧ index_bijection q1
    ∧ PriorityQueue.deleteMin q1 = Some (true, q2)
    ∧ reachable q2
    ∧ PriorityQueue.numElements q2 = 1
    ∧ key_at 1 q2 = Some 15
    ∧ PriorityQueue.present 15 q2 = Some false
    ∧ PriorityQueue.present 20 q2 = Some true
    ∧ PriorityQueue.slot_of 20 q2 = Some 3
    ∧ ¬ index_bijection q2.
Proof.
  do 3 eexists.
  split; [vm_compute; reflexivity|].
  split; [vm_compute; reflexivity|].
  split.
  { split.
    - intros i Hi. change (1 ≤ i ≤ 2) in Hi.
      assert (i = 1 ∨ i = 2) as [-> | ->] by lia;
        (eexists; split; [vm_compute; reflexivity|]; vm_compute; reflexivity).
    - intros k (j & c & Hrd & He & Hk)%present_inv.
      apply rd_Some in Hrd as Hj. change (0 ≤ j < 7) in Hj.
      range_cases j; vm_compute in Hrd; injection Hrd as <-;
        simpl in He, Hk; try discriminate He; injection Hk as <-.
      + exists 1. split; [done|reflexivity].
      + exists 2. split; [done|reflexivity]. }
  split; [vm_compute; reflexivity|].
  split.
  { eexists 3, _,
      [PriorityQueue.Insert 10 v; PriorityQueue.Insert 20 v;
       PriorityQueue.Insert 15 v; PriorityQueue.DeleteMin;
       PriorityQueue.DeleteMin], _.
    split; [vm_compute; reflexivity|]. vm_compute; reflexivity. }
  do 5 (split; [vm_compute; reflexivity|]).
  intros [H _]. destruct (H 1) as (k & Hk & Hs); [done|].
  vm_compute in Hk. injection Hk as <-. vm_compute in Hs. discriminate.
Qed.

(** C2.  Heap order does not survive [deleteMin].  On a queue of capacity 5
    the keys 1, 5, 10, 6, 20 are inserted: the heap is ordered.  [deleteMin]
    moves key 20 to the root and sifts it down to slot 2, where the loop of
    [percolateDown] stops although the only child, slot 4, is occupied
    ([leftChild 2 < elementCount] is [4 < 4]): slot 4 holds key 6 below its
    parent's key 20. *)
Theorem deleteMin_breaks_heap_order {V : Type} (v : V) :
  ∃ q0 q1 q2 : PriorityQueue.t V,
    PriorityQueue.new 5 = Some q0
    ∧ PriorityQueue.run
        [PriorityQueue.Insert 1 v; PriorityQueue.Insert 5 v;
         PriorityQueue.Insert 10 v; PriorityQueue.Insert 6 v;
         PriorityQueue.Insert 20 v] q0
      = Some ([true; true; true; true; true], q1)
    ∧ heap_order q1
    ∧ PriorityQueue.deleteMin q1 = Some (true, q2)
    ∧ reachable q2
    ∧ live_keys q2 = [Some 5; Some 20; Some 10; Some 6]
    ∧ PriorityQueue.percolateDown_cond 2 false q2 = Some false
    ∧ ¬ heap_order q2.
Proof.
  do 3 eexists.
  split; [vm_compute; reflexivity|].
  split; [vm_compute; reflexivity|].
  split.
  { intros i Hi. change (1 < i ≤ 5) in Hi.
    assert (i = 2 ∨ i = 3 ∨ i = 4 ∨ i = 5) as [-> | [-> | [-> | ->]]] by lia;
      (eexists; eexists; split; [vm_compute; reflexivity|];
       split; [vm_compute; reflexivity|lia]). }
  split; [vm_compute; reflexivity|].
  split.
  { eexists 5, _,
      [PriorityQueue.Insert 1 v; PriorityQueue.Insert 5 v;
       PriorityQueue.Insert 10 v; PriorityQueue.Insert 6 v;
       PriorityQueue.Insert 20 v; PriorityQueue.DeleteMin], _.
    split; [vm_compute; reflexivity|]. vm_compute; reflexivity. }
  do 2 (split; [vm_compute; reflexivity|]).
  intros H. destruct (H 4) as (kp & ki & Hp & Hi & Hle); [done|].
  vm_compute in Hp, Hi. injection Hp as <-. injection Hi as <-. lia.
Qed.

(** ** Priority queue: array accesses of [percolateDown] *)

(** In its base case the loop condition of [percolateDown] compares with
    slot [2 * index] without asking whether that slot exists: on a heap
    array of two cells (capacity 1) the read is outside the allocation. *)
Lemma percolateDown_base_out_of_bounds {V : Type} (q : PriorityQueue.t V) :
  length (PriorityQueue.heap q) = 2%nat →
  PriorityQueue.elementCount q ≤ 2 →
  PriorityQueue.percolateDown 1 q = None.
Proof.
  intros Hlen Hec. unfold PriorityQueue.percolateDown.
  assert ((PriorityQueue.elementCount q <=? 2) = true) as -> by lia.
  simpl. unfold PriorityQueue.percolateDown_cond.
  rewrite orb_true_r.
  destruct (rd _ 1) as [c|]; [simpl|done].
  destruct (key c) as [kc|]; [simpl|done].
  change (PriorityQueue.leftChild 1) with 2.
  destruct (rd (PriorityQueue.heap q) 2) as [l|] eqn:Hl; [|done].
  apply rd_Some in Hl. lia.
Qed.

(** C7.  [percolateDown] reads and writes outside the occupied range.
    - Capacity 1: after one insert, [deleteMin] calls [percolateDown 1]
      with no element left; its condition reads [heap[2]], which is outside
      the two allocated cells, so the call has no defined behaviour.
    - Capacity 3, keys 10, 20, 15 and one [deleteMin]: the next
      [deleteMin] leaves one element, yet its [percolateDown] compares the
      root with the unoccupied slots 2 and 3, swaps the root with slot 3
      and reports slot 3 as the final position. *)
Theorem percolateDown_leaves_occupied_range {V : Type} (v : V) :
  (∃ q0 q1 : PriorityQueue.t V,
     PriorityQueue.new 1 = Some q0
     ∧ PriorityQueue.insert 5 v q0 = Some (true, q1)
     ∧ length (PriorityQueue.heap q1) = 2%nat
     ∧ rd (PriorityQueue.heap q1) (PriorityQueue.leftChild 1) = None
     ∧ PriorityQueue.deleteMin q1 = None)
  ∧ (∃ q0 q1 qm qm' q2 : PriorityQueue.t V,
       PriorityQueue.new 3 = Some q0
       ∧ PriorityQueue.run
           [PriorityQueue.Insert 10 v; PriorityQueue.Insert 20 v;
            PriorityQueue.Insert 15 v; PriorityQueue.DeleteMin] q0
         = Some ([true; true; true; true], q1)
       ∧ live_keys q1 = [Some 15; Some 20]
       ∧ PriorityQueue.numElements qm = 1
       ∧ PriorityQueue.percolateDown_cond 1 true qm = Some true
       ∧ PriorityQueue.smallest_child 1 qm = Some 3
       ∧ PriorityQueue.percolateDown 1 qm = Some (qm', 3)
       ∧ PriorityQueue.reindex 3 qm' = Some q2
       ∧ PriorityQueue.deleteMin q1 = Some (true, q2)
       ∧ live_keys q2 = [Some 15]
       ∧ key_at 3 q2 = Some 20).
Proof.
  split.
  - do 2 eexists.
    split; [vm_compute; reflexivity|].
    split; [vm_compute; reflexivity|].
    split; [vm_compute; reflexivity|].
    split; [vm_compute; reflexivity|].
    vm_compute; reflexivity.
  - eexists. eexists.
    eexists (PriorityQueue.mk
               [fresh; mkPair (Some 20) (Some v) true;
                mkPair (Some 20) (Some v) true;
                mkPair (Some 15) (Some v) true]
               (HashTable.mk
                  [fresh; mkPair (Some 15) (Some 1) true; fresh;
                   mkPair (Some 10) (Some 1) true; fresh; fresh;
                   mkPair (Some 20) (Some 2) false] 7 1)
               3 1).
    do 2 eexists.
    split; [vm_compute; reflexivity|].
    split; [vm_compute; reflexivity|].
    do 5 (split; [vm_compute; reflexivity|]).
    split; [vm_compute; reflexivity|].
    split; [vm_compute; reflexivity|].
    split; [vm_compute; reflexivity|]. vm_compute; reflexivity.
Qed.

(** ** Priority queue: the demonstration scenario *)

(** C3.  On a queue of capacity 14 the keys 18, 27, 20, 34, 30, 24, 99, 45,
    80, 65, 78, 98, 97 are inserted with arbitrary payloads; every insert
    succeeds and the minimum is 18.  [deleteMin] succeeds, key 18 is gone
    and the minimum is 20.  [remove 24] succeeds: key 24 is gone from the
    heap and from the hash index, [numElements] drops by one and the heap
    is ordered.  [increaseKey 20 100] succeeds: key 20 is gone, key 120
    carries its payload, and the minimum 27 is the least of the remaining
    keys.  [remove 98] succeeds: key 98 is gone from the heap and from the
    hash index, [numElements] drops by one and the heap is ordered.
    [decreaseKey 120 119] succeeds: key 120 is gone, key 1 carries its
    payload and is the minimum.  After every step the hash index holds
    exactly the keys of the heap and gives each of them its slot. *)
Theorem queue_scenario {V : Type} (val : Z → V) :
  ∃ q0 q1 q2 q3 q4 q5 q6 : PriorityQueue.t V,
    PriorityQueue.new 14 = Some q0
    ∧ PriorityQueue.run
        ((λ k, PriorityQueue.Insert k (val k))
           <$> [18; 27; 20; 34; 30; 24; 99; 45; 80; 65; 78; 98; 97]) q0
      = Some (replicate 13 true, q1)
    ∧ PriorityQueue.deref_key (PriorityQueue.getMinKey q1) q1 = Some 18
    ∧ PriorityQueue.deleteMin q1 = Some (true, q2)
    ∧ PriorityQueue.present 18 q2 = Some false
    ∧ PriorityQueue.deref_key (PriorityQueue.getMinKey q2) q2 = Some 20
    ∧ PriorityQueue.remove 24 q2 = Some (true, q3)
    ∧ PriorityQueue.numElements q3 = PriorityQueue.numElements q2 - 1
    ∧ heap_order q3
    ∧ PriorityQueue.increaseKey 20 100 q3 = Some (true, q4)
    ∧ PriorityQueue.present 20 q4 = Some false
    ∧ (PriorityQueue.get 120 q4 ≫= λ p, PriorityQueue.deref_value p q4)
      = Some (val 20)
    ∧ PriorityQueue.deref_key (PriorityQueue.getMinKey q4) q4 = Some 27
    ∧ live_keys q4
      = Some <$> [27; 30; 97; 34; 65; 98; 99; 45; 80; 120; 78]
    ∧ PriorityQueue.remove 98 q4 = Some (true, q5)
    ∧ PriorityQueue.decreaseKey 120 119 q5 = Some (true, q6)
    ∧ PriorityQueue.present 120 q6 = Some false
    ∧ (PriorityQueue.get 1 q6 ≫= λ p, PriorityQueue.deref_value p q6)
      = Some (val 20)
    ∧ PriorityQueue.deref_key (PriorityQueue.getMinKey q6) q6 = Some 1
    ∧ live_keys q6 = Some <$> [1; 27; 78; 34; 30; 97; 99; 45; 80; 65]
    ∧ PriorityQueue.present 24 q3 = Some false
    ∧ PriorityQueue.get 24 q3 = Some Null
    ∧ live_keys q3
      = Some <$> [20; 27; 97; 34; 30; 98; 99; 45; 80; 65; 78]
    ∧ PriorityQueue.present 98 q5 = Some false
    ∧ PriorityQueue.get 98 q5 = Some Null
    ∧ PriorityQueue.numElements q5 = PriorityQueue.numElements q4 - 1
    ∧ heap_order q5
    ∧ live_keys q5 = Some <$> [27; 30; 78; 34; 65; 97; 99; 45; 80; 120]
    ∧ (stored_keys ∘ HashTable.table ∘ PriorityQueue.data
         <$> [q1; q2; q3; q4; q5; q6])
      = [[78; 80; 45; 18; 20; 97; 24; 99; 27; 65; 30; 98; 34];
         [78; 80; 45; 20; 97; 24; 99; 27; 65; 30; 98; 34];
         [78; 80; 45; 20; 97; 99; 27; 65; 30; 98; 34];
         [78; 80; 45; 120; 97; 99; 27; 65; 30; 98; 34];
         [78; 80; 45; 120; 97; 99; 27; 65; 30; 34];
         [1; 78; 80; 45; 97; 99; 27; 65; 30; 34]]
    ∧ (indexed_slots <$> [q1; q2; q3; q4; q5; q6])
      = (λ n : nat, (λ i : nat, Some (Z.of_nat i)) <$> seq 1 n)
          <$> [13; 12; 11; 11; 10; 10]%nat.
Proof.
  do 7 eexists.
  do 7 (split; [vm_compute; reflexivity|]).
  split; [vm_compute; reflexivity|].
  split.
  { intros i Hi. change (1 < i ≤ 11) in Hi.
    range_cases i;
      (eexists; eexists; split; [vm_compute; reflexivity|];
       split; [vm_compute; reflexivity|lia]). }
  do 10 (split; [vm_compute; reflexivity|]).
  split; [vm_compute; reflexivity|].
  do 6 (split; [vm_compute; reflexivity|]).
  split.
  { intros i Hi. change (1 < i ≤ 10) in Hi.
    range_cases i;
      (eexists; eexists; split; [vm_compute; reflexivity|];
       split; [vm_compute; reflexivity|lia]). }
  split; [vm_compute; reflexivity|].
  split; vm_compute; reflexivity.
Qed.

(** ** Priority queue: [getMinKey] and [getMinValue] *)

Lemma rd_fresh_key {V : Type} (n : nat) (i : Z) :
  rd (replicate n (@fresh V)) i ≫= key = None.
Proof.
  unfold rd. destruct (i <? 0); [done|].
  destruct (replicate n fresh !! Z.to_nat i) as [c|] eqn:Hc; [|done].
  by apply lookup_replicate in Hc as [-> _].
Qed.

Lemma rd_fresh_value {V : Type} (n : nat) (i : Z) :
  rd (replicate n (@fresh V)) i ≫= value = None.
Proof.
  unfold rd. destruct (i <? 0); [done|].
  destruct (replicate n fresh !! Z.to_nat i) as [c|] eqn:Hc; [|done].
  by apply lookup_replicate in Hc as [-> _].
Qed.

(** C9.  [getMinKey] and [getMinValue] return the address of the key and
    of the value field of slot 1 in every state: never null, and the same
    for an empty and a non-empty queue.  On a freshly constructed queue
    the two fields are indeterminate; on a queue emptied by [deleteMin]
    slot 1 still holds the key and payload of a deleted element. *)
Theorem getMin_never_null {V : Type} :
  (∀ q : PriorityQueue.t V,
     PriorityQueue.getMinKey q = KeyAt 1
     ∧ PriorityQueue.getMinValue q = ValueAt 1
     ∧ is_null (PriorityQueue.getMinKey q) = false
     ∧ is_null (PriorityQueue.getMinValue q) = false)
  ∧ (∀ q q' : PriorityQueue.t V,
       PriorityQueue.getMinKey q = PriorityQueue.getMinKey q'
       ∧ PriorityQueue.getMinValue q = PriorityQueue.getMinValue q')
  ∧ (∀ maxSize (q : PriorityQueue.t V),
       PriorityQueue.new maxSize = Some q →
       PriorityQueue.numElements q = 0
       ∧ PriorityQueue.deref_key (PriorityQueue.getMinKey q) q = None
       ∧ PriorityQueue.deref_value (PriorityQueue.getMinValue q) q = None)
  ∧ (∀ v : V, ∃ q0 q : PriorityQueue.t V,
       PriorityQueue.new 3 = Some q0
       ∧ PriorityQueue.run
           [PriorityQueue.Insert 10 v; PriorityQueue.Insert 20 v;
            PriorityQueue.Insert 15 v; PriorityQueue.DeleteMin;
            PriorityQueue.DeleteMin; PriorityQueue.DeleteMin] q0
         = Some ([true; true; true; true; true; true], q)
       ∧ PriorityQueue.numElements q = 0
       ∧ PriorityQueue.deref_key (PriorityQueue.getMinKey q) q = Some 15
       ∧ PriorityQueue.deref_value (PriorityQueue.getMinValue q) q = Some v).
Proof.
  split; [done|]. split; [done|]. split.
  - intros maxSize q. unfold PriorityQueue.new.
    destruct (HashTable.new _) as [d|]; [simpl|done].
    destruct (maxSize =? 0); [done|]. intros [= <-]. simpl.
    split; [done|]. split; [apply rd_fresh_key|apply rd_fresh_value].
  - intros v. do 2 eexists.
    split; [vm_compute; reflexivity|].
    split; [vm_compute; reflexivity|].
    split; [vm_compute; reflexivity|].
    split; [vm_compute; reflexivity|]. vm_compute; reflexivity.
Qed.


(** ** Priority queue: which child [percolateDown] swaps with *)

Section SiftStep.
Context {V : Type}.
Implicit Types (q : PriorityQueue.t V) (a : list (Pair V)).

Lemma swap_rd i j a a' :
  PriorityQueue.swap i j a = Some a' → i ≠ j →
  rd a' i = rd a j ∧ rd a' j = rd a i
  ∧ ∀ m, m ≠ i → m ≠ j → rd a' m = rd a m.
Proof.
  unfold PriorityQueue.swap. intros H Hne.
  destruct (rd a i) as [x|] eqn:Hi; [simpl in H|done].
  destruct (rd a j) as [y|] eqn:Hj; [simpl in H|done].
  destruct (wr a i y) as [a1|] eqn:H1; [simpl in H|done].
  pose proof (rd_wr _ _ i _ _ H) as Ri.
  pose proof (rd_wr _ _ j _ _ H) as Rj.
  pose proof (rd_wr _ _ i _ _ H1) as Ri1.
  rewrite Z.eqb_refl in Rj, Ri1.
  destruct (i =? j) eqn:Hij; [lia|].
  split; [congruence|]. split; [congruence|].
  intros m Hmi Hmj.
  rewrite (rd_wr _ _ m _ _ H), (rd_wr _ _ m _ _ H1).
  destruct (m =? j) eqn:E1; [lia|]. destruct (m =? i) eqn:E2; [lia|done].
Qed.

Lemma reindex_heap index q q' :
  PriorityQueue.reindex index q = Some q' →
  PriorityQueue.heap q' = PriorityQueue.heap q
  ∧ PriorityQueue.elementCount q' = PriorityQueue.elementCount q
  ∧ PriorityQueue.size q' = PriorityQueue.size q.
Proof.
  unfold PriorityQueue.reindex. intros H.
  destruct (rd _ index) as [c|]; [simpl in H|done].
  destruct (key c) as [k|]; [simpl in H|done].
  destruct (HashTable.update _ _ _) as [r|]; [simpl in H|done].
  by injection H as <-.
Qed.

Lemma children_small i :
  1 ≤ i < 2 ^ 31 →
  PriorityQueue.leftChild i = 2 * i
  ∧ PriorityQueue.rightChild i = 2 * i + 1.
Proof.
  intros Hi. unfold PriorityQueue.leftChild, PriorityQueue.rightChild, wrap.
  rewrite (Z.mod_small (2 * i)) by lia.
  split; [done|]. apply Z.mod_small. lia.
Qed.
End SiftStep.

(** C6 (as the code has it).  When the loop body of [percolateDown] runs at
    slot [i] and the keys of both children can be read, the node is swapped
    with the left child if the left key is less than or equal to the right
    key (so the left child wins a tie), and with the right child only if
    the right key is strictly smaller.  After the step slot [i] holds the
    key of the chosen child and the chosen slot holds the key that was at
    [i]. *)
Theorem percolateDown_left_wins_ties {V : Type} (q q' : PriorityQueue.t V)
    (i j kl kr : Z) :
  1 ≤ i < 2 ^ 31 →
  key_at (PriorityQueue.leftChild i) q = Some kl →
  key_at (PriorityQueue.rightChild i) q = Some kr →
  PriorityQueue.percolateDown_body i q = Some (q', j) →
  (kl ≤ kr → j = PriorityQueue.leftChild i)
  ∧ (kr < kl → j = PriorityQueue.rightChild i)
  ∧ key_at i q' = key_at j q
  ∧ key_at j q' = key_at i q.
Proof.
  intros Hi Hl Hr. unfold PriorityQueue.percolateDown_body.
  destruct (children_small i Hi) as [El Er].
  assert (Hs : PriorityQueue.smallest_child i q
               = Some (if kr <? kl then PriorityQueue.rightChild i
                       else PriorityQueue.leftChild i)).
  { unfold PriorityQueue.smallest_child. unfold key_at in Hl, Hr.
    destruct (rd _ (PriorityQueue.leftChild i)) as [l|]; [simpl in *|done].
    rewrite Hl. simpl.
    destruct (rd _ (PriorityQueue.rightChild i)) as [r|]; [simpl in *|done].
    by rewrite Hr. }
  rewrite Hs. simpl.
  set (s := if kr <? kl then _ else _).
  assert (Hne : s ≠ i) by (unfold s; destruct (kr <? kl); lia).
  destruct (s =? i) eqn:Hsi; [lia|].
  destruct (PriorityQueue.swap i s _) as [a|] eqn:Hsw; [simpl|done].
  destruct (PriorityQueue.reindex i _) as [q1|] eqn:Hre; [simpl|done].
  intros [= <- <-].
  apply reindex_heap in Hre as (Hh & _ & _). simpl in Hh.
  apply swap_rd in Hsw as (Ri & Rs & _); [|lia].
  split; [|split; [|split]].
  - intros Hle. unfold s. destruct (kr <? kl) eqn:E; [lia|done].
  - intros Hlt. unfold s. destruct (kr <? kl) eqn:E; [done|lia].
  - unfold key_at. by rewrite Hh, Ri.
  - unfold key_at. by rewrite Hh, Rs.
Qed.

(** The state in which the last [deleteMin] of the run below calls
    [percolateDown]: three elements, key 100 at the root, key 15 in both
    child slots.  The body swaps the root with slot 2, the left child. *)
Lemma right_wins_ties_counterexample :
  ∃ (q0 q1 qm' q2 : PriorityQueue.t Z) (d : HashTable.t Z)
    (a : list (Pair Z)),
    let qm := PriorityQueue.mk a d 4 3 in
    PriorityQueue.new 4 = Some q0
    ∧ PriorityQueue.run
        [PriorityQueue.Insert 10 0; PriorityQueue.Insert 20 0;
         PriorityQueue.Insert 15 1; PriorityQueue.DeleteMin;
         PriorityQueue.DeleteMin; PriorityQueue.Insert 5 0;
         PriorityQueue.Insert 15 2; PriorityQueue.Insert 100 3] q0
      = Some ([true; true; true; true; true; true; true; true], q1)
    ∧ PriorityQueue.deref_key (PriorityQueue.getMinKey q1) q1 = Some 5
    ∧ HashTable.remove 5 (PriorityQueue.data q1) = Some (true, d)
    ∧ (rd (PriorityQueue.heap q1) (PriorityQueue.elementCount q1)
         ≫= wr (PriorityQueue.heap q1) 1) = Some a
    ∧ PriorityQueue.percolateDown 1 qm = Some (qm', 2)
    ∧ PriorityQueue.reindex 2 qm' = Some q2
    ∧ PriorityQueue.deleteMin q1 = Some (true, q2)
    ∧ PriorityQueue.rightChild 1 ≤ PriorityQueue.elementCount qm
    ∧ key_at 1 qm = Some 100
    ∧ key_at (PriorityQueue.leftChild 1) qm = Some 15
    ∧ key_at (PriorityQueue.rightChild 1) qm = Some 15
    ∧ PriorityQueue.percolateDown_cond 1 false qm = Some true
    ∧ PriorityQueue.percolateDown_body 1 qm = Some (qm', 2)
    ∧ 2 ≠ PriorityQueue.rightChild 1
    ∧ PriorityQueue.deref_value (ValueAt 1) qm' = Some 1
    ∧ PriorityQueue.deref_value (ValueAt 3) qm' = Some 2
    ∧ ¬ spec_right_wins_ties Z.
Proof.
  do 6 eexists. intros qm.
  split; [vm_compute; reflexivity|].
  split; [vm_compute; reflexivity|].
  split; [vm_compute; reflexivity|].
  split; [vm_compute; reflexivity|].
  split; [vm_compute; reflexivity|].
  split; [vm_compute; reflexivity|].
  split; [vm_compute; reflexivity|].
  split; [vm_compute; reflexivity|].
  split; [vm_compute; discriminate|].
  do 3 (split; [vm_compute; reflexivity|]).
  split; [vm_compute; reflexivity|].
  split; [vm_compute; reflexivity|].
  split; [vm_compute; discriminate|].
  split; [vm_compute; reflexivity|].
  split; [vm_compute; reflexivity|].
  intros Hspec.
  assert (Habs : 2 = PriorityQueue.rightChild 1);
    [|vm_compute in Habs; discriminate].
  eapply (Hspec qm _ 1 2 100 15);
    [lia|vm_compute; discriminate|vm_compute; reflexivity
    |vm_compute; reflexivity|vm_compute; reflexivity|lia
    |vm_compute; reflexivity].
Qed.

(** The theorem applied to the same state. *)
Lemma percolateDown_left_wins_ties_witness :
  ∃ q q' : PriorityQueue.t Z,
    q = PriorityQueue.mk
          [fresh; mkPair (Some 100) (Some 3) true;
           mkPair (Some 15) (Some 1) true; mkPair (Some 15) (Some 2) true;
           mkPair (Some 100) (Some 3) true]
          (HashTable.mk
             [fresh; mkPair (Some 100) (Some 4) false; fresh; fresh;
              mkPair (Some 15) (Some 3) false; mkPair (Some 5) (Some 1) true;
              fresh; fresh; fresh; mkPair (Some 20) (Some 3) false;
              mkPair (Some 10) (Some 1) true] 11 3)
          4 3
    ∧ 1 ≤ 1 < 2 ^ 31
    ∧ key_at (PriorityQueue.leftChild 1) q = Some 15
    ∧ key_at (PriorityQueue.rightChild 1) q = Some 15
    ∧ PriorityQueue.percolateDown_body 1 q = Some (q', 2)
    ∧ (15 ≤ 15 → 2 = PriorityQueue.leftChild 1)
    ∧ (15 < 15 → 2 = PriorityQueue.rightChild 1)
    ∧ key_at 1 q' = key_at 2 q
    ∧ key_at 2 q' = key_at 1 q.
Proof.
  do 2 eexists.
  split; [reflexivity|].
  split; [lia|].
  split; [vm_compute; reflexivity|].
  split; [vm_compute; reflexivity|].
  split; [vm_compute; reflexivity|].
  eapply (percolateDown_left_wins_ties _ _ 1 2 15 15);
    [lia|vm_compute; reflexivity..].
Defined.

(** ** Priority queue: the level-order dump *)

Section DumpProofs.
Context {V : Type}.
Implicit Types (q : PriorityQueue.t V) (l lvl : list string) (s : string).

Lemma append_assoc s1 s2 s3 :
  ((s1 ++ s2) ++ s3 = s1 ++ (s2 ++ s3))%string.
Proof.
  induction s1 as [|a s1 IH]; [reflexivity|].
  change (String a ((s1 ++ s2) ++ s3) = String a (s1 ++ (s2 ++ s3)))%string.
  by rewrite IH.
Qed.

Lemma append_nil_r s : (s ++ "" = s)%string.
Proof.
  induction s as [|a s IH]; [reflexivity|].
  change (String a (s ++ "") = String a s)%string. by rewrite IH.
Qed.

(** The loop of [operator<<] reads the items and writes them with
    [emit]. *)
Lemma print_loop_emit show n i counter current q :
  PriorityQueue.print_loop show n i counter current q
  = l ← items_from show n i q; Some (emit l counter current).
Proof.
  revert i counter current. induction n as [|n IH]; simpl;
    intros i counter current; [done|].
  destruct (rd _ _) as [c|]; [simpl|done].
  destruct (key c) as [k|]; [simpl|done].
  destruct (value c) as [v|]; [simpl|done].
  rewrite !IH.
  destruct (items_from show n (i + 1) q) as [l|]; simpl;
    by destruct (wrap (counter + 1) =? current).
Qed.

Lemma join_space_cons x lvl :
  lvl ≠ [] → join_space (x :: lvl) = (x ++ " " ++ join_space lvl)%string.
Proof. by destruct lvl. Qed.

Lemma level_text_cons r x lvl :
  (1 ≤ r)%nat → (length lvl ≤ r)%nat →
  level_text (S r) (x :: lvl) = (x ++ " " ++ level_text r lvl)%string.
Proof.
  intros Hr Hl. unfold level_text. cbn [length].
  change (S (length lvl) =? S r)%nat with (length lvl =? r)%nat.
  destruct (length lvl =? r)%nat eqn:E.
  - apply Nat.eqb_eq in E.
    rewrite join_space_cons by (intros ->; simpl in E; lia).
    by rewrite !append_assoc.
  - change (trail_space (x :: lvl))
      with (x ++ " " ++ trail_space lvl)%string.
    by rewrite !append_assoc.
Qed.

(** [emit] with [r] places left in the current level of width [w]. *)
Lemma emit_levels l : ∀ (r n : nat) (w : Z),
  (1 ≤ r)%nat → Z.of_nat r ≤ w →
  (w - 1) + (w - Z.of_nat r) + Z.of_nat (length l) < 2 ^ 32 →
  (length l - r ≤ n)%nat →
  emit l (w - Z.of_nat r) w
  = if decide (l = [] ∧ Z.of_nat r = w) then EmptyString
    else (level_text r (take r l)
          ++ render_levels level_text n (Z.to_nat (2 * w)) (drop r l))%string.
Proof.
  induction l as [|x l IH]; intros r n w Hr Hw Hb Hn.
  - simpl. destruct (decide _) as [[_ E]|N].
    + assert ((w - Z.of_nat r =? 0) = true) as -> by lia. done.
    + assert (Z.of_nat r ≠ w) by (intros E; by apply N).
      assert ((w - Z.of_nat r =? 0) = false) as -> by lia.
      rewrite take_nil, drop_nil. unfold level_text. simpl.
      destruct r; [lia|]. simpl. by destruct n.
  - simpl in Hb, Hn. destruct (decide _) as [[? _]|_]; [done|].
    cbn [emit]. rewrite (wrap_small (w - Z.of_nat r + 1)) by lia.
    destruct (w - Z.of_nat r + 1 =? w) eqn:E.
    + apply Z.eqb_eq in E.
      assert (r = 1%nat) as -> by lia. simpl take. simpl drop.
      rewrite drop_0. unfold level_text at 1. simpl.
      rewrite append_assoc. f_equal. f_equal.
      destruct l as [|y l].
      * simpl. by destruct n.
      * simpl in Hb, Hn. destruct n as [|n]; [lia|].
        rewrite (wrap_small (w + w)) by lia.
        pose proof (IH (Z.to_nat (w + w)) n (w + w)) as IH'.
        rewrite Z2Nat.id in IH' by lia.
        rewrite Z.sub_diag in IH'. rewrite IH'; [|lia|lia|simpl; lia|simpl in *; lia].
        destruct (decide _) as [[? _]|_]; [done|].
        cbn [render_levels].
        replace (Z.to_nat (2 * w)) with (Z.to_nat (w + w)) by lia.
        replace (Z.to_nat (2 * (w + w)))
          with (2 * Z.to_nat (w + w))%nat by lia.
        done.
    + apply Z.eqb_neq in E.
      destruct r as [|r]; [lia|]. destruct r as [|r]; [lia|].
      simpl take. simpl drop.
      rewrite level_text_cons; [|lia|rewrite length_take; lia].
      rewrite !append_assoc. f_equal. f_equal.
      replace (w - Z.of_nat (S (S r)) + 1) with (w - Z.of_nat (S r))
        by lia.
      rewrite (IH (S r) n w); [|lia|lia|lia|lia].
      destruct (decide _) as [[_ ?]|_]; [lia|done].
Qed.
End DumpProofs.

(** C8 (as the code has it).  For a queue with fewer than [2^32] elements
    the text written by [operator<<] is the list of items
    [(key,payload)] of [heap[1] .. heap[elementCount]] in array order, cut
    into levels of 1, 2, 4, ... items.  A level that is full is written with
    one space between neighbours and a newline at the end.  A final level
    that is not full is written with one space after every item, the last
    included, and then the newline. *)
Theorem print_by_levels {V : Type} (show : V → string)
    (q : PriorityQueue.t V) :
  0 ≤ PriorityQueue.numElements q < 2 ^ 32 →
  PriorityQueue.print show q = level_print show q.
Proof.
  intros Hn. unfold PriorityQueue.print, level_print, items.
  rewrite print_loop_emit.
  set (n := Z.to_nat (PriorityQueue.numElements q)).
  destruct (items_from show n 0 q) as [l|] eqn:Hl; [simpl|done].
  f_equal.
  assert (Hlen : length l = n).
  { clear -Hl. revert l Hl. generalize 0. induction n as [|n IH];
      simpl; intros i l.
    - by intros [= <-].
    - destruct (rd _ _) as [c|]; [simpl|done].
      destruct (key c) as [k|]; [simpl|done].
      destruct (value c) as [v|]; [simpl|done].
      destruct (items_from show n (i + 1) q) as [l'|] eqn:E; [simpl|done].
      intros [= <-]. simpl. f_equal. by eapply IH. }
  pose proof (emit_levels l 1 (length l - 1) 1) as H.
  change (1 - Z.of_nat 1) with 0 in H.
  rewrite H; [|lia|lia|lia|lia].
  destruct (decide _) as [[-> _]|N]; [done|].
  destruct l as [|x l]; [by destruct N|].
  cbn [length render_levels]. change (Z.to_nat (2 * 1)) with (2 * 1)%nat.
  by rewrite Nat.sub_succ, Nat.sub_0_r.
Qed.

(** A queue with the keys 1 and 2: the second level has one item of two.
    The code writes a space between the item and the newline; the
    specification's format has none. *)
Lemma spec_print_counterexample :
  ∃ q0 q : PriorityQueue.t Z,
    PriorityQueue.new 2 = Some q0
    ∧ PriorityQueue.run
        [PriorityQueue.Insert 1 1; PriorityQueue.Insert 2 1] q0
      = Some ([true; true], q)
    ∧ PriorityQueue.print pretty q
      = Some ("(1,1)" +:+ PriorityQueue.endl
              +:+ "(2,1) " +:+ PriorityQueue.endl)
    ∧ spec_print pretty q
      = Some ("(1,1)" +:+ PriorityQueue.endl
              +:+ "(2,1)" +:+ PriorityQueue.endl)
    ∧ PriorityQueue.print pretty q ≠ spec_print pretty q.
Proof.
  do 2 eexists.
  split; [vm_compute; reflexivity|].
  split; [vm_compute; reflexivity|].
  split; [vm_compute; reflexivity|].
  split; [vm_compute; reflexivity|].
  vm_compute. discriminate.
Qed.

(** The theorem applied to the same queue. *)
Lemma print_by_levels_witness :
  ∃ q0 q : PriorityQueue.t Z,
    PriorityQueue.new 2 = Some q0
    ∧ PriorityQueue.run
        [PriorityQueue.Insert 1 1; PriorityQueue.Insert 2 1] q0
      = Some ([true; true], q)
    ∧ 0 ≤ PriorityQueue.numElements q < 2 ^ 32
    ∧ PriorityQueue.print pretty q = level_print pretty q
    ∧ level_print pretty q
      = Some ("(1,1)" +:+ PriorityQueue.endl
              +:+ "(2,1) " +:+ PriorityQueue.endl).
Proof.
  do 2 eexists.
  split; [vm_compute; reflexivity|].
  split; [vm_compute; reflexivity|].
  split; [vm_compute; split; [discriminate|reflexivity]|].
  split; [|vm_compute; reflexivity].
  apply print_by_levels. vm_compute; split; [discriminate|reflexivity].
Defined.

(** The theorem applied to a queue of capacity 3. *)
Lemma getMin_never_null_witness :
  ∃ q : PriorityQueue.t Z,
    PriorityQueue.new 3 = Some q
    ∧ PriorityQueue.numElements q = 0
    ∧ PriorityQueue.getMinKey q = KeyAt 1
    ∧ PriorityQueue.deref_key (PriorityQueue.getMinKey q) q = None
    ∧ PriorityQueue.deref_value (PriorityQueue.getMinValue q) q = None.
Proof.
  destruct (@getMin_never_null Z) as (Haddr & _ & Hnew & _).
  eexists. split; [vm_compute; reflexivity|].
  split; [|split; [apply Haddr|]]; eapply (Hnew 3); vm_compute; reflexivity.
Defined.

(** * Further properties of the code *)

(** ** [isPrime], [nextPrime] and the constructor of the hash table *)

Lemma isPrime_loop_false (n : nat) (i value : Z) :
  isPrime_loop n i value = false →
  ∃ d, i ≤ d < i + Z.of_nat n ∧ value mod d = 0.
Proof.
  revert i. induction n as [|n IH]; simpl; intros i H; [done|].
  destruct (value mod i =? 0) eqn:Hi.
  - exists i. split; lia.
  - destruct (IH _ H) as (d & Hd & Hm). exists d. split; [lia|done].
Qed.

Lemma isPrime_iff (n : Z) : 2 ≤ n → (isPrime n = true ↔ Z.prime n).
Proof.
  intros Hn. split; [by apply isPrime_prime|].
  intros [_ Hp]. unfold isPrime.
  destruct (n =? 1) eqn:H1; [lia|].
  destruct (isPrime_loop _ 2 n) eqn:Hl; [done|exfalso].
  apply isPrime_loop_false in Hl as (d & Hd & Hm).
  apply (Hp d); [lia|]. apply Z.mod_divide; [lia|done].
Qed.

(** [isPrime] decides primality from 2 on; it rejects 1 and accepts 0 (the
    loop is not entered). *)
Theorem isPrime_correct :
  (∀ n, 2 ≤ n → (isPrime n = true ↔ Z.prime n))
  ∧ isPrime 1 = false
  ∧ isPrime 0 = true.
Proof. split; [exact isPrime_iff|split; reflexivity]. Qed.

Lemma isPrime_correct_witness : 2 ≤ 7 ∧ isPrime 7 = true ∧ Z.prime 7.
Proof.
  destruct isPrime_correct as (H & _ & _).
  split; [lia|]. split; [reflexivity|].
  apply (H 7); [lia|reflexivity].
Defined.

(** For an argument from 2 up to the Mersenne prime [2^17 - 1],
    [nextPrime] returns the least prime that is not below the argument. *)
Theorem nextPrime_least (v : Z) :
  2 ≤ v ≤ 131071 →
  Z.prime (nextPrime v) ∧ v ≤ nextPrime v
  ∧ ∀ p, Z.prime p → v ≤ p → nextPrime v ≤ p.
Proof.
  intros Hv. destruct (nextPrime_small v Hv) as ([Hlo Hhi] & Hp & Hmin).
  split; [done|]. split; [done|].
  intros p Hpp Hvp. destruct (decide (nextPrime v ≤ p)) as [|Hlt]; [done|].
  exfalso. assert (Hc : isPrime p = false) by (apply Hmin; lia).
  apply (isPrime_iff p) in Hpp; [congruence|lia].
Qed.

Lemma nextPrime_least_witness :
  2 ≤ 14 ≤ 131071 ∧ nextPrime 14 = 17 ∧ Z.prime (nextPrime 14)
  ∧ (Z.prime 17 → 14 ≤ 17 → nextPrime 14 ≤ 17).
Proof.
  destruct (nextPrime_least 14) as (Hp & _ & Hmin); [lia|].
  split; [lia|]. split; [reflexivity|]. split; [exact Hp|apply Hmin].
Defined.

(** The loop of [nextPrime] ends for every 32-bit argument, on a value that
    [isPrime] accepts; for 0 that value is 0, for 1 it is 2. *)
Theorem nextPrime_terminates (v : Z) :
  0 ≤ v < 2 ^ 32 →
  (∃ p, nextPrime_iter (2 ^ 32)%positive v = inl p ∧ nextPrime v = p)
  ∧ isPrime (nextPrime v) = true.
Proof.
  intros Hv. destruct (nextPrime_stops v Hv) as [p Hp].
  pose proof (nextPrime_iter_spec (2 ^ 32)%positive v Hv) as Hs.
  unfold nextPrime. rewrite Hp in *. split; [by exists p|].
  by destruct Hs as (n & _ & _ & Hprime & _).
Qed.

Lemma nextPrime_terminates_witness :
  0 ≤ 1 < 2 ^ 32 ∧ nextPrime 1 = 2 ∧ nextPrime 0 = 0
  ∧ isPrime (nextPrime 1) = true.
Proof.
  split; [lia|]. split; [reflexivity|]. split; [reflexivity|].
  apply (nextPrime_terminates 1). lia.
Defined.

Section HashTableNew.
Context {V : Type}.
Implicit Types (h : HashTable.t V) (k : Z).

(** A probe index lies inside a table of fewer than [2^31] buckets. *)
Lemma probe_range index i sz j :
  0 < sz < 2 ^ 31 → HashTable.probe index i sz = Some j → 0 ≤ j < sz.
Proof.
  intros Hsz. unfold HashTable.probe, umod.
  destruct (sz =? 0); [done|]. simpl. intros [= <-].
  pose proof (Z.mod_pos_bound (wrap (index + wrap (i * i))) sz ltac:(lia)).
  unfold to_int. destruct (_ <? 2 ^ 31) eqn:E; lia.
Qed.

Lemma probe_defined index i sz :
  sz ≠ 0 → ∃ j, HashTable.probe index i sz = Some j.
Proof.
  intros Hsz. unfold HashTable.probe, umod.
  destruct (sz =? 0) eqn:E; [lia|]. simpl. by eexists.
Qed.

Lemma rd_replicate_fresh (n : nat) (i : Z) :
  0 ≤ i < Z.of_nat n → rd (replicate n (@fresh V)) i = Some fresh.
Proof.
  intros Hi. unfold rd. destruct (i <? 0) eqn:E; [lia|].
  apply lookup_replicate. split; [done|lia].
Qed.

Lemma get_probe_empty_table n i index k sz count :
  0 < sz < 2 ^ 31 →
  HashTable.get_probe n i index k
    (HashTable.mk (replicate (Z.to_nat sz) (@fresh V)) sz count) = Some Null.
Proof.
  intros Hsz. revert i. induction n as [|n IH]; simpl; intros i; [done|].
  unfold HashTable.tableSize. simpl.
  destruct (probe_defined index i sz) as [j Hj]; [lia|]. rewrite Hj. simpl.
  apply probe_range in Hj; [|done].
  rewrite rd_replicate_fresh by lia. simpl. apply IH.
Qed.
End HashTableNew.

Lemma new_is_Some {V : Type} (tableSize : Z) :
  0 ≤ tableSize < 2 ^ 31 →
  is_Some (@HashTable.new V tableSize) ↔ Z.prime tableSize.
Proof.
  intros Hn. pose proof isPrime_iff as Hiff.
  assert (H1 : isPrime 1 = false) by reflexivity.
  unfold HashTable.new.
  destruct (tableSize =? 0) eqn:E0; simpl.
  - split; [by intros [? ?]|]. intros Hp. apply Z.prime_ge_2 in Hp. lia.
  - destruct (decide (tableSize = 1)) as [->|Hne1].
    + rewrite H1. simpl. split; [by intros [? ?]|].
      intros Hp. apply Z.prime_ge_2 in Hp. lia.
    + destruct (isPrime tableSize) eqn:Hp; simpl.
      * split; [|by eexists]. intros _. apply Hiff; [lia|done].
      * split; [by intros [? ?]|]. intros Hpr.
        apply Hiff in Hpr; [congruence|lia].
Qed.

Lemma new_inv {V : Type} (tableSize : Z) (h : HashTable.t V) :
  0 ≤ tableSize < 2 ^ 31 →
  HashTable.new tableSize = Some h →
  HashTable.tableSize h = tableSize
  ∧ HashTable.numElements h = 0
  ∧ length (HashTable.table h) = Z.to_nat tableSize
  ∧ ∀ k, HashTable.get k h = Some Null.
Proof.
  intros Hn. unfold HashTable.new.
  destruct (_ || _) eqn:E; [done|]. intros [= <-].
  apply orb_false_elim in E as [E0 _].
  split; [done|]. split; [done|]. split; [apply length_replicate|].
  intros k. unfold HashTable.get, HashTable.tableSize, umod. simpl.
  rewrite E0. simpl.
  pose proof (Z.mod_pos_bound k tableSize ltac:(lia)).
  rewrite rd_replicate_fresh by lia. simpl.
  apply get_probe_empty_table. lia.
Qed.

(** The constructor of the hash table succeeds exactly for a prime
    [tableSize] (it throws for 0, 1 and every composite number).  The new
    table has that size, holds no element, and [get] returns null for
    every key. *)
Theorem HashTable_new_spec {V : Type} (tableSize : Z) :
  0 ≤ tableSize < 2 ^ 31 →
  (is_Some (@HashTable.new V tableSize) ↔ Z.prime tableSize)
  ∧ ∀ h : HashTable.t V, HashTable.new tableSize = Some h →
      HashTable.tableSize h = tableSize
      ∧ HashTable.numElements h = 0
      ∧ length (HashTable.table h) = Z.to_nat tableSize
      ∧ ∀ k, HashTable.get k h = Some Null.
Proof.
  intros Hn. split; [by apply new_is_Some|].
  intros h. by apply new_inv.
Qed.

Lemma HashTable_new_spec_witness :
  0 ≤ 7 < 2 ^ 31
  ∧ Z.prime 7
  ∧ (∃ h : HashTable.t Z, HashTable.new 7 = Some h
       ∧ HashTable.tableSize h = 7 ∧ HashTable.get 23 h = Some Null)
  ∧ @HashTable.new Z 9 = None.
Proof.
  destruct (@HashTable_new_spec Z 7) as (Hiff & Hnew); [lia|].
  split; [lia|].
  assert (Hs : is_Some (@HashTable.new Z 7)) by (by eexists).
  split; [by apply Hiff|].
  split; [|reflexivity].
  destruct Hs as [h Hh]. exists h. split; [exact Hh|].
  destruct (Hnew h Hh) as (Hsz & _ & _ & Hget). split; [exact Hsz|apply Hget].
Defined.

(** ** Hash table: [get], [update] and [remove] agree on where a key is *)

Section HashTableFind.
Context {V : Type}.
Implicit Types (h : HashTable.t V) (k : Z) (p : ptr).

Lemma update_probe_get n i index k v h :
  HashTable.update_probe n i index k v h
  = p ← HashTable.get_probe n i index k h;
    at_pointer (HashTable.set_value v) p h.
Proof.
  revert i. induction n as [|n IH]; simpl; intros i; [done|].
  destruct (HashTable.probe _ _ _) as [j|]; [simpl|done].
  destruct (rd _ j) as [c|]; [simpl|done].
  destruct (HashTable.matches k c) as [[]|]; simpl; [done|apply IH|done].
Qed.

Lemma remove_probe_get n i index k h :
  HashTable.remove_probe n i index k h
  = p ← HashTable.get_probe n i index k h; at_pointer HashTable.clear p h.
Proof.
  revert i. induction n as [|n IH]; simpl; intros i; [done|].
  destruct (HashTable.probe _ _ _) as [j|]; [simpl|done].
  destruct (rd _ j) as [c|]; [simpl|done].
  destruct (HashTable.matches k c) as [[]|]; simpl; [done|apply IH|done].
Qed.

Lemma update_get k v h :
  HashTable.update k v h
  = p ← HashTable.get k h; at_pointer (HashTable.set_value v) p h.
Proof.
  unfold HashTable.update, HashTable.get.
  destruct (umod _ _) as [index|]; [simpl|done].
  destruct (rd _ index) as [c|]; [simpl|done].
  destruct (HashTable.matches k c) as [[]|]; simpl;
    [done|apply update_probe_get|done].
Qed.

Lemma remove_get k h :
  HashTable.remove k h
  = p ← HashTable.get k h; at_pointer HashTable.clear p h.
Proof.
  unfold HashTable.remove, HashTable.get.
  destruct (umod _ _) as [index|]; [simpl|done].
  destruct (rd _ index) as [c|]; [simpl|done].
  destruct (HashTable.matches k c) as [[]|]; simpl;
    [done|apply remove_probe_get|done].
Qed.

Lemma get_probe_range n i index k h j :
  0 < HashTable.tableSize h < 2 ^ 31 →
  HashTable.get_probe n i index k h = Some (ValueAt j) →
  0 ≤ j < HashTable.tableSize h.
Proof.
  intros Hsz. revert i. induction n as [|n IH]; simpl; intros i; [done|].
  destruct (HashTable.probe _ _ _) as [j'|] eqn:Hp; [simpl|done].
  destruct (rd _ j') as [c|]; [simpl|done].
  destruct (HashTable.matches k c) as [[]|]; simpl; [|apply IH|done].
  intros [= <-]. by eapply probe_range.
Qed.

Lemma set_value_rd v j h h' i :
  HashTable.set_value v j h = Some h' →
  HashTable.tableSize h' = HashTable.tableSize h
  ∧ HashTable.numElements h' = HashTable.numElements h
  ∧ ∃ c, rd (HashTable.table h) j = Some c
         ∧ rd (HashTable.table h') i
           = if i =? j then Some (mkPair (key c) (Some v) (isEmpty c))
             else rd (HashTable.table h) i.
Proof.
  unfold HashTable.set_value.
  destruct (rd _ j) as [c|] eqn:Hc; [simpl|done].
  destruct (wr _ _ _) as [tb|] eqn:Hw; [simpl|done].
  intros [= <-]. split; [done|]. split; [done|]. exists c. split; [done|].
  simpl. apply (rd_wr _ _ i _ _ Hw).
Qed.
End HashTableFind.

(** A non-null pointer returned by [get] is the address of the value of a
    bucket inside the table that is occupied and holds exactly the key
    asked for; [get] never returns the address of a key field. *)
Theorem get_points_to_key {V : Type} (h : HashTable.t V) (k : Z) (p : ptr) :
  0 < HashTable.tableSize h < 2 ^ 31 →
  HashTable.get k h = Some p →
  p = Null
  ∨ ∃ j c, p = ValueAt j
      ∧ 0 ≤ j < HashTable.tableSize h
      ∧ rd (HashTable.table h) j = Some c
      ∧ isEmpty c = false ∧ key c = Some k
      ∧ HashTable.deref p h = value c.
Proof.
  intros Hsz Hg.
  destruct (get_inv _ _ _ Hg) as [->|(j & c & -> & Hc & He & Hk)]; [by left|].
  right. exists j, c. split; [done|]. split.
  - unfold HashTable.get in Hg.
    destruct (umod _ _) as [index|] eqn:Hi; [simpl in Hg|done].
    destruct (rd _ index) as [c0|]; [simpl in Hg|done].
    destruct (HashTable.matches k c0) as [[]|]; simpl in Hg; [| |done].
    + injection Hg as <-. unfold umod in Hi.
      destruct (_ =? 0); [done|]. injection Hi as <-.
      apply Z.mod_pos_bound. lia.
    + by eapply get_probe_range.
  - repeat split; try done. simpl. by rewrite Hc.
Qed.

Lemma get_points_to_key_witness :
  0 < HashTable.tableSize example_table < 2 ^ 31
  ∧ HashTable.get 9 example_table = Some (ValueAt 3)
  ∧ (ValueAt 3 = Null
     ∨ ∃ j c, ValueAt 3 = ValueAt j
         ∧ 0 ≤ j < HashTable.tableSize example_table
         ∧ rd (HashTable.table example_table) j = Some c
         ∧ isEmpty c = false ∧ key c = Some 9
         ∧ HashTable.deref (ValueAt 3) example_table = value c).
Proof.
  split; [vm_compute; split; reflexivity|].
  split; [vm_compute; reflexivity|].
  apply (get_points_to_key example_table 9);
    [vm_compute; split; reflexivity|vm_compute; reflexivity].
Defined.

(** [update] writes to the bucket that [get] finds: it returns [true]
    exactly when [get] returns a non-null pointer.  After a successful
    update [get] returns the same pointer for every key, the pointer for
    the updated key leads to the new value, every other pointer leads to
    the value it led to before, and the size and the element count are
    unchanged. *)
Theorem update_spec {V : Type} (h h' : HashTable.t V) (k : Z) (v : V)
    (b : bool) :
  HashTable.update k v h = Some (b, h') →
  ∃ p, HashTable.get k h = Some p
    ∧ b = negb (is_null p)
    ∧ (b = false → h' = h)
    ∧ (b = true →
       HashTable.deref p h' = Some v
       ∧ (∀ p', p' ≠ p → HashTable.deref p' h' = HashTable.deref p' h)
       ∧ (∀ k', HashTable.get k' h' = HashTable.get k' h)
       ∧ HashTable.tableSize h' = HashTable.tableSize h
       ∧ HashTable.numElements h' = HashTable.numElements h).
Proof.
  rewrite update_get.
  destruct (HashTable.get k h) as [p|] eqn:Hg; [simpl|done].
  intros H. exists p. split; [done|].
  destruct (get_inv _ _ _ Hg) as [->|(j & c & -> & Hc & He & Hk)].
  - injection H as <- <-. by repeat split.
  - simpl in H.
    destruct (HashTable.set_value v j h) as [h1|] eqn:Hs; [|done].
    injection H as <- <-. split; [done|]. split; [done|]. intros _.
    pose proof (λ i, set_value_rd v j h h1 i Hs) as Hrd.
    destruct (Hrd 0) as (Hsz & Hn & _).
    split; [|split; [|split; [|done]]].
    + simpl. destruct (Hrd j) as (_ & _ & c' & _ & ->).
      by rewrite Z.eqb_refl.
    + intros [|i|i] Hne; simpl; try done.
      destruct (Hrd i) as (_ & _ & c' & _ & ->).
      destruct (i =? j) eqn:E; [|done]. assert (i = j) by lia. congruence.
    + intros k'. apply get_ext; [done|]. intros i.
      destruct (Hrd i) as (_ & _ & c' & Hc' & ->).
      destruct (i =? j) eqn:E; [|done].
      assert (i = j) as -> by lia. by rewrite Hc'.
Qed.

Lemma update_spec_witness :
  ∃ h' : HashTable.t Z,
    HashTable.update 9 91 example_table = Some (true, h')
    ∧ ∃ p, HashTable.get 9 example_table = Some p
        ∧ true = negb (is_null p)
        ∧ (true = true → HashTable.deref p h' = Some 91).
Proof.
  eexists. split; [vm_compute; reflexivity|].
  destruct (update_spec example_table _ 9 91 true
              ltac:(vm_compute; reflexivity)) as (p & Hg & Hb & _ & Ht).
  exists p. split; [exact Hg|]. split; [exact Hb|].
  intros E. by destruct (Ht E).
Defined.

(** [remove] empties the bucket that [get] finds: it returns [true]
    exactly when [get] returns a non-null pointer.  A successful removal
    marks that one bucket empty, leaves the key and the value stored in it
    and all other buckets as they are, keeps the table size and takes one
    off the element count. *)
Theorem remove_spec {V : Type} (h h' : HashTable.t V) (k : Z) (b : bool) :
  HashTable.remove k h = Some (b, h') →
  ∃ p, HashTable.get k h = Some p
    ∧ b = negb (is_null p)
    ∧ (b = false → h' = h)
    ∧ (b = true →
       ∃ j c, p = ValueAt j
         ∧ rd (HashTable.table h) j = Some c
         ∧ rd (HashTable.table h') j = Some (mkPair (key c) (value c) true)
         ∧ (∀ i, i ≠ j →
              rd (HashTable.table h') i = rd (HashTable.table h) i)
         ∧ HashTable.tableSize h' = HashTable.tableSize h
         ∧ HashTable.numElements h' = wrap (HashTable.numElements h - 1)).
Proof.
  rewrite remove_get.
  destruct (HashTable.get k h) as [p|] eqn:Hg; [simpl|done].
  intros H. exists p. split; [done|].
  destruct (get_inv _ _ _ Hg) as [->|(j & c & -> & Hc & He & Hk)].
  - injection H as <- <-. by repeat split.
  - simpl in H. unfold HashTable.clear in H. rewrite Hc in H. simpl in H.
    destruct (wr _ _ _) as [tb|] eqn:Hw; [simpl in H|done].
    injection H as <- <-. split; [done|]. split; [done|]. intros _.
    exists j, c. split; [done|]. split; [done|]. simpl.
    split; [|split; [|done]].
    + rewrite (rd_wr _ _ j _ _ Hw). by rewrite Z.eqb_refl.
    + intros i Hi. rewrite (rd_wr _ _ i _ _ Hw).
      destruct (i =? j) eqn:E; [lia|done].
Qed.

Lemma remove_spec_witness :
  ∃ h' : HashTable.t Z,
    HashTable.remove 2 example_table = Some (true, h')
    ∧ HashTable.numElements h' = 1
    ∧ ∃ p, HashTable.get 2 example_table = Some p
        ∧ true = negb (is_null p).
Proof.
  eexists. split; [vm_compute; reflexivity|].
  split; [vm_compute; reflexivity|].
  destruct (remove_spec example_table _ 2 true
              ltac:(vm_compute; reflexivity)) as (p & Hg & Hb & _).
  by exists p.
Defined.

(** ** Hash table: what [insert] does to the size and the element count *)

Section InsertShape.
Context {V : Type}.
Implicit Types (h : HashTable.t V) (k : Z).

Lemma checkRehash_shape index k h h1 index1 :
  HashTable.checkRehash index k h = Some (h1, index1) →
  HashTable.elementCount h1 = HashTable.elementCount h
  ∧ (if HashTable.loadFactor_ge_half (HashTable.elementCount h)
          (HashTable.size h)
     then HashTable.size h1 = nextPrime (wrap (2 * HashTable.size h))
     else h1 = h ∧ index1 = index).
Proof.
  unfold HashTable.checkRehash.
  destruct (HashTable.loadFactor_ge_half _ _); [|by intros [= <- <-]].
  generalize (nextPrime (wrap (2 * HashTable.size h))). intros p.
  destruct (HashTable.collect _ _ _ _ _) as [temp|]; [simpl|done].
  destruct (HashTable.rehash_insert _ _ _ _ _) as [tb|]; [simpl|done].
  destruct (umod k p) as [r|]; [simpl|done].
  by intros [= <- <-].
Qed.

Lemma insert_place_shape n i index k v h b h' :
  HashTable.insert_place n i index k v h = Some (b, h') →
  HashTable.size h' = HashTable.size h
  ∧ HashTable.elementCount h' = HashTable.elementCount h.
Proof.
  revert i. induction n as [|n IH]; simpl; intros i; [by intros [= <- <-]|].
  destruct (HashTable.probe _ _ _) as [j|]; [simpl|done].
  destruct (rd _ j) as [c|]; [simpl|done].
  destruct (isEmpty c); [|apply IH].
  destruct (HashTable.store _ _ _ _); simpl; [|done]. by intros [= <- <-].
Qed.

Lemma insert_write_shape index k v h b h' :
  HashTable.insert_write index k v h = Some (b, h') →
  HashTable.size h' = HashTable.size h
  ∧ HashTable.elementCount h' = HashTable.elementCount h.
Proof.
  unfold HashTable.insert_write.
  destruct (rd _ index) as [c|]; [simpl|done].
  destruct (isEmpty c); [|apply insert_place_shape].
  destruct (HashTable.store _ _ _ _); simpl; [|done]. by intros [= <- <-].
Qed.

Lemma insert_place_full n i0 index k v h :
  (∀ i, i0 ≤ i < i0 + Z.of_nat n →
     ∃ j c, HashTable.probe index i (HashTable.tableSize h) = Some j
            ∧ rd (HashTable.table h) j = Some c ∧ isEmpty c = false) →
  HashTable.insert_place n i0 index k v h = Some (false, h).
Proof.
  revert i0. induction n as [|n IH]; simpl; intros i0 Hfull; [done|].
  destruct (Hfull i0) as (j & c & -> & Hc & He); [lia|]. simpl.
  rewrite Hc. simpl. rewrite He. apply IH. intros i Hi. apply Hfull. lia.
Qed.

(** The first loop of [insert] ends in one of three ways. *)
Lemma insert_scan_cases n i0 index k h s :
  HashTable.insert_scan n i0 index k h = Some s →
  s = HashTable.Duplicate
  ∨ (s = HashTable.Continue h index
     ∧ ∀ i, i0 ≤ i < i0 + Z.of_nat n →
         ∃ j c, HashTable.probe index i (HashTable.tableSize h) = Some j
                ∧ rd (HashTable.table h) j = Some c ∧ isEmpty c = false)
  ∨ HashTable.count_and_rehash index k h = Some s.
Proof.
  revert i0. induction n as [|n IH]; simpl; intros i0.
  - intros [= <-]. right. left. split; [done|]. intros; lia.
  - destruct (HashTable.probe index i0 _) as [j|] eqn:Hp; [simpl|done].
    destruct (rd _ j) as [c|] eqn:Hc; [simpl|done].
    destruct (HashTable.matches k c) as [[]|]; simpl; [|
      |done].
    + intros [= <-]. by left.
    + destruct (isEmpty c) eqn:He; [by right; right|].
      intros [->|[[-> Hall]|H]]%IH; [by left| |by right; right].
      right. left. split; [done|]. intros i Hi.
      destruct (decide (i = i0)) as [->|]; [by exists j, c|].
      apply Hall. lia.
Qed.

(** A successful [insert] has gone through [elementCount++] and
    [checkRehash]. *)
Lemma insert_true k v h h' :
  HashTable.insert k v h = Some (true, h') →
  ∃ index h1 index1,
    HashTable.checkRehash index k
      (HashTable.set_elementCount (wrap (HashTable.elementCount h + 1)) h)
    = Some (h1, index1)
    ∧ HashTable.size h' = HashTable.size h1
    ∧ HashTable.elementCount h' = HashTable.elementCount h1.
Proof.
  unfold HashTable.insert.
  destruct (umod k _) as [index|]; [simpl|done].
  destruct (rd _ index) as [c|] eqn:Hc; [simpl|done].
  assert (Hcr : ∀ s, HashTable.count_and_rehash index k h = Some s →
    match s with
    | HashTable.Duplicate => Some (false, h)
    | HashTable.Continue h1 index1 => HashTable.insert_write index1 k v h1
    end = Some (true, h') →
    ∃ index h1 index1,
      HashTable.checkRehash index k
        (HashTable.set_elementCount (wrap (HashTable.elementCount h + 1)) h)
      = Some (h1, index1)
      ∧ HashTable.size h' = HashTable.size h1
      ∧ HashTable.elementCount h' = HashTable.elementCount h1).
  { intros s. unfold HashTable.count_and_rehash.
    destruct (HashTable.checkRehash _ _ _) as [[h1 index1]|] eqn:Hch;
      [simpl|done].
    intros [= <-] Hw. exists index, h1, index1. split; [done|].
    by eapply insert_write_shape. }
  destruct (isEmpty c) eqn:He.
  - destruct (HashTable.count_and_rehash _ _ _) as [s|] eqn:Hs; [simpl|done].
    by apply Hcr.
  - destruct (HashTable.insert_scan _ _ _ _ _) as [s|] eqn:Hs; [simpl|done].
    apply insert_scan_cases in Hs as [->|[[-> Hall]|Hs]]; [done| |by apply Hcr].
    unfold HashTable.insert_write. rewrite Hc. simpl. rewrite He.
    rewrite insert_place_full; [done|]. intros i Hi. apply Hall. lia.
Qed.
End InsertShape.

(** [insert] keeps the load factor below one half.  On a table of at least
    2 and fewer than [2^16] buckets whose element count is below half the
    size, a successful [insert] adds one to the count, a failed one changes
    nothing, and afterwards the count is again below half the size.  The
    size changes exactly when the insert succeeds and the new count would
    reach half the old size; the new size is then [nextPrime (2 * size)], a
    prime of at least twice the old size. *)
Theorem insert_keeps_load_factor {V : Type} (h h' : HashTable.t V) (k : Z)
    (v : V) (b : bool) :
  2 ≤ HashTable.tableSize h < 2 ^ 16 →
  0 ≤ 2 * HashTable.numElements h < HashTable.tableSize h →
  HashTable.insert k v h = Some (b, h') →
  (b = false → h' = h)
  ∧ (b = true → HashTable.numElements h' = HashTable.numElements h + 1)
  ∧ 0 ≤ 2 * HashTable.numElements h' < HashTable.tableSize h'
  ∧ (if b && (HashTable.tableSize h <=? 2 * (HashTable.numElements h + 1))
     then HashTable.tableSize h' = nextPrime (2 * HashTable.tableSize h)
          ∧ Z.prime (HashTable.tableSize h')
          ∧ 2 * HashTable.tableSize h ≤ HashTable.tableSize h'
     else HashTable.tableSize h' = HashTable.tableSize h).
Proof.
  unfold HashTable.tableSize, HashTable.numElements. intros Hsz Hld Hins.
  destruct b.
  - apply insert_true in Hins as (index & h1 & index1 & Hch & Hs & He).
    apply checkRehash_shape in Hch as [Hec Hsh]. simpl in Hec, Hsh.
    rewrite wrap_small in Hec, Hsh by lia.
    split; [done|]. split; [intros _; congruence|].
    unfold HashTable.loadFactor_ge_half in Hsh.
    destruct (HashTable.size h =? 0) eqn:E0; [lia|]. simpl.
    destruct (HashTable.size h <=? 2 * (HashTable.elementCount h + 1)) eqn:E.
    + rewrite wrap_small in Hsh by lia.
      destruct (nextPrime_small (2 * HashTable.size h)) as (Hb & Hp & _);
        [lia|].
      rewrite Hs, He, Hec, Hsh. split; [lia|]. split; [done|].
      split; [done|lia].
    + destruct Hsh as [-> _]. simpl in *. rewrite Hs, He. simpl.
      split; [lia|done].
  - apply insert_false in Hins as ->; [|unfold HashTable.size in *; lia].
    split; [done|]. split; [done|]. split; [lia|]. done.
Qed.

Lemma insert_keeps_load_factor_witness :
  ∃ h' : HashTable.t Z,
    2 ≤ HashTable.tableSize example_table < 2 ^ 16
    ∧ 0 ≤ 2 * HashTable.numElements example_table
        < HashTable.tableSize example_table
    ∧ HashTable.insert 5 50 example_table = Some (true, h')
    ∧ HashTable.numElements h' = HashTable.numElements example_table + 1
    ∧ 0 ≤ 2 * HashTable.numElements h' < HashTable.tableSize h'.
Proof.
  assert (E : { h' | HashTable.insert 5 50 example_table = Some (true, h') })
    by (eexists; vm_compute; reflexivity).
  destruct E as [h' E]. exists h'.
  assert (H1 : 2 ≤ HashTable.tableSize example_table < 2 ^ 16)
    by (vm_compute; split; [discriminate|reflexivity]).
  assert (H2 : 0 ≤ 2 * HashTable.numElements example_table
               < HashTable.tableSize example_table)
    by (vm_compute; split; [discriminate|reflexivity]).
  destruct (insert_keeps_load_factor example_table h' 5 50 true H1 H2 E)
    as (_ & Hn & Hl & _).
  split; [exact H1|]. split; [exact H2|]. split; [exact E|].
  split; [by apply Hn|exact Hl].
Defined.

(** When the home bucket of a key is empty, [insert] does not look for the
    key at all: on a table of fewer than [2^16] buckets it never returns
    [false], whatever the table holds, also when the key is stored further
    along its probe sequence (after a removal has emptied the home
    bucket); the table then holds the key twice. *)
Theorem insert_into_empty_home {V : Type} (h h' : HashTable.t V)
    (k index : Z) (v : V) (c : Pair V) (b : bool) :
  0 < HashTable.tableSize h < 2 ^ 16 →
  umod k (HashTable.tableSize h) = Some index →
  rd (HashTable.table h) index = Some c →
  isEmpty c = true →
  HashTable.insert k v h = Some (b, h') →
  b = true.
Proof.
  unfold HashTable.tableSize. intros Hsz Hidx Hc He.
  unfold HashTable.insert, HashTable.tableSize. rewrite Hidx. simpl.
  rewrite Hc. simpl. rewrite He.
  destruct (HashTable.count_and_rehash _ _ _) as [s|] eqn:Hs; [simpl|done].
  destruct b; [done|]. intros Hw. exfalso.
  pose proof (count_and_rehash_write index k v h s h' Hsz Hidx) as H.
  assert (Hrange : 0 ≤ index < HashTable.size h).
  { unfold umod in Hidx. destruct (_ =? 0); [done|].
    injection Hidx as <-. apply Z.mod_pos_bound. lia. }
  pose proof Hs as Hs'. unfold HashTable.count_and_rehash in Hs'.
  destruct (HashTable.checkRehash _ _ _) as [r|]; [simpl in Hs'|done].
  injection Hs' as <-. apply H; [|done|done].
  exists 0, index, c. split; [lia|]. split; [|done].
  rewrite probe_small; [|lia|lia|].
  - by rewrite Z.add_0_r, Z.mod_small by lia.
  - split; [lia|]. apply Z.div_pos; lia.
Qed.

(** Key 9 sits in bucket 3 behind key 2; once key 2 is removed, key 9 is
    inserted a second time. *)
Lemma insert_into_empty_home_witness :
  ∃ h1 h2 : HashTable.t Z,
    HashTable.remove 2 example_table = Some (true, h1)
    ∧ 0 < HashTable.tableSize h1 < 2 ^ 16
    ∧ umod 9 (HashTable.tableSize h1) = Some 2
    ∧ rd (HashTable.table h1) 2 = Some (mkPair (Some 2) (Some 20) true)
    ∧ HashTable.get 9 h1 = Some (ValueAt 3)
    ∧ HashTable.insert 9 91 h1 = Some (true, h2)
    ∧ (∀ b h', HashTable.insert 9 91 h1 = Some (b, h') → b = true)
    ∧ (key <$> HashTable.table h2)
      = [None; None; Some 9; Some 9; None; None; None]
    ∧ HashTable.numElements h2 = 2.
Proof.
  set (h1 := HashTable.mk
               [fresh; fresh; mkPair (Some 2) (Some 20) true;
                mkPair (Some 9) (Some 90) false; fresh; fresh; fresh] 7 1).
  exists h1. eexists.
  split; [vm_compute; reflexivity|].
  split; [vm_compute; split; reflexivity|].
  split; [vm_compute; reflexivity|].
  split; [vm_compute; reflexivity|].
  split; [vm_compute; reflexivity|].
  split; [vm_compute; reflexivity|].
  split.
  - intros b h'.
    apply (insert_into_empty_home h1 h' 9 2 91
             (mkPair (Some 2) (Some 20) true) b);
      [vm_compute; split; reflexivity|vm_compute; reflexivity
      |vm_compute; reflexivity|reflexivity].
  - split; vm_compute; reflexivity.
Defined.

(** ** Hash table: copies, moved-from tables, [operator==] and [operator!=] *)

Section HashTableCopy.
Context {V : Type}.
Implicit Types (h : HashTable.t V) (src dst : list (Pair V)).

Lemma rd_app_middle (pre rest : list (Pair V)) (c : Pair V) :
  rd (pre ++ c :: rest) (Z.of_nat (length pre)) = Some c.
Proof.
  unfold rd.
  destruct (Z.of_nat (length pre) <? 0) eqn:E; [apply Z.ltb_lt in E; lia|].
  rewrite Nat2Z.id. by apply list_lookup_middle.
Qed.

Lemma wr_app_middle (pre rest : list (Pair V)) (c x : Pair V) :
  wr (pre ++ c :: rest) (Z.of_nat (length pre)) x
  = Some (pre ++ x :: rest).
Proof.
  unfold wr. rewrite length_app. cbn [length].
  assert ((0 <=? Z.of_nat (length pre)) = true) as -> by (apply Z.leb_le; lia).
  assert ((Z.of_nat (length pre) <? Z.of_nat (length pre + S (length rest)))
          = true) as -> by (apply Z.ltb_lt; lia).
  simpl. rewrite Nat2Z.id. f_equal.
  rewrite insert_app_r_alt by lia. by rewrite Nat.sub_diag.
Qed.

Lemma pair_eta (c : Pair V) : mkPair (key c) (value c) (isEmpty c) = c.
Proof. by destruct c. Qed.

(** The copying loop after [length pre] buckets. *)
Lemma copy_cells_app (m : nat) (pre todo rest : list (Pair V)) :
  length todo = m →
  HashTable.copy_cells m (Z.of_nat (length pre)) (pre ++ todo ++ rest)
    (pre ++ replicate m fresh)
  = Some (pre ++ todo).
Proof.
  revert pre todo. induction m as [|m IH]; intros pre todo Hlen.
  - destruct todo; [|done]. simpl. by rewrite !app_nil_r.
  - destruct todo as [|c todo]; [done|]. simpl in Hlen.
    cbn [HashTable.copy_cells replicate]. simpl app.
    rewrite rd_app_middle. simpl. rewrite wr_app_middle. simpl.
    rewrite pair_eta.
    replace (Z.of_nat (length pre) + 1)
      with (Z.of_nat (length (pre ++ [c]))) by (rewrite length_app; simpl; lia).
    replace (pre ++ c :: todo ++ rest) with ((pre ++ [c]) ++ todo ++ rest)
      by (by rewrite <- app_assoc).
    replace (pre ++ c :: replicate m fresh)
      with ((pre ++ [c]) ++ replicate m (@fresh V))
      by (by rewrite <- app_assoc).
    rewrite IH by lia. by rewrite <- app_assoc.
Qed.
End HashTableCopy.

(** The copy constructor (and the copy assignment) builds a table with the
    size and the element count of its argument and with the same key,
    value and occupancy in each of the [tableSize] buckets: a deep copy
    that is equal to the argument. *)
Theorem HashTable_copy_spec {V : Type} (h : HashTable.t V) :
  length (HashTable.table h) = Z.to_nat (HashTable.tableSize h) →
  HashTable.copy h = Some h.
Proof.
  intros Hlen. unfold HashTable.copy, HashTable.tableSize,
    HashTable.numElements in *.
  pose proof (copy_cells_app (Z.to_nat (HashTable.size h)) []
                (HashTable.table h) [] Hlen) as H.
  cbn [length app] in H. change (Z.of_nat 0) with 0 in H.
  rewrite app_nil_r in H. rewrite H. simpl. by destruct h.
Qed.

Lemma HashTable_copy_spec_witness :
  length (HashTable.table example_table)
  = Z.to_nat (HashTable.tableSize example_table)
  ∧ HashTable.copy example_table = Some example_table.
Proof.
  split; [reflexivity|]. apply HashTable_copy_spec. reflexivity.
Defined.

(** The move constructor and the move assignment hand the members of
    [rhs] over and leave [rhs] with a null array, size 0 and no elements.
    On a table of size 0 (the constructor refuses 0, so only a moved-from
    table has it) [removeAllByValue] removes nothing, but [insert], [get],
    [update] and [remove] start with [key % tableSize()], a remainder by
    zero: they have no defined behaviour for any key. *)
Theorem HashTable_moved_from {V : Type} (veq : V → V → bool)
    (rhs h : HashTable.t V) :
  HashTable.tableSize h = 0 →
  (HashTable.move rhs).1 = rhs
  ∧ HashTable.tableSize (HashTable.move rhs).2 = 0
  ∧ HashTable.numElements (HashTable.move rhs).2 = 0
  ∧ HashTable.table (HashTable.move rhs).2 = []
  ∧ (∀ k v, HashTable.insert k v h = None)
  ∧ (∀ k, HashTable.get k h = None)
  ∧ (∀ k v, HashTable.update k v h = None)
  ∧ (∀ k, HashTable.remove k h = None)
  ∧ (∀ v, HashTable.removeAllByValue veq v h = Some (0, h)).
Proof.
  intros Hz.
  unfold HashTable.insert, HashTable.get, HashTable.update,
    HashTable.remove, HashTable.removeAllByValue.
  rewrite Hz. by repeat split.
Qed.

Lemma HashTable_moved_from_witness :
  HashTable.tableSize (HashTable.move example_table).2 = 0
  ∧ (HashTable.move example_table).1 = example_table
  ∧ HashTable.insert 2 20 (HashTable.move example_table).2 = None
  ∧ HashTable.get 2 (HashTable.move example_table).2 = None
  ∧ HashTable.removeAllByValue Z.eqb 20 (HashTable.move example_table).2
    = Some (0, (HashTable.move example_table).2).
Proof.
  destruct (HashTable_moved_from Z.eqb example_table
              (HashTable.move example_table).2)
    as (H1 & _ & _ & _ & Hi & Hg & _ & _ & Hr); [reflexivity|].
  split; [reflexivity|]. split; [exact H1|]. split; [apply Hi|].
  split; [apply Hg|apply Hr].
Defined.

(** [operator!=] is the negation of [operator==], also when it has no
    defined behaviour; tables with different element counts are unequal
    without any bucket being read. *)
Theorem ne_negates_eq {V : Type} (veq : V → V → bool)
    (this rhs : HashTable.t V) :
  HashTable.ne veq this rhs = negb <$> HashTable.eq veq this rhs
  ∧ (HashTable.numElements this ≠ HashTable.numElements rhs →
     HashTable.eq veq this rhs = Some false
     ∧ HashTable.ne veq this rhs = Some true).
Proof.
  unfold HashTable.ne, HashTable.eq. split.
  - destruct (negb _); [done|].
    by destruct (HashTable.count_outer _ _ _ _ _ _).
  - intros Hne.
    destruct (HashTable.numElements this =? HashTable.numElements rhs) eqn:E;
      [lia|done].
Qed.

Lemma ne_negates_eq_witness :
  HashTable.numElements example_table
  ≠ HashTable.numElements (@HashTable.moved_from Z)
  ∧ HashTable.eq Z.eqb example_table HashTable.moved_from = Some false
  ∧ HashTable.ne Z.eqb example_table HashTable.moved_from = Some true
  ∧ HashTable.eq Z.eqb example_table example_table = Some true
  ∧ HashTable.ne Z.eqb example_table example_table = Some false.
Proof.
  destruct (ne_negates_eq Z.eqb example_table HashTable.moved_from)
    as [_ H].
  split; [vm_compute; discriminate|].
  split; [apply H; vm_compute; discriminate|].
  split; [apply H; vm_compute; discriminate|].
  split; reflexivity.
Defined.

(** ** Hash table: [removeAllByValue] *)

Section RemoveAllByValue.
Context {V : Type} (veq : V → V → bool).
Implicit Types (h : HashTable.t V) (pre todo rest : list (Pair V)).

Lemma iter_wrap_add (t : nat) (x : Z) :
  Nat.iter t (λ y, wrap (y + 1)) x
  = if decide (t = 0%nat) then x else wrap (x + Z.of_nat t).
Proof.
  induction t as [|t IH]; [done|]. simpl. rewrite IH.
  destruct (decide (t = 0%nat)) as [->|_]; [done|].
  unfold wrap. rewrite Zplus_mod_idemp_l. f_equal. lia.
Qed.

Lemma iter_wrap_sub (t : nat) (x : Z) :
  Nat.iter t (λ y, wrap (y - 1)) x
  = if decide (t = 0%nat) then x else wrap (x - Z.of_nat t).
Proof.
  induction t as [|t IH]; [done|]. simpl. rewrite IH.
  destruct (decide (t = 0%nat)) as [->|_]; [done|].
  unfold wrap. rewrite Zminus_mod_idemp_l. f_equal. lia.
Qed.

Lemma swept_holds v (c : Pair V) : holds_value veq v (swept veq v c) = false.
Proof.
  unfold swept. destruct (holds_value veq v c) eqn:E; [done|exact E].
Qed.

Lemma swept_comparable v (c : Pair V) :
  comparable c = true → comparable (swept veq v c) = true.
Proof. unfold swept. by destruct (holds_value veq v c). Qed.

Lemma swept_idemp v (c : Pair V) :
  swept veq v (swept veq v c) = swept veq v c.
Proof.
  unfold swept at 1. by rewrite swept_holds.
Qed.

(** The loop after [length pre] buckets, with [todo] still to visit. *)
Lemma removeAllByValue_loop_app v todo :
  ∀ pre rest counter count sz,
  forallb comparable todo = true →
  HashTable.removeAllByValue_loop veq (length todo) (Z.of_nat (length pre)) v
    counter (HashTable.mk (pre ++ todo ++ rest) sz count)
  = Some (Nat.iter (length (List.filter (holds_value veq v) todo))
            (λ y, wrap (y + 1)) counter,
          HashTable.mk (pre ++ (swept veq v <$> todo) ++ rest) sz
            (Nat.iter (length (List.filter (holds_value veq v) todo))
               (λ y, wrap (y - 1)) count)).
Proof.
  induction todo as [|c todo IH]; intros pre rest counter count sz Hcmp;
    [done|].
  cbn [forallb] in Hcmp. apply andb_prop in Hcmp as [Hc Hcmp].
  cbn [length HashTable.removeAllByValue_loop HashTable.table app].
  rewrite rd_app_middle. cbn [mbind option_bind].
  assert (Hnext : ∀ c' cnt' count',
    HashTable.removeAllByValue_loop veq (length todo)
      (Z.of_nat (length pre) + 1) v cnt'
      (HashTable.mk (pre ++ c' :: todo ++ rest) sz count')
    = Some (Nat.iter (length (List.filter (holds_value veq v) todo))
              (λ y, wrap (y + 1)) cnt',
            HashTable.mk (pre ++ c' :: (swept veq v <$> todo) ++ rest) sz
              (Nat.iter (length (List.filter (holds_value veq v) todo))
                 (λ y, wrap (y - 1)) count'))).
  { intros c' cnt' count'.
    replace (Z.of_nat (length pre) + 1)
      with (Z.of_nat (length (pre ++ [c'])))
      by (rewrite length_app; simpl; lia).
    replace (pre ++ c' :: todo ++ rest) with ((pre ++ [c']) ++ todo ++ rest)
      by (by rewrite <- app_assoc).
    rewrite IH by done. by rewrite <- app_assoc. }
  unfold comparable in Hc. cbn [List.filter fmap list_fmap].
  unfold swept, holds_value.
  destruct (isEmpty c) eqn:He; simpl.
  - apply Hnext.
  - destruct (value c) as [x|] eqn:Hv; [simpl|done].
    destruct (veq x v) eqn:Hx.
    + unfold HashTable.clear. cbn [HashTable.table].
      rewrite rd_app_middle. cbn [mbind option_bind].
      rewrite wr_app_middle. cbn [mbind option_bind HashTable.size
        HashTable.elementCount length].
      rewrite Hnext, Hv. by rewrite !Nat.iter_succ_r.
    + apply Hnext.
Qed.
End RemoveAllByValue.

(** On a table whose array has [tableSize] buckets (fewer than [2^32]) and
    whose occupied buckets hold determinate values, [removeAllByValue]
    returns the number of occupied buckets with a value equal to the
    argument, marks exactly those buckets empty, leaves every other bucket
    and the table size as they are and takes the returned number off the
    element count.  A second call with the same value returns 0 and
    changes nothing. *)
Theorem removeAllByValue_spec {V : Type} (veq : V → V → bool) (v : V)
    (h : HashTable.t V) :
  length (HashTable.table h) = Z.to_nat (HashTable.tableSize h) →
  HashTable.tableSize h < 2 ^ 32 →
  forallb comparable (HashTable.table h) = true →
  ∃ (n : Z) (h' : HashTable.t V),
    HashTable.removeAllByValue veq v h = Some (n, h')
    ∧ n = Z.of_nat
            (length (List.filter (holds_value veq v) (HashTable.table h)))
    ∧ HashTable.table h' = (swept veq v <$> HashTable.table h)
    ∧ HashTable.tableSize h' = HashTable.tableSize h
    ∧ HashTable.numElements h'
      = (if n =? 0 then HashTable.numElements h
         else wrap (HashTable.numElements h - n))
    ∧ List.filter (holds_value veq v) (HashTable.table h') = []
    ∧ HashTable.removeAllByValue veq v h' = Some (0, h').
Proof.
  unfold HashTable.tableSize, HashTable.numElements. intros Hlen Hsz Hcmp.
  set (t := length (List.filter (holds_value veq v) (HashTable.table h))).
  assert (Ht : (t ≤ length (HashTable.table h))%nat)
    by apply List.filter_length_le.
  assert (Hrun : ∀ tb count,
    length tb = Z.to_nat (HashTable.size h) →
    forallb comparable tb = true →
    HashTable.removeAllByValue veq v (HashTable.mk tb (HashTable.size h) count)
    = Some (Nat.iter (length (List.filter (holds_value veq v) tb))
              (λ y, wrap (y + 1)) 0,
            HashTable.mk (swept veq v <$> tb) (HashTable.size h)
              (Nat.iter (length (List.filter (holds_value veq v) tb))
                 (λ y, wrap (y - 1)) count))).
  { intros tb count Hl Hc. unfold HashTable.removeAllByValue,
      HashTable.tableSize. cbn [HashTable.size]. rewrite <- Hl.
    pose proof (removeAllByValue_loop_app veq v tb [] [] 0 count
                  (HashTable.size h) Hc) as H.
    cbn [length app] in H. change (Z.of_nat 0) with 0 in H.
    rewrite !app_nil_r in H. exact H. }
  assert (Hclean : List.filter (holds_value veq v)
                     (swept veq v <$> HashTable.table h) = []).
  { clear. induction (HashTable.table h) as [|c tb IH]; [done|].
    cbn [fmap list_fmap List.filter]. by rewrite swept_holds. }
  exists (Z.of_nat t),
    (HashTable.mk (swept veq v <$> HashTable.table h) (HashTable.size h)
       (Nat.iter t (λ y, wrap (y - 1)) (HashTable.elementCount h))).
  split.
  { destruct h as [tb sz count]. cbn [HashTable.table HashTable.size
      HashTable.elementCount] in *. rewrite Hrun by done. fold t.
    rewrite iter_wrap_add. destruct (decide (t = 0%nat)) as [->|_]; [done|].
    by rewrite Z.add_0_l, wrap_small by lia. }
  split; [done|]. split; [done|]. split; [done|]. split.
  { cbn [HashTable.elementCount]. rewrite iter_wrap_sub.
    destruct (decide (t = 0%nat)) as [->|Hne]; [done|].
    destruct (Z.of_nat t =? 0) eqn:E; [lia|done]. }
  split; [exact Hclean|].
  rewrite Hrun.
  - rewrite Hclean. cbn [length Nat.iter]. f_equal. f_equal. f_equal.
    clear. induction (HashTable.table h) as [|c tb IH]; [done|].
    cbn [fmap list_fmap]. rewrite swept_idemp. f_equal. exact IH.
  - by rewrite length_fmap.
  - clear -Hcmp. induction (HashTable.table h) as [|c tb IH]; [done|].
    cbn [forallb] in Hcmp. apply andb_prop in Hcmp as [Hc Hcmp].
    cbn [fmap list_fmap forallb]. rewrite swept_comparable by done.
    by apply IH.
Qed.

Lemma removeAllByValue_spec_witness :
  length (HashTable.table example_table)
  = Z.to_nat (HashTable.tableSize example_table)
  ∧ HashTable.tableSize example_table < 2 ^ 32
  ∧ forallb comparable (HashTable.table example_table) = true
  ∧ ∃ (n : Z) (h' : HashTable.t Z),
      HashTable.removeAllByValue Z.eqb 90 example_table = Some (n, h')
      ∧ n = 1
      ∧ HashTable.removeAllByValue Z.eqb 90 h' = Some (0, h').
Proof.
  assert (H1 : length (HashTable.table example_table)
               = Z.to_nat (HashTable.tableSize example_table))
    by reflexivity.
  assert (H2 : HashTable.tableSize example_table < 2 ^ 32) by reflexivity.
  assert (H3 : forallb comparable (HashTable.table example_table) = true)
    by reflexivity.
  split; [exact H1|]. split; [exact H2|]. split; [exact H3|].
  destruct (removeAllByValue_spec Z.eqb 90 example_table H1 H2 H3)
    as (n & h' & Hr & Hn & _ & _ & _ & _ & Hagain).
  exists n, h'. split; [exact Hr|]. split; [|exact Hagain].
  rewrite Hn. reflexivity.
Defined.

(** ** Priority queue: construction, capacity and element count *)

Section QueueFrameProofs.
Context {V : Type}.
Implicit Types (q : PriorityQueue.t V) (a : list (Pair V)).

Lemma same_frame_refl q : same_frame q q.
Proof. by repeat split. Qed.

Lemma same_frame_trans q1 q2 q3 :
  same_frame q1 q2 → same_frame q2 q3 → same_frame q1 q3.
Proof. intros (? & ? & ?) (? & ? & ?). repeat split; congruence. Qed.

Lemma swap_length i j a a' :
  PriorityQueue.swap i j a = Some a' → length a' = length a.
Proof.
  unfold PriorityQueue.swap. intros H.
  destruct (rd a i) as [x|]; [simpl in H|done].
  destruct (rd a j) as [y|]; [simpl in H|done].
  destruct (wr a i y) as [a1|] eqn:H1; [simpl in H|done].
  apply wr_length in H, H1. congruence.
Qed.

Lemma reindex_frame index q q' :
  PriorityQueue.reindex index q = Some q' → same_frame q q'.
Proof.
  intros (Hh & He & Hs)%reindex_heap. repeat split; congruence.
Qed.

Lemma record_frame index q q' :
  PriorityQueue.record index q = Some q' →
  same_frame q q' ∧ PriorityQueue.heap q' = PriorityQueue.heap q.
Proof.
  unfold PriorityQueue.record. intros H.
  destruct (rd _ index) as [c|]; [simpl in H|done].
  destruct (key c) as [k|]; [simpl in H|done].
  destruct (HashTable.insert _ _ _) as [r|]; [simpl in H|done].
  injection H as <-. by repeat split.
Qed.

Lemma set_key_frame index k q q' :
  PriorityQueue.set_key index k q = Some q' → same_frame q q'.
Proof.
  unfold PriorityQueue.set_key. intros H.
  destruct (rd _ index) as [c|]; [simpl in H|done].
  destruct (wr _ _ _) as [a|] eqn:Hw; [simpl in H|done].
  injection H as <-. apply wr_length in Hw. by repeat split.
Qed.

Lemma swap_reindex_frame i j index q a q' :
  PriorityQueue.swap i j (PriorityQueue.heap q) = Some a →
  PriorityQueue.reindex index (PriorityQueue.set_heap a q) = Some q' →
  same_frame q q'.
Proof.
  intros Hs%swap_length (He & Hz & Hl)%reindex_frame. simpl in *.
  repeat split; congruence.
Qed.

Lemma percolateUp_from_frame p q r :
  PriorityQueue.percolateUp_from p q = Some r → same_frame q r.1.
Proof.
  revert q. induction p as [p IH|p IH|]; intros q; simpl;
    [| |intros [= <-]; apply same_frame_refl].
  all: destruct (rd _ (PriorityQueue.parent _)) as [a|]; [simpl|done].
  all: destruct (key a) as [ka|]; [simpl|done].
  all: destruct (rd _ _) as [b|]; [simpl|done].
  all: destruct (key b) as [kb|]; [simpl|done].
  all: destruct (kb <? ka); [|intros [= <-]; apply same_frame_refl].
  all: destruct (PriorityQueue.swap _ _ _) as [a'|] eqn:Hs; [simpl|done].
  all: destruct (PriorityQueue.reindex _ _) as [q'|] eqn:Hr; [simpl|done].
  all: intros H%IH; eapply same_frame_trans; [|exact H].
  all: by eapply swap_reindex_frame.
Qed.

Lemma percolateUp_frame index q r :
  PriorityQueue.percolateUp index q = Some r → same_frame q r.1.
Proof.
  destruct index; simpl; try (intros [= <-]; apply same_frame_refl).
  apply percolateUp_from_frame.
Qed.

Lemma percolateDown_body_frame index q r :
  PriorityQueue.percolateDown_body index q = Some r → same_frame q r.1.
Proof.
  unfold PriorityQueue.percolateDown_body.
  destruct (PriorityQueue.smallest_child _ _) as [s|]; [simpl|done].
  destruct (s =? index); [intros [= <-]; apply same_frame_refl|].
  destruct (PriorityQueue.swap _ _ _) as [a'|] eqn:Hs; [simpl|done].
  destruct (PriorityQueue.reindex _ _) as [q'|] eqn:Hr; [simpl|done].
  intros [= <-]. by eapply swap_reindex_frame.
Qed.

Lemma percolateDown_loop_frame fuel index base q r :
  PriorityQueue.percolateDown_loop fuel index base q = Some r →
  same_frame q r.1.
Proof.
  revert index base q. induction fuel as [|fuel IH]; intros index base q;
    simpl; [done|].
  destruct (PriorityQueue.percolateDown_cond _ _ _) as [[]|]; simpl;
    [|intros [= <-]; apply same_frame_refl|done].
  destruct (PriorityQueue.percolateDown_body _ _) as [r1|] eqn:Hb;
    [simpl|done].
  intros H%IH. eapply same_frame_trans; [|exact H].
  by eapply percolateDown_body_frame.
Qed.

Lemma remove_sweep_frame n index q q' :
  PriorityQueue.remove_sweep n index q = Some q' → same_frame q q'.
Proof.
  revert index q. induction n as [|n IH]; intros index q; simpl;
    [intros [= <-]; apply same_frame_refl|].
  destruct (rd _ index) as [c|]; [simpl|done].
  destruct (key c) as [k|]; [simpl|done].
  destruct (PriorityQueue.slot_of k q) as [i|]; [simpl|done].
  destruct (i =? index); simpl; [apply IH|].
  destruct (PriorityQueue.reindex index q) as [q1|] eqn:Hr; [simpl|done].
  intros H%IH. eapply same_frame_trans; [|exact H]. by eapply reindex_frame.
Qed.
End QueueFrameProofs.

Lemma step_false {V : Type} (o : PriorityQueue.op V)
    (q q' : PriorityQueue.t V) :
  PriorityQueue.step o q = Some (false, q') → q' = q.
Proof.
  destruct o as [k v| |k|k c|k c]; simpl.
  - apply pq_insert_false.
  - apply deleteMin_false.
  - apply pq_remove_false.
  - apply decreaseKey_false.
  - apply increaseKey_false.
Qed.

(** The constructor of the priority queue throws exactly for
    [maxSize = 0] (capacities up to [2^17 - 1] are covered).  The new
    queue is empty, has the given capacity, a heap array of
    [maxSize + 1] cells and a hash index of [nextPrime maxSize] buckets in
    which no key is present; heap order and the index bijection hold. *)
Theorem PriorityQueue_new_spec {V : Type} (maxSize : Z) :
  0 ≤ maxSize ≤ 131071 →
  (@PriorityQueue.new V maxSize = None ↔ maxSize = 0)
  ∧ ∀ q : PriorityQueue.t V, PriorityQueue.new maxSize = Some q →
      PriorityQueue.numElements q = 0
      ∧ PriorityQueue.maxSize q = maxSize
      ∧ length (PriorityQueue.heap q) = Z.to_nat (maxSize + 1)
      ∧ HashTable.tableSize (PriorityQueue.data q) = nextPrime maxSize
      ∧ (∀ k, PriorityQueue.present k q = Some false)
      ∧ heap_order q ∧ index_bijection q.
Proof.
  intros Hm. unfold PriorityQueue.new.
  assert (Hnp : maxSize ≠ 0 → 0 ≤ nextPrime maxSize < 2 ^ 31
                               ∧ Z.prime (nextPrime maxSize)).
  { intros Hne. destruct (decide (maxSize = 1)) as [->|H1].
    - change (nextPrime 1) with 2. split; [lia|]. 
      apply isPrime_prime; [lia|reflexivity].
    - destruct (nextPrime_small maxSize) as (Hb & Hp & _); [lia|].
      split; [lia|done]. }
  destruct (maxSize =? 0) eqn:E0.
  - assert (maxSize = 0) as -> by lia. split; [done|]. intros q.
    by destruct (HashTable.new _).
  - destruct Hnp as [Hr Hp]; [lia|].
    pose proof (@new_is_Some Z (nextPrime maxSize) Hr) as Hiff.
    pose proof (λ h, @new_inv Z (nextPrime maxSize) h Hr) as Hnew.
    apply Hiff in Hp as [d Hd]. rewrite Hd. simpl. split; [split; [done|lia]|].
    intros q [= <-]. destruct (Hnew d Hd) as (Hsz & Hn & _ & Hget).
    split; [done|]. split; [done|]. split.
    { simpl. rewrite length_replicate, wrap_small by lia. done. }
    split; [done|].
    assert (Hpres : ∀ k, PriorityQueue.present k
              (PriorityQueue.mk (replicate (Z.to_nat (wrap (maxSize + 1)))
                 (@fresh V)) d maxSize 0) = Some false).
    { intros k. unfold PriorityQueue.present. simpl. by rewrite Hget. }
    split; [exact Hpres|]. split.
    + intros i Hi. simpl in Hi. lia.
    + split; [intros i Hi; simpl in Hi; lia|].
      intros k Hk. rewrite Hpres in Hk. done.
Qed.

Lemma PriorityQueue_new_spec_witness :
  0 ≤ 14 ≤ 131071
  ∧ ∃ q : PriorityQueue.t Z,
      PriorityQueue.new 14 = Some q
      ∧ PriorityQueue.numElements q = 0
      ∧ HashTable.tableSize (PriorityQueue.data q) = 17
      ∧ heap_order q ∧ index_bijection q.
Proof.
  split; [lia|].
  destruct (@PriorityQueue_new_spec Z 14) as [_ H]; [lia|].
  assert (E : { q | @PriorityQueue.new Z 14 = Some q })
    by (eexists; vm_compute; reflexivity).
  destruct E as [q E]. exists q.
  destruct (H q E) as (Hn & _ & _ & Hs & _ & Ho & Hb).
  split; [exact E|]. split; [exact Hn|]. split; [|split; [exact Ho|exact Hb]].
  rewrite Hs. reflexivity.
Defined.

(** No public operation takes the element count out of
    [0 .. maxSize] or changes the capacity or the length of the heap
    array: [insert] adds one element when it returns [true], [deleteMin]
    and [remove] take one away when they return [true], and every other
    case leaves the count as it is.  ([remove] decrements without testing
    for an empty heap, so a non-empty queue is required for it.) *)
Theorem capacity_bound {V : Type} (o : PriorityQueue.op V)
    (q q' : PriorityQueue.t V) (b : bool) :
  0 ≤ PriorityQueue.numElements q ≤ PriorityQueue.maxSize q →
  PriorityQueue.maxSize q < 2 ^ 32 →
  (∀ k, o = PriorityQueue.Remove k → 1 ≤ PriorityQueue.numElements q) →
  PriorityQueue.step o q = Some (b, q') →
  PriorityQueue.numElements q'
  = PriorityQueue.numElements q + count_change o b
  ∧ 0 ≤ PriorityQueue.numElements q' ≤ PriorityQueue.maxSize q'
  ∧ PriorityQueue.maxSize q' = PriorityQueue.maxSize q
  ∧ length (PriorityQueue.heap q') = length (PriorityQueue.heap q).
Proof.
  unfold PriorityQueue.numElements, PriorityQueue.maxSize.
  intros Hb Hs Hrem Hstep.
  enough (Hgoal : PriorityQueue.elementCount q'
                  = PriorityQueue.elementCount q + count_change o b
                  ∧ (count_change o b = 1 →
                     PriorityQueue.elementCount q < PriorityQueue.size q)
                  ∧ (count_change o b = -1 →
                     1 ≤ PriorityQueue.elementCount q)
                  ∧ PriorityQueue.size q' = PriorityQueue.size q
                  ∧ length (PriorityQueue.heap q')
                    = length (PriorityQueue.heap q)).
  { destruct Hgoal as (He & H1 & H2 & Hz & Hl).
    split; [done|]. split; [|done].
    assert (count_change o b = 1 ∨ count_change o b = -1
            ∨ count_change o b = 0) as [E|[E|E]]
      by (destruct o, b; simpl; auto); lia. }
  destruct b; cycle 1.
  { apply step_false in Hstep as ->.
    assert (count_change o false = 0) as -> by (by destruct o).
    split; [lia|]. split; [lia|]. split; [lia|]. done. }
  destruct o as [k v| |k|k c|k c]; simpl in Hstep |- *.
  - unfold PriorityQueue.insert, PriorityQueue.maxSize in Hstep.
    destruct (PriorityQueue.size q <=? PriorityQueue.elementCount q) eqn:E;
      [done|].
    destruct (PriorityQueue.present k q) as [[]|]; simpl in Hstep; try done.
    destruct (rd _ _) as [c|]; [simpl in Hstep|done].
    destruct (wr _ _ _) as [a|] eqn:Hw; [simpl in Hstep|done].
    destruct (PriorityQueue.percolateUp _ _) as [r|] eqn:Hp;
      [simpl in Hstep|done].
    destruct (HashTable.insert _ _ _) as [d|]; [simpl in Hstep|done].
    injection Hstep as <-. simpl.
    apply percolateUp_frame in Hp as (He & Hz & Hl). simpl in *.
    apply wr_length in Hw. rewrite wrap_small in He by lia.
    split; [lia|]. split; [lia|]. split; [lia|]. split; congruence.
  - unfold PriorityQueue.deleteMin in Hstep.
    destruct (PriorityQueue.elementCount q =? 0) eqn:E; [done|].
    destruct (PriorityQueue.deref_key _ _) as [k|]; [simpl in Hstep|done].
    destruct (HashTable.remove _ _) as [d|]; [simpl in Hstep|done].
    destruct (rd _ _) as [last|]; [simpl in Hstep|done].
    destruct (wr _ _ _) as [a|] eqn:Hw; [simpl in Hstep|done].
    destruct (PriorityQueue.percolateDown _ _) as [r|] eqn:Hp;
      [simpl in Hstep|done].
    destruct (PriorityQueue.reindex _ _) as [q1|] eqn:Hr;
      [simpl in Hstep|done].
    injection Hstep as <-.
    apply percolateDown_loop_frame in Hp as (He & Hz & Hl).
    apply reindex_frame in Hr as (He' & Hz' & Hl'). simpl in *.
    apply wr_length in Hw. rewrite wrap_small in He by lia.
    split; [lia|]. split; [lia|]. split; [lia|]. split; congruence.
  - specialize (Hrem k eq_refl).
    unfold PriorityQueue.remove, PriorityQueue.numElements in Hstep.
    destruct (PriorityQueue.present k q) as [[]|]; simpl in Hstep; try done.
    destruct (PriorityQueue.slot_of k q) as [index|]; [simpl in Hstep|done].
    destruct (HashTable.remove _ _) as [d|]; [simpl in Hstep|done].
    destruct (rd _ _) as [last|]; [simpl in Hstep|done].
    destruct (wr _ _ _) as [a|] eqn:Hw; [simpl in Hstep|done].
    destruct (PriorityQueue.percolateDown _ _) as [r|] eqn:Hp;
      [simpl in Hstep|done].
    destruct (if r.2 =? index then _ else _) as [r'|] eqn:Hup;
      [simpl in Hstep|done].
    destruct (PriorityQueue.reindex _ _) as [q1|] eqn:Hr;
      [simpl in Hstep|done].
    destruct (PriorityQueue.remove_sweep _ _ _) as [q2|] eqn:Hsw;
      [simpl in Hstep|done].
    injection Hstep as <-.
    apply percolateDown_loop_frame in Hp as (He & Hz & Hl).
    assert (same_frame r.1 r'.1) as (He1 & Hz1 & Hl1).
    { destruct (r.2 =? index).
      - by apply percolateUp_frame in Hup.
      - injection Hup as <-. apply same_frame_refl. }
    apply reindex_frame in Hr as (He2 & Hz2 & Hl2).
    apply remove_sweep_frame in Hsw as (He3 & Hz3 & Hl3). simpl in *.
    apply wr_length in Hw.
    assert (PriorityQueue.elementCount q1 = PriorityQueue.elementCount q)
      as Hq1 by congruence.
    rewrite Hq1, wrap_small in He3 by lia.
    split; [lia|]. split; [lia|]. split; [lia|]. split; congruence.
  - unfold PriorityQueue.decreaseKey in Hstep.
    destruct (PriorityQueue.change_rejected _ _ _ _) as [[]|];
      simpl in Hstep; try done.
    destruct (PriorityQueue.slot_of k q) as [index|]; [simpl in Hstep|done].
    destruct (HashTable.remove _ _) as [d|]; [simpl in Hstep|done].
    destruct (rd _ _) as [c0|]; [simpl in Hstep|done].
    destruct (key c0) as [old|]; [simpl in Hstep|done].
    destruct (PriorityQueue.set_key _ _ _) as [q1|] eqn:Hk;
      [simpl in Hstep|done].
    destruct (PriorityQueue.percolateUp _ _) as [r|] eqn:Hp;
      [simpl in Hstep|done].
    destruct (PriorityQueue.record _ _) as [q2|] eqn:Hr;
      [simpl in Hstep|done].
    injection Hstep as <-.
    apply set_key_frame in Hk as (He & Hz & Hl).
    apply percolateUp_frame in Hp as (He1 & Hz1 & Hl1).
    apply record_frame in Hr as [(He2 & Hz2 & Hl2) _]. simpl in *.
    split; [lia|]. split; [lia|]. split; [lia|]. split; congruence.
  - unfold PriorityQueue.increaseKey in Hstep.
    destruct (PriorityQueue.change_rejected _ _ _ _) as [[]|];
      simpl in Hstep; try done.
    destruct (PriorityQueue.slot_of k q) as [index|]; [simpl in Hstep|done].
    destruct (HashTable.remove _ _) as [d|]; [simpl in Hstep|done].
    destruct (rd _ _) as [c0|]; [simpl in Hstep|done].
    destruct (key c0) as [old|]; [simpl in Hstep|done].
    destruct (PriorityQueue.set_key _ _ _) as [q1|] eqn:Hk;
      [simpl in Hstep|done].
    destruct (PriorityQueue.percolateDown _ _) as [r|] eqn:Hp;
      [simpl in Hstep|done].
    destruct (PriorityQueue.record _ _) as [q2|] eqn:Hr;
      [simpl in Hstep|done].
    injection Hstep as <-.
    apply set_key_frame in Hk as (He & Hz & Hl).
    apply percolateDown_loop_frame in Hp as (He1 & Hz1 & Hl1).
    apply record_frame in Hr as [(He2 & Hz2 & Hl2) _]. simpl in *.
    split; [lia|]. split; [lia|]. split; [lia|]. split; congruence.
Qed.

Lemma capacity_bound_witness :
  ∃ q' : PriorityQueue.t Z,
    0 ≤ PriorityQueue.numElements example_queue
      ≤ PriorityQueue.maxSize example_queue
    ∧ PriorityQueue.maxSize example_queue < 2 ^ 32
    ∧ PriorityQueue.step (PriorityQueue.Remove 20) example_queue
      = Some (true, q')
    ∧ PriorityQueue.numElements q'
      = PriorityQueue.numElements example_queue - 1
    ∧ 0 ≤ PriorityQueue.numElements q' ≤ PriorityQueue.maxSize q'.
Proof.
  assert (E : { q' | PriorityQueue.step (PriorityQueue.Remove 20)
                       example_queue = Some (true, q') })
    by (eexists; vm_compute; reflexivity).
  destruct E as [q' E]. exists q'.
  assert (H1 : 0 ≤ PriorityQueue.numElements example_queue
               ≤ PriorityQueue.maxSize example_queue)
    by (vm_compute; split; discriminate).
  assert (H2 : PriorityQueue.maxSize example_queue < 2 ^ 32) by reflexivity.
  destruct (capacity_bound (PriorityQueue.Remove 20) example_queue q' true
              H1 H2) as (Hn & Hb & _); [|exact E|].
  { intros k _. vm_compute. discriminate. }
  split; [exact H1|]. split; [exact H2|]. split; [exact E|].
  split; [exact Hn|exact Hb].
Defined.

(** ** Priority queue: [percolateUp] restores heap order *)

Section SiftUp.
Context {V : Type}.
Implicit Types (q : PriorityQueue.t V).

Lemma parent_bounds i :
  1 < i →
  1 ≤ PriorityQueue.parent i < i
  ∧ (i = 2 * PriorityQueue.parent i ∨ i = 2 * PriorityQueue.parent i + 1).
Proof.
  intros Hi. unfold PriorityQueue.parent.
  pose proof (Z.div_mod i 2 ltac:(lia)).
  pose proof (Z.mod_pos_bound i 2 ltac:(lia)). lia.
Qed.

Lemma parent_pos (p : positive) :
  PriorityQueue.parent (Z.pos p~0) = Z.pos p
  ∧ PriorityQueue.parent (Z.pos p~1) = Z.pos p.
Proof.
  unfold PriorityQueue.parent. split.
  - rewrite Pos2Z.inj_xO. symmetry. apply (Z.div_unique _ 2 _ 0); lia.
  - rewrite Pos2Z.inj_xI. symmetry. apply (Z.div_unique _ 2 _ 1); lia.
Qed.

Lemma key_le_trans a b c : key_le a b → key_le b c → key_le a c.
Proof.
  intros (x & y & -> & -> & H1) (y' & z & [= <-] & -> & H2).
  exists x, z. repeat split; lia.
Qed.

(** One run of the loop of [percolateUp]. *)
Lemma sift_up_step p q q' ka kb :
  1 < p → p ≤ PriorityQueue.elementCount q →
  heap_order_except p q →
  key_at (PriorityQueue.parent p) q = Some ka →
  key_at p q = Some kb → kb < ka →
  PriorityQueue.elementCount q' = PriorityQueue.elementCount q →
  key_at (PriorityQueue.parent p) q' = key_at p q →
  key_at p q' = key_at (PriorityQueue.parent p) q →
  (∀ i, i ≠ p → i ≠ PriorityQueue.parent p → key_at i q' = key_at i q) →
  heap_order_except (PriorityQueue.parent p) q'.
Proof.
  intros Hp Hpe [HA HB] Ha Hb Hlt Hec Kpp Kp Ko.
  destruct (parent_bounds p Hp) as [Hpp _].
  set (pp := PriorityQueue.parent p) in *.
  split.
  - intros i Hi Hne. rewrite Hec in Hi.
    destruct (parent_bounds i ltac:(lia)) as [Hpi _].
    destruct (decide (i = p)) as [->|Hip].
    + fold pp. rewrite Kpp, Kp, Ha, Hb. exists kb, ka. repeat split; lia.
    + rewrite (Ko i) by done.
      destruct (decide (PriorityQueue.parent i = p)) as [E|Nep].
      * rewrite E, Kp. by apply HB.
      * destruct (decide (PriorityQueue.parent i = pp)) as [E|Nepp].
        -- rewrite E, Kpp, Hb.
           destruct (HA i Hi Hip) as (x & y & Hx & Hy & Hxy).
           rewrite E, Ha in Hx. injection Hx as <-.
           exists kb, y. repeat split; [done|lia].
        -- rewrite (Ko (PriorityQueue.parent i)) by done. by apply HA.
  - intros i Hi Hpar Hpp1. rewrite Hec in Hi.
    destruct (parent_bounds pp Hpp1) as [Hppp _].
    destruct (parent_bounds i ltac:(lia)) as [Hpi _].
    rewrite (Ko (PriorityQueue.parent pp)) by lia.
    assert (Hgp : key_le (key_at (PriorityQueue.parent pp) q) (key_at pp q))
      by (apply HA; lia).
    destruct (decide (i = p)) as [->|Hip].
    + by rewrite Kp.
    + rewrite (Ko i) by lia. eapply key_le_trans; [exact Hgp|].
      rewrite <- Hpar. by apply HA.
Qed.

Lemma percolateUp_from_order (p : positive) :
  ∀ q r, Z.pos p ≤ PriorityQueue.elementCount q →
    heap_order_except (Z.pos p) q →
    PriorityQueue.percolateUp_from p q = Some r →
    heap_order r.1.
Proof.
  assert (Hstep : ∀ (P : Z) (p' : positive),
    1 < P → PriorityQueue.parent P = Z.pos p' →
    (∀ q r, Z.pos p' ≤ PriorityQueue.elementCount q →
       heap_order_except (Z.pos p') q →
       PriorityQueue.percolateUp_from p' q = Some r → heap_order r.1) →
    ∀ q r, P ≤ PriorityQueue.elementCount q →
      heap_order_except P q →
      (a ← rd (PriorityQueue.heap q) (PriorityQueue.parent P);
       ka ← key a;
       b ← rd (PriorityQueue.heap q) P;
       kb ← key b;
       if kb <? ka then
         a' ← PriorityQueue.swap (PriorityQueue.parent P) P
                (PriorityQueue.heap q);
         q' ← PriorityQueue.reindex P (PriorityQueue.set_heap a' q);
         PriorityQueue.percolateUp_from p' q'
       else Some (q, P)) = Some r →
      heap_order r.1).
  { intros P p' HP Hpar IH q r Hle Hex.
    destruct (parent_bounds P HP) as [Hpb _].
    destruct (rd _ (PriorityQueue.parent P)) as [a|] eqn:Ra; [simpl|done].
    destruct (key a) as [ka|] eqn:Ka; [simpl|done].
    destruct (rd _ P) as [b|] eqn:Rb; [simpl|done].
    destruct (key b) as [kb|] eqn:Kb; [simpl|done].
    assert (Hka : key_at (PriorityQueue.parent P) q = Some ka)
      by (unfold key_at; by rewrite Ra).
    assert (Hkb : key_at P q = Some kb) by (unfold key_at; by rewrite Rb).
    destruct (kb <? ka) eqn:Hlt.
    - destruct (PriorityQueue.swap _ _ _) as [a'|] eqn:Hs; [simpl|done].
      destruct (PriorityQueue.reindex _ _) as [q'|] eqn:Hr; [simpl|done].
      apply reindex_heap in Hr as (Hh & He & _). simpl in Hh, He.
      apply swap_rd in Hs as (R1 & R2 & R3); [|lia].
      apply IH; [lia|]. rewrite <- Hpar.
      apply (sift_up_step P q q' ka kb); try done; try lia.
      + unfold key_at. by rewrite Hh, R1.
      + unfold key_at. by rewrite Hh, R2.
      + intros i H1 H2. unfold key_at. rewrite Hh, R3; done.
    - intros [= <-]. simpl. intros i Hi.
      destruct (decide (i = P)) as [->|Hne].
      + exists ka, kb. repeat split; [done|done|lia].
      + destruct Hex as [HA _]. by apply HA. }
  induction p as [p IH|p IH|]; intros q r Hle Hex.
  - destruct (parent_pos p) as [_ Hp]. simpl.
    apply (Hstep (Z.pos p~1) p); try done; lia.
  - destruct (parent_pos p) as [Hp _]. simpl.
    apply (Hstep (Z.pos p~0) p); try done; lia.
  - simpl. intros [= <-]. simpl. intros i Hi.
    destruct Hex as [HA _]. apply HA; lia.
Qed.

Lemma percolateUp_order index q r :
  1 ≤ index ≤ PriorityQueue.elementCount q →
  heap_order_except index q →
  PriorityQueue.percolateUp index q = Some r →
  heap_order r.1.
Proof.
  intros Hi Hex. destruct index as [|p|p]; try lia. simpl.
  apply percolateUp_from_order; [lia|done].
Qed.

Lemma heap_order_data q q' :
  PriorityQueue.heap q' = PriorityQueue.heap q →
  PriorityQueue.elementCount q' = PriorityQueue.elementCount q →
  heap_order q → heap_order q'.
Proof.
  intros Hh He Ho i Hi. unfold key_at. rewrite Hh. apply Ho. by rewrite <- He.
Qed.
End SiftUp.

(** [insert] keeps the heap ordered: if no occupied slot has a key below
    its parent's key, the same holds after a successful [insert]. *)
Theorem insert_keeps_heap_order {V : Type} (q q' : PriorityQueue.t V)
    (k : Z) (v : V) :
  0 ≤ PriorityQueue.numElements q →
  PriorityQueue.maxSize q < 2 ^ 32 →
  heap_order q →
  PriorityQueue.insert k v q = Some (true, q') →
  heap_order q'.
Proof.
  unfold PriorityQueue.numElements, PriorityQueue.maxSize.
  intros Hn Hs Ho. unfold PriorityQueue.insert, PriorityQueue.maxSize.
  destruct (PriorityQueue.size q <=? PriorityQueue.elementCount q) eqn:E;
    [done|].
  destruct (PriorityQueue.present k q) as [[]|]; simpl; try done.
  rewrite wrap_small by lia.
  set (n := PriorityQueue.elementCount q + 1).
  destruct (rd _ n) as [c|]; [simpl|done].
  destruct (wr _ n _) as [a|] eqn:Hw; [simpl|done].
  destruct (PriorityQueue.percolateUp n _) as [r|] eqn:Hp; [simpl|done].
  destruct (HashTable.insert _ _ _) as [d|]; [simpl|done].
  intros [= <-]. apply (heap_order_data r.1); [done|done|].
  refine (percolateUp_order n _ r _ _ Hp); [simpl; lia|].
  split; simpl.
  - intros i Hi Hne.
    destruct (parent_bounds i ltac:(lia)) as [Hpi _].
    unfold key_at. simpl. rewrite !(rd_wr _ _ _ _ _ Hw).
    destruct (PriorityQueue.parent i =? n) eqn:E1; [lia|].
    destruct (i =? n) eqn:E2; [lia|]. apply Ho. lia.
  - intros i Hi Hpar Hn1.
    destruct (parent_bounds i ltac:(lia)) as [_ Hpi]. lia.
Qed.

Lemma insert_keeps_heap_order_witness :
  ∃ q' : PriorityQueue.t Z,
    0 ≤ PriorityQueue.numElements example_queue
    ∧ PriorityQueue.maxSize example_queue < 2 ^ 32
    ∧ heap_order example_queue
    ∧ PriorityQueue.insert 5 50 example_queue = Some (true, q')
    ∧ live_keys q' = [Some 5; Some 10; Some 15; Some 20]
    ∧ heap_order q'.
Proof.
  assert (H1 : 0 ≤ PriorityQueue.numElements example_queue)
    by (vm_compute; discriminate).
  assert (H2 : PriorityQueue.maxSize example_queue < 2 ^ 32) by reflexivity.
  assert (H3 : heap_order example_queue).
  { intros i Hi. change (1 < i ≤ 3) in Hi.
    assert (i = 2 ∨ i = 3) as [-> | ->] by lia;
      (eexists; eexists; split; [vm_compute; reflexivity|];
       split; [vm_compute; reflexivity|lia]). }
  eexists. split; [exact H1|]. split; [exact H2|]. split; [exact H3|].
  split; [vm_compute; reflexivity|]. split; [vm_compute; reflexivity|].
  eapply (insert_keeps_heap_order example_queue _ 5 50 H1 H2 H3).
  vm_compute; reflexivity.
Defined.

(** [decreaseKey] keeps the heap ordered, provided the hash index leads to
    the slot that holds the key and the key does not underflow
    ([change <= key]). *)
Theorem decreaseKey_keeps_heap_order {V : Type} (q q' : PriorityQueue.t V)
    (k change index : Z) :
  heap_order q →
  PriorityQueue.slot_of k q = Some index →
  1 ≤ index ≤ PriorityQueue.numElements q →
  key_at index q = Some k →
  0 ≤ change ≤ k → k < 2 ^ 32 →
  PriorityQueue.decreaseKey k change q = Some (true, q') →
  heap_order q'.
Proof.
  unfold PriorityQueue.numElements.
  intros Ho Hslot Hi Hk Hc Hk32. unfold PriorityQueue.decreaseKey.
  destruct (PriorityQueue.change_rejected _ _ _ _) as [[]|]; simpl;
    try done.
  rewrite Hslot. simpl.
  destruct (HashTable.remove _ _) as [d|]; [simpl|done].
  unfold key_at in Hk.
  destruct (rd _ index) as [c|] eqn:Rc; [simpl in Hk |- *|done].
  rewrite Hk. simpl. rewrite wrap_small by lia.
  unfold PriorityQueue.set_key. simpl. rewrite Rc. simpl.
  destruct (wr _ index _) as [a|] eqn:Hw; [simpl|done].
  destruct (PriorityQueue.percolateUp index _) as [r|] eqn:Hp; [simpl|done].
  destruct (PriorityQueue.record _ _) as [q2|] eqn:Hr; [simpl|done].
  intros [= <-].
  apply record_frame in Hr as [(He & _ & _) Hh].
  apply (heap_order_data r.1); [done|done|].
  refine (percolateUp_order index _ r _ _ Hp); [simpl; lia|].
  assert (Hkey : ∀ i, key_at i
            (PriorityQueue.set_heap a (PriorityQueue.set_data d.2 q))
          = if i =? index then Some (k - change) else key_at i q).
  { intros i. unfold key_at. simpl. rewrite (rd_wr _ _ _ _ _ Hw).
    by destruct (i =? index). }
  assert (Hkq : key_at index q = Some k)
    by (unfold key_at; by rewrite Rc).
  split; simpl.
  - intros i Hi' Hne. rewrite !Hkey.
    destruct (i =? index) eqn:E2; [lia|].
    destruct (PriorityQueue.parent i =? index) eqn:E1; [|by apply Ho].
    destruct (Ho i Hi') as (x & y & Hx & Hy & Hxy).
    assert (PriorityQueue.parent i = index) as Epar by lia.
    rewrite Epar, Hkq in Hx. injection Hx as <-.
    exists (k - change), y. repeat split; [done|lia].
  - intros i Hi' Hpar H1.
    destruct (parent_bounds i ltac:(lia)) as [Hpi _].
    destruct (parent_bounds index H1) as [Hpx _].
    rewrite !Hkey.
    destruct (PriorityQueue.parent index =? index) eqn:E1; [lia|].
    destruct (i =? index) eqn:E2; [lia|].
    eapply key_le_trans; [apply Ho; lia|]. rewrite <- Hpar. by apply Ho.
Qed.

Lemma decreaseKey_keeps_heap_order_witness :
  ∃ q' : PriorityQueue.t Z,
    heap_order example_queue
    ∧ PriorityQueue.slot_of 15 example_queue = Some 3
    ∧ 1 ≤ 3 ≤ PriorityQueue.numElements example_queue
    ∧ key_at 3 example_queue = Some 15
    ∧ 0 ≤ 12 ≤ 15 ∧ 15 < 2 ^ 32
    ∧ PriorityQueue.decreaseKey 15 12 example_queue = Some (true, q')
    ∧ live_keys q' = [Some 3; Some 20; Some 10]
    ∧ heap_order q'.
Proof.
  assert (H3 : heap_order example_queue).
  { intros i Hi. change (1 < i ≤ 3) in Hi.
    assert (i = 2 ∨ i = 3) as [-> | ->] by lia;
      (eexists; eexists; split; [vm_compute; reflexivity|];
       split; [vm_compute; reflexivity|lia]). }
  eexists. split; [exact H3|].
  split; [vm_compute; reflexivity|].
  split; [vm_compute; split; discriminate|].
  split; [vm_compute; reflexivity|].
  split; [lia|]. split; [lia|].
  split; [vm_compute; reflexivity|]. split; [vm_compute; reflexivity|].
  eapply (decreaseKey_keeps_heap_order example_queue _ 15 12 3 H3);
    [vm_compute; reflexivity|vm_compute; split; discriminate
    |vm_compute; reflexivity|lia|lia|vm_compute; reflexivity].
Defined.

(** ** Priority queue: the loop of [percolateDown] stops *)

Section TableUpdate.
Context {V : Type}.
Implicit Types (h : HashTable.t V) (c : Pair V).

Lemma wr_in_range {A : Type} (a : list A) (j : Z) (x : A) :
  0 ≤ j < Z.of_nat (length a) → ∃ a', wr a j x = Some a'.
Proof.
  intros Hj. unfold wr.
  destruct (0 <=? j) eqn:H0; [|lia]. destruct (j <? _) eqn:H1; [|lia].
  by eexists.
Qed.

Lemma forallb_rd {A : Type} (f : A → bool) (a : list A) :
  forallb f a = true ↔ ∀ j x, rd a j = Some x → f x = true.
Proof.
  rewrite forallb_forall. split.
  - intros H j x Hx. apply H. unfold rd in Hx.
    destruct (j <? 0); [done|].
    apply list_elem_of_In. by apply list_elem_of_lookup_2 in Hx.
  - intros H x Hx. apply list_elem_of_In in Hx.
    apply list_elem_of_lookup_1 in Hx as [i Hi].
    apply (H (Z.of_nat i)). unfold rd.
    destruct (Z.of_nat i <? 0) eqn:E; [apply Z.ltb_lt in E; lia|].
    by rewrite Nat2Z.id.
Qed.

Lemma table_ok_rd h j :
  table_ok h → 0 ≤ j < HashTable.tableSize h →
  ∃ c, rd (HashTable.table h) j = Some c ∧ determinate c = true.
Proof.
  intros (Hs & Hl & Hd) Hj.
  destruct (rd_in_range (HashTable.table h) j) as [c Hc]; [lia|].
  exists c. split; [done|]. by apply (proj1 (forallb_rd _ _) Hd j).
Qed.

Lemma determinate_matches k c :
  determinate c = true → ∃ b, HashTable.matches k c = Some b.
Proof.
  unfold determinate, HashTable.matches.
  destruct (isEmpty c); [by eexists|]. simpl.
  destruct (key c); [by eexists|done].
Qed.

Lemma set_value_ok v j h c :
  table_ok h → rd (HashTable.table h) j = Some c →
  ∃ h', HashTable.set_value v j h = Some h' ∧ table_ok h'.
Proof.
  intros (Hs & Hl & Hd) Hc. unfold HashTable.set_value. rewrite Hc.
  cbn [mbind option_bind].
  destruct (wr_in_range (HashTable.table h) j
              (mkPair (key c) (Some v) (isEmpty c))) as [tb Htb];
    [by apply rd_Some in Hc|].
  rewrite Htb. cbn [mbind option_bind]. eexists. split; [done|].
  unfold table_ok, HashTable.set_table, HashTable.tableSize in *.
  cbn [HashTable.size HashTable.table].
  split; [done|]. split; [by rewrite (wr_length _ _ _ _ Htb)|].
  apply forallb_rd. intros i x. rewrite (rd_wr _ _ i _ _ Htb).
  destruct (i =? j).
  - intros [= <-]. pose proof (proj1 (forallb_rd _ _) Hd j c Hc) as Hdc.
    unfold determinate in *. cbn [isEmpty key value].
    destruct (isEmpty c); [done|]. simpl in *. by destruct (key c).
  - apply (proj1 (forallb_rd _ _) Hd).
Qed.

Lemma update_probe_total (n : nat) :
  ∀ i index k v h,
    table_ok h →
    ∃ r, HashTable.update_probe n i index k v h = Some r ∧ table_ok r.2.
Proof.
  induction n as [|n IH]; intros i index k v h Hok; [by eexists|].
  cbn [HashTable.update_probe].
  destruct (probe_defined index i (HashTable.tableSize h)) as [j Hj];
    [destruct Hok as (? & _); lia|].
  rewrite Hj. cbn [mbind option_bind].
  apply probe_range in Hj; [|by destruct Hok].
  destruct (table_ok_rd h j Hok Hj) as (c & Hc & Hdc).
  rewrite Hc. cbn [mbind option_bind].
  destruct (determinate_matches k c Hdc) as [b ->]. cbn [mbind option_bind].
  destruct b; [|by apply IH].
  destruct (set_value_ok v j h c Hok Hc) as (h' & -> & Hok').
  cbn [mbind option_bind]. by eexists.
Qed.

Lemma update_total k v h :
  table_ok h → ∃ r, HashTable.update k v h = Some r ∧ table_ok r.2.
Proof.
  intros Hok. unfold HashTable.update, umod.
  destruct (HashTable.tableSize h =? 0) eqn:E0;
    [destruct Hok as (? & _); lia|].
  cbn [mbind option_bind].
  assert (Hj : 0 ≤ k mod HashTable.tableSize h < HashTable.tableSize h)
    by (apply Z.mod_pos_bound; destruct Hok as (? & _); lia).
  destruct (table_ok_rd h _ Hok Hj) as (c & Hc & Hdc).
  rewrite Hc. cbn [mbind option_bind].
  destruct (determinate_matches k c Hdc) as [b ->]. cbn [mbind option_bind].
  destruct b; [|by apply update_probe_total].
  destruct (set_value_ok v _ h c Hok Hc) as (h' & -> & Hok').
  cbn [mbind option_bind]. by eexists.
Qed.
End TableUpdate.

Section SiftDownRuns.
Context {V : Type}.
Implicit Types (q : PriorityQueue.t V) (a : list (Pair V)).

Lemma swap_total i j a :
  0 ≤ i < Z.of_nat (length a) → 0 ≤ j < Z.of_nat (length a) →
  ∃ a', PriorityQueue.swap i j a = Some a'.
Proof.
  intros Hi Hj. unfold PriorityQueue.swap.
  destruct (rd_in_range a i Hi) as [x ->].
  destruct (rd_in_range a j Hj) as [y ->]. cbn [mbind option_bind].
  destruct (wr_in_range a i y Hi) as [a1 H1]. rewrite H1.
  cbn [mbind option_bind]. apply wr_in_range.
  by rewrite (wr_length _ _ _ _ H1).
Qed.

Lemma slots_key n q i :
  slots_ok n q → 1 ≤ i ≤ n →
  ∃ c k, rd (PriorityQueue.heap q) i = Some c ∧ key c = Some k.
Proof.
  intros (_ & _ & Hk & _) Hi. destruct (Hk i Hi) as [k Hki].
  unfold key_at in Hki.
  destruct (rd _ i) as [c|]; [|done]. by exists c, k.
Qed.

Lemma reindex_total n q index :
  slots_ok n q → 1 ≤ index ≤ n →
  ∃ q', PriorityQueue.reindex index q = Some q'
        ∧ PriorityQueue.heap q' = PriorityQueue.heap q
        ∧ PriorityQueue.elementCount q' = PriorityQueue.elementCount q
        ∧ table_ok (PriorityQueue.data q').
Proof.
  intros Hok Hi. destruct (slots_key n q index Hok Hi) as (c & k & Hc & Hk).
  unfold PriorityQueue.reindex. rewrite Hc. cbn [mbind option_bind].
  rewrite Hk. cbn [mbind option_bind].
  destruct Hok as (_ & _ & _ & Ht).
  destruct (update_total k index _ Ht) as (r & -> & Hr).
  cbn [mbind option_bind]. by eexists.
Qed.

(** One run of the body at a slot whose two children are among the
    slots [1 .. n]. *)
Lemma percolateDown_body_total n q index :
  slots_ok n q → 1 ≤ index → 2 * index + 1 ≤ n →
  ∃ r, PriorityQueue.percolateDown_body index q = Some r
       ∧ 2 * index ≤ r.2 ≤ 2 * index + 1
       ∧ slots_ok n r.1.
Proof.
  intros Hok Hi Hn.
  assert (Hn30 : n < 2 ^ 30) by (destruct Hok as ([_ ?] & _); done).
  assert (H230 : 2 ^ 30 = 1073741824) by reflexivity.
  assert (H231 : 2 ^ 31 = 2147483648) by reflexivity.
  assert (Hi31 : 1 ≤ index < 2 ^ 31) by lia.
  unfold PriorityQueue.percolateDown_body, PriorityQueue.smallest_child.
  destruct (children_small index Hi31) as [-> ->].
  destruct (slots_key n q (2 * index) Hok ltac:(lia)) as (l & kl & Hl & Hkl).
  destruct (slots_key n q (2 * index + 1) Hok ltac:(lia))
    as (x & kr & Hx & Hkr).
  rewrite Hl. cbn [mbind option_bind]. rewrite Hkl. cbn [mbind option_bind].
  rewrite Hx. cbn [mbind option_bind]. rewrite Hkr. cbn [mbind option_bind].
  set (s := if kr <? kl then 2 * index + 1 else 2 * index).
  assert (Hs : 2 * index ≤ s ≤ 2 * index + 1)
    by (unfold s; destruct (kr <? kl); lia).
  destruct (s =? index) eqn:E; [lia|].
  pose proof Hok as (Hec & Hlen & Hkeys & Ht).
  destruct (swap_total index s (PriorityQueue.heap q)) as [a Ha]; [lia|lia|].
  rewrite Ha. cbn [mbind option_bind].
  assert (Hok1 : slots_ok n (PriorityQueue.set_heap a q)).
  { unfold slots_ok, PriorityQueue.set_heap.
    cbn [PriorityQueue.elementCount PriorityQueue.heap PriorityQueue.data].
    split; [done|]. split; [by rewrite (swap_length _ _ _ _ Ha)|].
    split; [|done]. intros i Hi'. unfold key_at. cbn [PriorityQueue.heap].
    destruct (swap_rd _ _ _ _ Ha ltac:(lia)) as (Ri & Rs & Ro).
    destruct (decide (i = index)) as [->|Hne1].
    { rewrite Ri. apply (Hkeys s). lia. }
    destruct (decide (i = s)) as [->|Hne2].
    { rewrite Rs. apply (Hkeys index). lia. }
    rewrite Ro by done. by apply (Hkeys i). }
  destruct (reindex_total n _ index Hok1 ltac:(lia))
    as (q' & -> & Hh & He & Ht').
  cbn [mbind option_bind]. eexists. split; [done|]. cbn [fst snd].
  split; [done|].
  destruct Hok1 as (Hec1 & Hlen1 & Hkeys1 & _).
  unfold slots_ok. rewrite He, Hh. split; [done|]. split; [done|].
  split; [|done]. intros i Hi'. specialize (Hkeys1 i Hi').
  unfold key_at in *. by rewrite Hh.
Qed.

(** The loop condition can be evaluated, and when it holds the two
    children are among the slots [1 .. n]. *)
Lemma percolateDown_cond_total n q index (baseCase : bool) :
  slots_ok n q → 1 ≤ index ≤ n →
  (baseCase = true → 2 * index + 1 ≤ n) →
  ∃ b, PriorityQueue.percolateDown_cond index baseCase q = Some b
       ∧ (b = true →
          2 * index + 1 ≤ n
          ∧ (baseCase = false → 2 * index < PriorityQueue.elementCount q)).
Proof.
  intros Hok Hi Hbase.
  assert (Hn30 : n < 2 ^ 30) by (destruct Hok as ([_ ?] & _); done).
  assert (Hec : PriorityQueue.elementCount q ≤ n)
    by (destruct Hok as ([? _] & _); done).
  assert (H230 : 2 ^ 30 = 1073741824) by reflexivity.
  assert (H231 : 2 ^ 31 = 2147483648) by reflexivity.
  assert (Hi31 : 1 ≤ index < 2 ^ 31) by lia.
  unfold PriorityQueue.percolateDown_cond.
  destruct (children_small index Hi31) as [-> ->].
  destruct (_ || _ || _) eqn:E; [|by eexists].
  assert (Hch : 2 * index + 1 ≤ n
                ∧ (baseCase = false
                   → 2 * index < PriorityQueue.elementCount q)).
  { destruct baseCase.
    - split; [by apply Hbase|done].
    - rewrite orb_false_r in E. apply orb_prop in E as [E|E];
        apply Z.ltb_lt in E; split; (lia || (intros _; lia)). }
  destruct Hch as [Hch1 Hch2].
  destruct (slots_key n q index Hok Hi) as (c & kc & Hc & Hkc).
  destruct (slots_key n q (2 * index) Hok ltac:(lia)) as (l & kl & Hl & Hkl).
  destruct (slots_key n q (2 * index + 1) Hok ltac:(lia))
    as (x & kr & Hx & Hkr).
  rewrite Hc. cbn [mbind option_bind]. rewrite Hkc. cbn [mbind option_bind].
  rewrite Hl. cbn [mbind option_bind]. rewrite Hkl. cbn [mbind option_bind].
  destruct (kl <? kc); [by eexists|].
  rewrite Hx. cbn [mbind option_bind]. rewrite Hkr. cbn [mbind option_bind].
  by eexists.
Qed.

(** Without the base case the loop ends within [fuel + 1] evaluations
    of its condition, once [elementCount <= index * 2^fuel]. *)
Lemma percolateDown_loop_total n (fuel : nat) :
  ∀ index q,
    slots_ok n q → 1 ≤ index ≤ n →
    PriorityQueue.elementCount q ≤ index * 2 ^ Z.of_nat fuel →
    ∃ r, PriorityQueue.percolateDown_loop (S fuel) index false q = Some r
         ∧ index ≤ r.2 ≤ n ∧ slots_ok n r.1.
Proof.
  induction fuel as [|fuel IH]; intros index q Hok Hi Hle.
  - change (2 ^ Z.of_nat 0) with 1 in Hle.
    cbn [PriorityQueue.percolateDown_loop].
    destruct (percolateDown_cond_total n q index false Hok Hi ltac:(done))
      as (b & -> & Hb).
    cbn [mbind option_bind]. destruct b.
    + destruct (Hb eq_refl) as [_ Hlt]. specialize (Hlt eq_refl). lia.
    + eexists. split; [done|]. cbn [fst snd]. split; [lia|done].
  - remember (S fuel) as f eqn:Hf.
    cbn [PriorityQueue.percolateDown_loop]. subst f.
    destruct (percolateDown_cond_total n q index false Hok Hi ltac:(done))
      as (b & -> & Hb).
    cbn [mbind option_bind]. destruct b.
    + destruct (Hb eq_refl) as [Hch Hlt].
      destruct (percolateDown_body_total n q index Hok ltac:(lia) Hch)
        as (r1 & Hr1 & Hidx & Hok1).
      rewrite Hr1. cbn [mbind option_bind].
      apply percolateDown_body_frame in Hr1 as (Hec & _ & _).
      destruct (IH r1.2 r1.1 Hok1 ltac:(lia)) as (r & Hr & Hri & Hokr).
      * rewrite Hec. rewrite Nat2Z.inj_succ, Z.pow_succ_r in Hle by lia.
        assert (0 < 2 ^ Z.of_nat fuel) by (apply Z.pow_pos_nonneg; lia).
        nia.
      * exists r. split; [done|]. split; [lia|done].
    + eexists. split; [done|]. cbn [fst snd]. split; [lia|done].
Qed.

(** The first run may be the base case; the runs after it are not. *)
Lemma percolateDown_loop_first n (m : nat) index (baseCase : bool) q :
  slots_ok n q → 1 ≤ index ≤ n →
  (baseCase = true → 2 * index + 1 ≤ n) →
  PriorityQueue.elementCount q ≤ 2 * 2 ^ Z.of_nat m →
  ∃ r, PriorityQueue.percolateDown_loop (S (S m)) index baseCase q = Some r
       ∧ index ≤ r.2 ≤ n ∧ slots_ok n r.1.
Proof.
  intros Hok Hi Hbase Hle.
  remember (S m) as f eqn:Hf.
  cbn [PriorityQueue.percolateDown_loop]. subst f.
  destruct (percolateDown_cond_total n q index baseCase Hok Hi Hbase)
    as (b & -> & Hb).
  cbn [mbind option_bind]. destruct b.
  - destruct (Hb eq_refl) as [Hch _].
    destruct (percolateDown_body_total n q index Hok ltac:(lia) Hch)
      as (r1 & Hr1 & Hidx & Hok1).
    rewrite Hr1. cbn [mbind option_bind].
    apply percolateDown_body_frame in Hr1 as (Hec & _ & _).
    destruct (percolateDown_loop_total n m r1.2 r1.1 Hok1 ltac:(lia))
      as (r & Hr & Hri & Hokr).
    + rewrite Hec.
      assert (0 < 2 ^ Z.of_nat m) by (apply Z.pow_pos_nonneg; lia). nia.
    + exists r. split; [done|]. split; [lia|done].
  - eexists. split; [done|]. cbn [fst snd]. split; [lia|done].
Qed.
End SiftDownRuns.

(** [percolateDown] returns: its loop ends within the 64 runs of the
    model.  The slots [1 .. n] of the heap array exist and hold
    determinate keys, they include the occupied slots, the start index and
    (when [elementCount <= 2] forces a first run) the two children of the
    start index, and the hash index is in order.  Then the call produces a
    result: an index between the start index and [n], and a queue in which
    the same holds.  After the first run the loop goes on only while a
    child index is below [elementCount], and the index at least doubles
    with every run. *)
Theorem percolateDown_terminates {V : Type} (q : PriorityQueue.t V)
    (index n : Z) :
  slots_ok n q →
  1 ≤ index ≤ n →
  (PriorityQueue.elementCount q ≤ 2 → 2 * index + 1 ≤ n) →
  ∃ q' index',
    PriorityQueue.percolateDown index q = Some (q', index')
    ∧ index ≤ index' ≤ n
    ∧ PriorityQueue.numElements q' = PriorityQueue.numElements q
    ∧ slots_ok n q'.
Proof.
  intros Hok Hi Hbase. unfold PriorityQueue.percolateDown.
  assert (H230 : 2 ^ 30 = 1073741824) by reflexivity.
  destruct (percolateDown_loop_first n 62 index
              (PriorityQueue.elementCount q <=? 2) q Hok Hi)
    as ([q' index'] & Hr & Hri & Hokr).
  - intros E%Z.leb_le. by apply Hbase.
  - destruct Hok as ([? ?] & _).
    change (2 ^ Z.of_nat 62) with 4611686018427387904. lia.
  - exists q', index'. split; [exact Hr|]. split; [exact Hri|].
    split; [|exact Hokr].
    by apply percolateDown_loop_frame in Hr as (Hec & _ & _).
Qed.

Lemma percolateDown_terminates_witness :
  slots_ok 7 example_sift_queue
  ∧ live_keys example_sift_queue
    = Some <$> [50; 20; 15; 30; 40; 17; 16]
  ∧ PriorityQueue.percolateDown 1 example_sift_queue
    = Some (example_sifted_queue, 7)
  ∧ live_keys example_sifted_queue
    = Some <$> [15; 20; 16; 30; 40; 17; 50]
  ∧ slots_ok 7 example_sifted_queue.
Proof.
  assert (Hok : slots_ok 7 example_sift_queue).
  { split; [vm_compute; split; [discriminate|reflexivity]|].
    split; [reflexivity|]. split.
    - intros i Hi. range_cases i; by eexists.
    - split; [vm_compute; split; reflexivity|].
      split; reflexivity. }
  assert (Er : PriorityQueue.percolateDown 1 example_sift_queue
               = Some (example_sifted_queue, 7))
    by (vm_compute; reflexivity).
  split; [exact Hok|]. split; [reflexivity|]. split; [exact Er|].
  split; [reflexivity|].
  destruct (percolateDown_terminates example_sift_queue 1 7 Hok)
    as (q' & index' & Hr & _ & _ & Hok'); [lia|vm_compute; by intros []|].
  rewrite Er in Hr. injection Hr as <- <-. exact Hok'.
Defined.

(** ** Priority queue: copies and moved-from queues *)

Section QueueCopy.
Context {V : Type}.
Implicit Types (q : PriorityQueue.t V).

(** The copying loop after [length pre] cells. *)
Lemma copy_heap_app (m : nat) (pre todo rest : list (Pair V)) :
  length todo = m →
  Z.of_nat (length pre) + Z.of_nat m ≤ 2 ^ 32 →
  PriorityQueue.copy_heap m (Z.of_nat (length pre)) (pre ++ todo ++ rest)
    (pre ++ replicate m fresh)
  = Some (pre ++ todo).
Proof.
  revert pre todo. induction m as [|m IH]; intros pre todo Hlen Hb.
  - destruct todo; [|done]. simpl. by rewrite !app_nil_r.
  - destruct todo as [|c todo]; [done|]. simpl in Hlen.
    cbn [PriorityQueue.copy_heap replicate]. simpl app.
    rewrite rd_app_middle. simpl. rewrite wr_app_middle. simpl.
    destruct m as [|m'].
    + by destruct todo.
    + rewrite wrap_small by lia.
      replace (Z.of_nat (length pre) + 1)
        with (Z.of_nat (length (pre ++ [c])))
        by (rewrite length_app; simpl; lia).
      replace (pre ++ c :: todo ++ rest) with ((pre ++ [c]) ++ todo ++ rest)
        by (by rewrite <- app_assoc).
      replace (pre ++ c :: replicate (S m') fresh)
        with ((pre ++ [c]) ++ replicate (S m') (@fresh V))
        by (by rewrite <- app_assoc).
      rewrite IH; [by rewrite <- app_assoc|lia|].
      rewrite length_app. simpl. lia.
Qed.

Lemma copy_heap_all (a : list (Pair V)) (n : Z) :
  0 ≤ n < 2 ^ 32 →
  length a = Z.to_nat n →
  PriorityQueue.copy_heap (Z.to_nat n) 0 a (replicate (Z.to_nat n) fresh)
  = Some a.
Proof.
  intros Hn Hlen.
  pose proof (copy_heap_app (Z.to_nat n) [] a [] Hlen) as H.
  cbn [length app] in H. change (Z.of_nat 0) with 0 in H.
  rewrite app_nil_r in H. apply H. lia.
Qed.

Lemma table_copy (h : HashTable.t Z) :
  length (HashTable.table h) = Z.to_nat (HashTable.tableSize h) →
  HashTable.copy h = Some h.
Proof.
  intros Hlen. unfold HashTable.copy, HashTable.tableSize,
    HashTable.numElements in *.
  pose proof (copy_cells_app (Z.to_nat (HashTable.size h)) []
                (HashTable.table h) [] Hlen) as H.
  cbn [length app] in H. change (Z.of_nat 0) with 0 in H.
  rewrite app_nil_r in H. rewrite H. simpl. by destruct h.
Qed.
End QueueCopy.

(** The copy constructor gives a queue equal to its argument in all four
    members.  The copy assignment takes the heap array, the hash index and
    the element count of [rhs] but leaves the member [size] as it was:
    afterwards [maxSize()] is still the old capacity of the assigned
    queue, whereas the heap array has [rhs.maxSize() + 1] cells. *)
Theorem PriorityQueue_copy_spec {V : Type} (this rhs : PriorityQueue.t V) :
  0 ≤ PriorityQueue.maxSize rhs < 2 ^ 32 - 1 →
  length (PriorityQueue.heap rhs) = Z.to_nat (PriorityQueue.maxSize rhs + 1) →
  length (HashTable.table (PriorityQueue.data rhs))
  = Z.to_nat (HashTable.tableSize (PriorityQueue.data rhs)) →
  PriorityQueue.copy rhs = Some rhs
  ∧ ∃ q, PriorityQueue.copy_assign this rhs = Some q
         ∧ PriorityQueue.heap q = PriorityQueue.heap rhs
         ∧ PriorityQueue.data q = PriorityQueue.data rhs
         ∧ PriorityQueue.numElements q = PriorityQueue.numElements rhs
         ∧ PriorityQueue.maxSize q = PriorityQueue.maxSize this.
Proof.
  intros Hs Hlen Hd.
  unfold PriorityQueue.copy, PriorityQueue.copy_assign.
  rewrite (table_copy _ Hd). simpl.
  rewrite wrap_small by lia.
  rewrite (copy_heap_all (PriorityQueue.heap rhs)
             (PriorityQueue.maxSize rhs + 1) ltac:(lia) Hlen). simpl.
  split; [by destruct rhs|]. by eexists.
Qed.

Lemma PriorityQueue_copy_spec_witness :
  ∃ small : PriorityQueue.t Z,
    PriorityQueue.new 2 = Some small
    ∧ PriorityQueue.copy example_queue = Some example_queue
    ∧ ∃ q, PriorityQueue.copy_assign small example_queue = Some q
           ∧ PriorityQueue.heap q = PriorityQueue.heap example_queue
           ∧ PriorityQueue.data q = PriorityQueue.data example_queue
           ∧ PriorityQueue.numElements q = 3
           ∧ PriorityQueue.maxSize q = 2.
Proof.
  assert (E : { small : PriorityQueue.t Z | PriorityQueue.new 2 = Some small })
    by (eexists; vm_compute; reflexivity).
  destruct E as [small E]. exists small. split; [exact E|].
  assert (Hm : PriorityQueue.maxSize small = 2).
  { revert E. vm_compute. by intros [= <-]. }
  destruct (PriorityQueue_copy_spec small example_queue) as (Hc & q & Hq);
    [vm_compute; split; [discriminate|reflexivity]|reflexivity|reflexivity|].
  split; [exact Hc|]. exists q.
  destruct Hq as (Ha & Hh & Hdt & Hn & Hsz).
  rewrite Hm in Hsz. by repeat split.
Defined.

(** After a copy assignment from a full queue of smaller capacity the
    assigned queue still reports its old, larger [maxSize()], so [insert]
    of a new key passes the capacity test and writes to
    [heap[elementCount + 1]], one cell past the heap array that was
    allocated with [rhs.maxSize() + 1] cells: no defined result. *)
Theorem insert_after_copy_assign {V : Type} (this rhs q : PriorityQueue.t V)
    (k : Z) (v : V) :
  0 ≤ PriorityQueue.maxSize rhs < 2 ^ 32 - 1 →
  length (PriorityQueue.heap rhs) = Z.to_nat (PriorityQueue.maxSize rhs + 1) →
  length (HashTable.table (PriorityQueue.data rhs))
  = Z.to_nat (HashTable.tableSize (PriorityQueue.data rhs)) →
  PriorityQueue.numElements rhs = PriorityQueue.maxSize rhs →
  PriorityQueue.maxSize rhs < PriorityQueue.maxSize this →
  PriorityQueue.present k rhs = Some false →
  PriorityQueue.copy_assign this rhs = Some q →
  PriorityQueue.insert k v q = None.
Proof.
  intros Hs Hlen Hd Hfull Hlt Hk.
  unfold PriorityQueue.copy_assign.
  rewrite (table_copy _ Hd). simpl.
  rewrite wrap_small by lia.
  rewrite (copy_heap_all (PriorityQueue.heap rhs)
             (PriorityQueue.maxSize rhs + 1) ltac:(lia) Hlen). simpl.
  intros [= <-]. unfold PriorityQueue.insert, PriorityQueue.present in *.
  unfold PriorityQueue.numElements, PriorityQueue.maxSize in *. simpl.
  destruct (PriorityQueue.size this <=? PriorityQueue.elementCount rhs)
    eqn:E; [apply Z.leb_le in E; lia|].
  rewrite Hk. simpl. rewrite wrap_small by lia.
  assert (rd (PriorityQueue.heap rhs) (PriorityQueue.elementCount rhs + 1)
          = None) as ->; [|done].
  unfold rd.
  destruct (PriorityQueue.elementCount rhs + 1 <? 0); [done|].
  apply lookup_ge_None_2. lia.
Qed.

Lemma insert_after_copy_assign_witness :
  PriorityQueue.new 5 = Some example_empty_queue
  ∧ (q0 ← PriorityQueue.new 2;
     PriorityQueue.run
       [PriorityQueue.Insert 10 100; PriorityQueue.Insert 20 200] q0)
    = Some ([true; true], example_full_queue)
  ∧ ∃ q, PriorityQueue.copy_assign example_empty_queue example_full_queue
         = Some q
         ∧ PriorityQueue.maxSize q = 5
         ∧ PriorityQueue.numElements q = 2
         ∧ length (PriorityQueue.heap q) = 3%nat
         ∧ PriorityQueue.insert 30 300 q = None.
Proof.
  split; [vm_compute; reflexivity|].
  split; [vm_compute; reflexivity|].
  eexists. split; [vm_compute; reflexivity|].
  split; [reflexivity|]. split; [reflexivity|]. split; [reflexivity|].
  apply (insert_after_copy_assign example_empty_queue example_full_queue).
  - vm_compute. split; [discriminate|reflexivity].
  - reflexivity.
  - reflexivity.
  - reflexivity.
  - reflexivity.
  - vm_compute. reflexivity.
  - vm_compute. reflexivity.
Defined.

(** The move constructor and the move assignment hand over the members of
    [rhs] and leave it with a null heap, size 0, no elements and a
    moved-from hash index.  On a queue in that state [insert] and
    [deleteMin] return false and change nothing, a change by 0 is
    rejected and nothing is printed; [get], [remove] and a key change by
    a non-zero amount start with a look-up in the hash index of size 0
    and have no defined behaviour. *)
Theorem PriorityQueue_moved_from {V : Type} (show : V → string)
    (rhs q : PriorityQueue.t V) :
  PriorityQueue.maxSize q = 0 →
  PriorityQueue.numElements q = 0 →
  HashTable.tableSize (PriorityQueue.data q) = 0 →
  (PriorityQueue.move rhs).1 = rhs
  ∧ PriorityQueue.maxSize (PriorityQueue.move rhs).2 = 0
  ∧ PriorityQueue.numElements (PriorityQueue.move rhs).2 = 0
  ∧ HashTable.tableSize (PriorityQueue.data (PriorityQueue.move rhs).2) = 0
  ∧ PriorityQueue.heap (PriorityQueue.move rhs).2 = []
  ∧ (∀ k v, PriorityQueue.insert k v q = Some (false, q))
  ∧ PriorityQueue.deleteMin q = Some (false, q)
  ∧ (∀ k, PriorityQueue.get k q = None)
  ∧ (∀ k, PriorityQueue.remove k q = None)
  ∧ (∀ k change,
       PriorityQueue.decreaseKey k change q
       = (if change =? 0 then Some (false, q) else None)
       ∧ PriorityQueue.increaseKey k change q
         = (if change =? 0 then Some (false, q) else None))
  ∧ PriorityQueue.print show q = Some EmptyString.
Proof.
  unfold PriorityQueue.maxSize, PriorityQueue.numElements.
  intros Hs He Hd.
  assert (Hp : ∀ k, PriorityQueue.present k q = None).
  { intros k. unfold PriorityQueue.present, HashTable.get.
    by rewrite Hd. }
  repeat split.
  - intros k v. unfold PriorityQueue.insert, PriorityQueue.maxSize.
    by rewrite Hs, He.
  - unfold PriorityQueue.deleteMin. by rewrite He.
  - intros k. unfold PriorityQueue.get, HashTable.get. by rewrite Hd.
  - intros k. unfold PriorityQueue.remove. by rewrite Hp.
  - unfold PriorityQueue.decreaseKey, PriorityQueue.change_rejected.
    rewrite !Hp. by destruct (change =? 0).
  - unfold PriorityQueue.increaseKey, PriorityQueue.change_rejected.
    rewrite !Hp. by destruct (change =? 0).
  - unfold PriorityQueue.print, PriorityQueue.numElements. by rewrite He.
Qed.

Lemma PriorityQueue_moved_from_witness :
  PriorityQueue.maxSize (PriorityQueue.move example_queue).2 = 0
  ∧ (PriorityQueue.move example_queue).1 = example_queue
  ∧ PriorityQueue.insert 1 10 (PriorityQueue.move example_queue).2
    = Some (false, (PriorityQueue.move example_queue).2)
  ∧ PriorityQueue.remove 10 (PriorityQueue.move example_queue).2 = None.
Proof.
  destruct (PriorityQueue_moved_from (λ _, EmptyString) example_queue
              (PriorityQueue.move example_queue).2)
    as (H1 & _ & _ & _ & _ & Hi & _ & _ & Hr & _);
    [reflexivity|reflexivity|reflexivity|].
  split; [reflexivity|]. split; [exact H1|]. split; [apply Hi|apply Hr].
Defined.

(** ** Hash table: what [operator==] counts *)

Section HashTableEq.
Context {V : Type} (veq : V → V → bool).
Implicit Types (h : HashTable.t V) (c d : Pair V) (tb : list (Pair V)).

Lemma same_pair_hit c d :
  isEmpty c = false → determinate c = true → determinate d = true →
  HashTable.same_pair veq c d = Some (pair_hit veq c d).
Proof.
  unfold determinate, HashTable.same_pair, pair_hit. intros -> Hc Hd.
  destruct (isEmpty d); [done|]. simpl in *.
  destruct (key c) as [k|]; [|done]. destruct (value c) as [x|]; [|done].
  destruct (key d) as [k'|]; [|done]. destruct (value d) as [y|]; [|done].
  simpl. by destruct (k =? k').
Qed.

Lemma count_inner_app c todo :
  ∀ pre rest counter sz count,
  isEmpty c = false → determinate c = true →
  forallb determinate todo = true →
  HashTable.count_inner veq (length todo) (Z.of_nat (length pre)) c
    (HashTable.mk (pre ++ todo ++ rest) sz count) counter
  = Some (Nat.iter (length (List.filter (pair_hit veq c) todo))
            (λ y, wrap (y + 1)) counter).
Proof.
  induction todo as [|d todo IH]; intros pre rest counter sz count He Hc Hd;
    [done|].
  cbn [forallb] in Hd. apply andb_prop in Hd as [Hd Hds].
  cbn [length HashTable.count_inner HashTable.table app].
  rewrite rd_app_middle. cbn [mbind option_bind].
  rewrite same_pair_hit by done. cbn [mbind option_bind].
  replace (Z.of_nat (length pre) + 1)
    with (Z.of_nat (length (pre ++ [d])))
    by (rewrite length_app; simpl; lia).
  replace (pre ++ d :: todo ++ rest) with ((pre ++ [d]) ++ todo ++ rest)
    by (by rewrite <- app_assoc).
  rewrite IH by done. cbn [List.filter].
  destruct (pair_hit veq c d); [|done].
  cbn [length]. by rewrite Nat.iter_succ_r.
Qed.

Lemma count_outer_app (rhs : HashTable.t V) todo :
  ∀ pre rest counter sz count,
  length (HashTable.table rhs) = Z.to_nat (HashTable.tableSize rhs) →
  forallb determinate (HashTable.table rhs) = true →
  forallb determinate todo = true →
  HashTable.count_outer veq (length todo) (Z.of_nat (length pre))
    (HashTable.mk (pre ++ todo ++ rest) sz count) rhs counter
  = Some (Nat.iter (matching_pairs veq todo (HashTable.table rhs))
            (λ y, wrap (y + 1)) counter).
Proof.
  induction todo as [|c todo IH]; intros pre rest counter sz count Hl Hr Hd;
    [done|].
  cbn [forallb] in Hd. apply andb_prop in Hd as [Hc Hds].
  cbn [length HashTable.count_outer HashTable.table app].
  rewrite rd_app_middle. cbn [mbind option_bind].
  assert (Hnext : ∀ counter',
    HashTable.count_outer veq (length todo) (Z.of_nat (length pre) + 1)
      (HashTable.mk (pre ++ c :: todo ++ rest) sz count) rhs counter'
    = Some (Nat.iter (matching_pairs veq todo (HashTable.table rhs))
              (λ y, wrap (y + 1)) counter')).
  { intros counter'.
    replace (Z.of_nat (length pre) + 1)
      with (Z.of_nat (length (pre ++ [c])))
      by (rewrite length_app; simpl; lia).
    replace (pre ++ c :: todo ++ rest) with ((pre ++ [c]) ++ todo ++ rest)
      by (by rewrite <- app_assoc).
    by rewrite IH. }
  unfold matching_pairs. cbn [sum_list_with].
  destruct (isEmpty c) eqn:He; cbn [mbind option_bind].
  - by rewrite Hnext.
  - rewrite <- Hl.
    pose proof (count_inner_app c (HashTable.table rhs) [] [] counter
                  (HashTable.size rhs) (HashTable.elementCount rhs)
                  He Hc Hr) as H.
    cbn [length app] in H. change (Z.of_nat 0) with 0 in H.
    rewrite app_nil_r in H.
    replace (HashTable.mk (HashTable.table rhs) (HashTable.size rhs)
               (HashTable.elementCount rhs)) with rhs in H
      by (by destruct rhs).
    rewrite H. cbn [mbind option_bind]. rewrite Hnext.
    f_equal. rewrite Nat.add_comm. by rewrite Nat.iter_add.
Qed.

Lemma pair_hit_key c d k :
  pair_hit veq c d = true → key c = Some k →
  isEmpty d = false ∧ key d = Some k.
Proof.
  unfold pair_hit. intros H Hk. rewrite Hk in H.
  destruct (isEmpty d); [done|]. simpl in H.
  destruct (key d) as [k'|]; [|done].
  apply andb_prop in H as [H%Z.eqb_eq _]. by subst.
Qed.

Lemma no_hits c tb k :
  key c = Some k → k ∉ stored_keys tb →
  List.filter (pair_hit veq c) tb = [].
Proof.
  intros Hk. induction tb as [|d tb IH]; [done|].
  intros Hn. cbn [List.filter].
  destruct (pair_hit veq c d) eqn:E.
  - destruct (pair_hit_key _ _ _ E Hk) as [He Hd].
    exfalso. apply Hn. unfold stored_keys. cbn [omap list_omap].
    rewrite He, Hd. apply list_elem_of_here.
  - apply IH. intros Hin. apply Hn. unfold stored_keys.
    cbn [omap list_omap].
    destruct (if isEmpty d then None else key d);
      [by apply list_elem_of_further|done].
Qed.

(** With pairwise distinct keys an occupied bucket of the table is hit
    exactly once in the table itself. *)
Lemma one_hit tb c :
  (∀ x, veq x x = true) →
  NoDup (stored_keys tb) →
  forallb determinate tb = true →
  c ∈ tb → isEmpty c = false →
  length (List.filter (pair_hit veq c) tb) = 1%nat.
Proof.
  intros Hrefl. induction tb as [|d tb IH]; intros Hnd Hdet Hin He.
  - by apply elem_of_nil in Hin.
  - cbn [forallb] in Hdet. apply andb_prop in Hdet as [Hd Hdet].
    assert (Hc : determinate c = true).
    { apply elem_of_cons in Hin as [->|Hin]; [done|].
      rewrite forallb_forall in Hdet. apply Hdet.
      by apply list_elem_of_In. }
    unfold determinate in Hc. rewrite He in Hc. simpl in Hc.
    destruct (key c) as [k|] eqn:Hk; [|done].
    destruct (value c) as [x|] eqn:Hx; [|done].
    assert (Hkin : ∀ tb', c ∈ tb' → k ∈ stored_keys tb').
    { intros tb' H. unfold stored_keys. apply list_elem_of_omap.
      exists c. split; [done|]. by rewrite He. }
    unfold stored_keys in Hnd. cbn [omap list_omap] in Hnd.
    cbn [List.filter].
    destruct (isEmpty d) eqn:Hed.
    + assert (pair_hit veq c d = false) as ->
        by (unfold pair_hit; by rewrite Hed).
      apply IH; [done|done| |done].
      apply elem_of_cons in Hin as [->|Hin]; [congruence|done].
    + unfold determinate in Hd. rewrite Hed in Hd. simpl in Hd.
      destruct (key d) as [k'|] eqn:Hkd; [|done].
      destruct (value d) as [y|] eqn:Hy; [|done].
      apply NoDup_cons in Hnd as [Hnotin Hnd].
      destruct (decide (k = k')) as [<-|Hne].
      * assert (c = d) as <-.
        { apply elem_of_cons in Hin as [->|Hin]; [done|].
          exfalso. apply Hnotin. by apply Hkin. }
        assert (pair_hit veq c c = true) as ->.
        { unfold pair_hit. rewrite He, Hk, Hx, Z.eqb_refl, Hrefl. done. }
        cbn [length]. f_equal.
        by rewrite (no_hits c tb k).
      * assert (pair_hit veq c d = false) as ->.
        { unfold pair_hit. rewrite Hed, Hk, Hkd.
          destruct (k =? k') eqn:E; [apply Z.eqb_eq in E; done|done]. }
        apply IH; [done|done| |done].
        apply elem_of_cons in Hin as [->|Hin]; [congruence|done].
Qed.

Lemma matching_pairs_self tb :
  (∀ x, veq x x = true) →
  NoDup (stored_keys tb) →
  forallb determinate tb = true →
  matching_pairs veq tb tb = length (occupied tb).
Proof.
  intros Hrefl Hnd Hdet.
  assert (H : ∀ part, part ⊆ tb →
    matching_pairs veq part tb
    = length (List.filter (λ c, negb (isEmpty c)) part)).
  { induction part as [|c part IH]; intros Hsub; [done|].
    unfold matching_pairs. cbn [sum_list_with List.filter].
    assert (Hin : c ∈ tb) by (apply Hsub, list_elem_of_here).
    assert (Hrest : part ⊆ tb)
      by (intros x Hx; apply Hsub; by apply list_elem_of_further).
    fold (matching_pairs veq part tb). rewrite IH by done.
    destruct (isEmpty c) eqn:He; [done|].
    simpl. by rewrite one_hit. }
  rewrite H by done. unfold occupied.
  clear. induction tb as [|c tb IH] using rev_ind; [done|].
  rewrite List.filter_app, !length_app. cbn [length List.filter].
  rewrite Nat.add_1_r, seq_S, List.filter_app, length_app.
  cbn [List.filter Nat.add].
  assert (occupied_at (tb ++ [c]) (length tb) = negb (isEmpty c)) as ->.
  { unfold occupied_at. by rewrite list_lookup_middle. }
  f_equal; [|by destruct (isEmpty c)].
  rewrite IH. f_equal. apply List.filter_ext_in.
  intros j Hj%List.in_seq. unfold occupied_at.
  by rewrite lookup_app_l by lia.
Qed.
End HashTableEq.

(** A table compared with itself.  When the array has [tableSize] buckets
    (fewer than [2^32]), the occupied buckets hold determinate keys and
    values, [==] of the values is reflexive and no key is stored twice,
    the counter of [operator==] ends as the number of occupied buckets:
    the table equals itself exactly when its element count is that
    number, and [operator!=] gives the opposite answer. *)
Theorem eq_self {V : Type} (veq : V → V → bool) (h : HashTable.t V) :
  length (HashTable.table h) = Z.to_nat (HashTable.tableSize h) →
  HashTable.tableSize h < 2 ^ 32 →
  forallb determinate (HashTable.table h) = true →
  (∀ x, veq x x = true) →
  NoDup (stored_keys (HashTable.table h)) →
  HashTable.eq veq h h
  = Some (Z.of_nat (length (occupied (HashTable.table h)))
          =? HashTable.numElements h)
  ∧ HashTable.ne veq h h
    = Some (negb (Z.of_nat (length (occupied (HashTable.table h)))
                  =? HashTable.numElements h)).
Proof.
  intros Hlen Hsz Hdet Hrefl Hnd.
  assert (Hocc : (length (occupied (HashTable.table h))
                  ≤ length (HashTable.table h))%nat).
  { unfold occupied.
    etransitivity; [apply List.filter_length_le|]. by rewrite length_seq. }
  assert (Hc : HashTable.count_outer veq (Z.to_nat (HashTable.tableSize h)) 0
                 h h 0
               = Some (Z.of_nat (length (occupied (HashTable.table h))))).
  { rewrite <- Hlen.
    pose proof (count_outer_app veq h (HashTable.table h) [] [] 0
                  (HashTable.size h) (HashTable.elementCount h)
                  Hlen Hdet Hdet) as H.
    cbn [length app] in H. change (Z.of_nat 0) with 0 in H.
    rewrite app_nil_r in H.
    replace (HashTable.mk (HashTable.table h) (HashTable.size h)
               (HashTable.elementCount h)) with h in H by (by destruct h).
    rewrite H, matching_pairs_self by done. f_equal.
    rewrite iter_wrap_add.
    destruct (decide (length (occupied (HashTable.table h)) = 0%nat))
      as [->|_]; [done|].
    unfold HashTable.tableSize in *. rewrite Z.add_0_l, wrap_small; lia. }
  unfold HashTable.eq, HashTable.ne. rewrite Z.eqb_refl. simpl.
  rewrite Hc. done.
Qed.

Lemma eq_self_witness :
  length (HashTable.table example_table)
  = Z.to_nat (HashTable.tableSize example_table)
  ∧ HashTable.tableSize example_table < 2 ^ 32
  ∧ forallb determinate (HashTable.table example_table) = true
  ∧ NoDup (stored_keys (HashTable.table example_table))
  ∧ HashTable.eq Z.eqb example_table example_table = Some true
  ∧ HashTable.ne Z.eqb example_table example_table = Some false.
Proof.
  assert (Hnd : NoDup (stored_keys (HashTable.table example_table))).
  { change (stored_keys (HashTable.table example_table)) with [2; 9].
    apply NoDup_cons. split; [|apply NoDup_singleton].
    intros H%list_elem_of_singleton. discriminate. }
  split; [reflexivity|]. split; [reflexivity|]. split; [reflexivity|].
  split; [exact Hnd|].
  destruct (eq_self Z.eqb example_table) as [He Hn];
    [reflexivity|reflexivity|reflexivity|apply Z.eqb_refl|exact Hnd|].
  split; [exact He|exact Hn].
Defined.

(** ** Hash table: [operator+] with nothing to add *)

Section HashTablePlus.
Context {V : Type}.
Implicit Types (h : HashTable.t V).

Lemma plus_loop_empty (todo : list (Pair V)) :
  ∀ pre rest sz count newTable,
  forallb isEmpty todo = true →
  HashTable.plus_loop (length todo) (Z.of_nat (length pre))
    (HashTable.mk (pre ++ todo ++ rest) sz count) newTable
  = Some newTable.
Proof.
  induction todo as [|c todo IH]; intros pre rest sz count newTable He;
    [done|].
  cbn [forallb] in He. apply andb_prop in He as [Hc He].
  cbn [length HashTable.plus_loop HashTable.table app].
  rewrite rd_app_middle. cbn [mbind option_bind]. rewrite Hc.
  cbn [mbind option_bind].
  replace (Z.of_nat (length pre) + 1)
    with (Z.of_nat (length (pre ++ [c])))
    by (rewrite length_app; simpl; lia).
  replace (pre ++ c :: todo ++ rest) with ((pre ++ [c]) ++ todo ++ rest)
    by (by rewrite <- app_assoc).
  by apply IH.
Qed.
End HashTablePlus.

(** [operator+] with a right operand that stores nothing (every bucket is
    empty, as in a newly built table or a table whose elements were all
    removed) returns a copy of the left operand, whatever the sizes of
    the two tables: same size, same element count, same buckets. *)
Theorem plus_nothing {V : Type} (this rhs : HashTable.t V) :
  length (HashTable.table this) = Z.to_nat (HashTable.tableSize this) →
  length (HashTable.table rhs) = Z.to_nat (HashTable.tableSize rhs) →
  forallb isEmpty (HashTable.table rhs) = true →
  HashTable.plus this rhs = Some this.
Proof.
  intros Hl Hr He. unfold HashTable.plus.
  assert (HashTable.copy this = Some this) as ->.
  { unfold HashTable.copy, HashTable.tableSize, HashTable.numElements in *.
    pose proof (copy_cells_app (Z.to_nat (HashTable.size this)) []
                  (HashTable.table this) [] Hl) as H.
    cbn [length app] in H. change (Z.of_nat 0) with 0 in H.
    rewrite app_nil_r in H. rewrite H. simpl. by destruct this. }
  cbn [mbind option_bind]. rewrite <- Hr.
  pose proof (plus_loop_empty (HashTable.table rhs) [] []
                (HashTable.size rhs) (HashTable.elementCount rhs) this He)
    as H.
  cbn [length app] in H. change (Z.of_nat 0) with 0 in H.
  rewrite app_nil_r in H.
  replace (HashTable.mk (HashTable.table rhs) (HashTable.size rhs)
             (HashTable.elementCount rhs)) with rhs in H
    by (by destruct rhs).
  exact H.
Qed.

Lemma plus_nothing_witness :
  ∃ rhs : HashTable.t Z,
    HashTable.new 3 = Some rhs
    ∧ HashTable.plus example_table rhs = Some example_table.
Proof.
  exists (HashTable.mk (replicate 3 fresh) 3 0).
  split; [vm_compute; reflexivity|].
  apply plus_nothing; reflexivity.
Defined.

(** ** Hash table: a failed [insert] that changes the table *)

Section FilledTable.
Implicit Types (p c s i j : Z) (f : Z → Pair Z).









(** *** Filling the table: below half the size every insert succeeds *)



(** *** The rehash into a table that is too small *)








End FilledTable.

